(** * GitlabStatFetcher: a shallow embedding of [main.go] and its properties

    The development follows the layout of the program:
    - Go strings, number formatting and parsing ([strings], [strconv]);
    - the CSV writer ([encoding/csv]) and the three exporters;
    - the file system with the checkpoint index ([.fetched_projects]);
    - URL path extraction;
    - the concurrent paginated fetcher (commits, merge requests) and the
      index based discussion fetcher, as interleaving transition systems;
    - the sequential pipeline of [main].

    Text is represented by its sequence of Unicode code points: the records
    come from a JSON decoder, which only produces valid UTF-8, and every
    pattern the program searches for is ASCII, so that working on code
    points or on bytes gives the same result.

    Log lines and console output are left out. A file that has been opened
    can be read and written without error; failures of [os.Open] and
    [os.OpenFile] are kept. Functions of the Go standard library are
    modelled after their documented behaviour, on the inputs the program
    gives them. *)

From Stdlib Require Import ZArith String Ascii Lia.
From stdpp Require Import base tactics option list relations gmap.

Local Open Scope Z_scope.

(** ** Go strings *)

(** The code points of an ASCII literal. *)
Definition str (s : string) : list Z :=
  (λ a, Z.of_nat (nat_of_ascii a)) <$> list_ascii_of_string s.

Definition LF : Z := 10.
Definition CR : Z := 13.
Definition SPACE : Z := 32.
Definition QUOTE : Z := 34.
Definition COMMA : Z := 44.
Definition MINUS : Z := 45.
Definition PLUS : Z := 43.

Fixpoint string_eqb (s t : list Z) : bool :=
  match s, t with
  | [], [] => true
  | a :: s', b :: t' => (a =? b) && string_eqb s' t'
  | _, _ => false
  end.

(** [strings.HasPrefix]. *)
Fixpoint HasPrefix (s prefix : list Z) {struct prefix} : bool :=
  match prefix, s with
  | [], _ => true
  | p :: prefix', c :: s' => (c =? p) && HasPrefix s' prefix'
  | _ :: _, [] => false
  end.

(** [strings.TrimPrefix]: drops [prefix] once when [s] starts with it. *)
Definition TrimPrefix (s prefix : list Z) : list Z :=
  if HasPrefix s prefix then drop (length prefix) s else s.

(** [strings.ReplaceAll]: every non-overlapping occurrence of [old], scanned
    from the left, becomes [new]; an empty [old] matches before every code
    point and at the end. *)
Fixpoint replace_from (fuel : nat) (s old new : list Z) : list Z :=
  match fuel with
  | O => s
  | S fuel' =>
      match s with
      | [] => []
      | c :: s' =>
          if HasPrefix s old
          then new ++ replace_from fuel' (drop (length old) s) old new
          else c :: replace_from fuel' s' old new
      end
  end.

Definition ReplaceAll (s old new : list Z) : list Z :=
  match old with
  | [] => new ++ flat_map (λ c, c :: new) s
  | _ :: _ => replace_from (length s) s old new
  end.

(** *** [strconv] *)

Definition two63 : Z := 2 ^ 63.
Definition MaxInt64 : Z := two63 - 1.
Definition MinInt64 : Z := - two63.

(** Two's complement wrap-around of a 64-bit signed integer. *)
Definition wrap64 (x : Z) : Z := (x + two63) mod (2 ^ 64) - two63.

Definition in_int64 (x : Z) : Prop := MinInt64 ≤ x ≤ MaxInt64.

Definition is_digit (c : Z) : bool := (48 <=? c) && (c <=? 57).

(** The decimal digits of a non-negative number, most significant first. *)
Fixpoint digits_from (fuel : nat) (n : Z) (acc : list Z) : list Z :=
  match fuel with
  | O => acc
  | S fuel' =>
      let acc' := (48 + n mod 10) :: acc in
      if n <? 10 then acc' else digits_from fuel' (n / 10) acc'
  end.

Definition digits (n : Z) : list Z :=
  digits_from (S (Z.to_nat (Z.log2 n))) n [].

(** [strconv.FormatInt(i, 10)]. *)
Definition FormatInt (i : Z) : list Z :=
  if i <? 0 then MINUS :: digits (- i) else digits i.

(** [strconv.FormatBool]. *)
Definition FormatBool (b : bool) : list Z :=
  if b then str "true" else str "false".

(** The value of a digit string, read from the left. *)
Definition digits_value (ds : list Z) : Z :=
  fold_left (λ acc d, acc * 10 + (d - 48)) ds 0.

Inductive NumError := ErrSyntax | ErrRange.

(** [strconv.ParseInt(s, 10, 64)]: an optional sign and at least one decimal
    digit. A syntax error gives 0, a value out of range gives the nearest
    representable value, both together with the error. *)
Definition ParseInt (s : list Z) : Z * option NumError :=
  let '(neg, body) :=
    match s with
    | c :: rest =>
        if c =? MINUS then (true, rest)
        else if c =? PLUS then (false, rest) else (false, s)
    | [] => (false, [])
    end in
  match body with
  | [] => (0, Some ErrSyntax)
  | _ :: _ =>
      if forallb is_digit body then
        let un := digits_value body in
        if negb neg && (two63 <=? un) then (MaxInt64, Some ErrRange)
        else if neg && (two63 <? un) then (MinInt64, Some ErrRange)
        else (if neg then - un else un, None)
      else (0, Some ErrSyntax)
  end.

(** [strconv.Atoi] on a 64-bit platform: the fast path for short strings
    computes the same value as [ParseInt(s, 10, 0)]. *)
Definition Atoi (s : list Z) : Z * option NumError := ParseInt s.

(** ** Records of the API client *)

(** A [time.Time], by the civil date, the clock and the zone offset (seconds
    east of UTC) that [Format] prints. *)
Record Time := {
  year : Z; month : Z; day : Z;
  hour : Z; minute : Z; second : Z;
  zoneOffset : Z
}.

(** [appendInt] of package [time]: sign, zero padding to [width], digits. *)
Definition appendInt (x : Z) (width : nat) : list Z :=
  let ds := digits (Z.abs x) in
  (if x <? 0 then [MINUS] else []) ++ replicate (width - length ds) 48 ++ ds.

(** [t.Format(time.RFC3339)], layout [2006-01-02T15:04:05Z07:00]. *)
Definition Format_RFC3339 (t : Time) : list Z :=
  appendInt (year t) 4 ++ str "-" ++ appendInt (month t) 2 ++ str "-" ++
  appendInt (day t) 2 ++ str "T" ++ appendInt (hour t) 2 ++ str ":" ++
  appendInt (minute t) 2 ++ str ":" ++ appendInt (second t) 2 ++
  (if zoneOffset t =? 0 then str "Z"
   else
     let zone := Z.quot (zoneOffset t) 60 in
     (if zone <? 0 then str "-" else str "+") ++
     appendInt (Z.quot (Z.abs zone) 60) 2 ++ str ":" ++
     appendInt (Z.rem (Z.abs zone) 60) 2).

Definition formatDate (date : option Time) : list Z :=
  match date with
  | None => []
  | Some t => Format_RFC3339 t
  end.

(** The commits are listed with [WithStats], so that [Stats] is present. *)
Record CommitStats := { Additions : Z; Deletions : Z; Total : Z }.

Record Commit := {
  c_ProjectID : Z;
  c_ID : list Z;
  c_AuthorName : list Z;
  c_AuthorEmail : list Z;
  c_CommittedDate : option Time;
  c_Message : list Z;
  c_Stats : CommitStats
}.

Record BasicUser := { Username : list Z; Name : list Z }.

Record BasicMergeRequest := {
  m_ProjectID : Z;
  m_ID : Z;
  m_IID : Z;
  m_Title : list Z;
  m_State : list Z;
  m_Author : BasicUser;
  m_CreatedAt : option Time;
  m_MergedAt : option Time;
  m_SourceBranch : list Z;
  m_TargetBranch : list Z;
  m_SHA : list Z;
  m_MergeCommitSHA : list Z;
  m_SquashCommitSHA : list Z
}.

Record Note := {
  n_ProjectID : Z;
  n_ID : Z;
  n_Author : BasicUser;
  n_CreatedAt : option Time;
  n_UpdatedAt : option Time;
  n_Body : list Z;
  n_System : bool
}.

Record Project := { p_ID : Z; p_PathWithNamespace : list Z }.

(** ** The CSV writer *)

(** [unicode.IsSpace]. *)
Definition IsSpace (r : Z) : bool :=
  ((9 <=? r) && (r <=? 13)) || (r =? 32) || (r =? 133) || (r =? 160) ||
  (r =? 5760) || ((8192 <=? r) && (r <=? 8202)) || (r =? 8232) ||
  (r =? 8233) || (r =? 8239) || (r =? 8287) || (r =? 12288).

(** [fieldNeedsQuotes] of [csv.Writer], for the default comma. *)
Definition fieldNeedsQuotes (field : list Z) : bool :=
  match field with
  | [] => false
  | r1 :: _ =>
      string_eqb field (str "\.") ||
      existsb (λ c, (c =? LF) || (c =? CR) || (c =? QUOTE) || (c =? COMMA))
        field ||
      IsSpace r1
  end.

(** One field as [Write] of [csv.Writer] emits it ([UseCRLF] is off): verbatim,
    or between quotes with every quote doubled. *)
Definition writeField (field : list Z) : list Z :=
  if fieldNeedsQuotes field
  then QUOTE :: flat_map (λ c, if c =? QUOTE then [QUOTE; QUOTE] else [c]) field
       ++ [QUOTE]
  else field.

Fixpoint joinFields (fields : list (list Z)) : list Z :=
  match fields with
  | [] => []
  | [f] => writeField f
  | f :: rest => writeField f ++ COMMA :: joinFields rest
  end.

(** [Write] of [csv.Writer]: the fields, comma separated, and a line feed. *)
Definition csvWrite (record : list (list Z)) : list Z :=
  joinFields record ++ [LF].

(** ** The file system *)

(** A path either holds a regular file or cannot be opened at all. *)
Inductive node :=
  | File (data : list Z)
  | NoAccess.

Abbreviation filesystem := (gmap (list Z) node).

(** [os.OpenFile(name, O_APPEND|O_CREATE|O_WRONLY, 0644)]: the content at
    open time, the empty content for a file that is created. *)
Definition OpenAppend (fs : filesystem) (name : list Z) : option (list Z) :=
  match fs !! name with
  | None => Some []
  | Some (File data) => Some data
  | Some NoAccess => None
  end.

(** [os.Open(name)]. *)
Definition Open (fs : filesystem) (name : list Z) : option (list Z) :=
  match fs !! name with
  | Some (File data) => Some data
  | _ => None
  end.

(** Closing a file opened in append mode after [out] was written to it. *)
Definition appendClose (fs : filesystem) (name data out : list Z) : filesystem :=
  <[name := File (data ++ out)]> fs.

(** ** The CSV exporters *)

Definition commitsHeader : list (list Z) :=
  [str "project_id"; str "id"; str "author_name"; str "author_email";
   str "date"; str "message"; str "additions"; str "deletions"; str "total"].

Definition mrsHeader : list (list Z) :=
  [str "project_id"; str "mr_id"; str "title"; str "state";
   str "author_username"; str "author_name"; str "created_at";
   str "merged_at"; str "source_branch"; str "target_branch"; str "sha";
   str "merge_commit_sha"; str "squash_commit_sha"].

Definition notesHeader : list (list Z) :=
  [str "project_id"; str "note_id"; str "author_name"; str "author_username";
   str "created_at"; str "updated_at"; str "body"; str "system"].

(** The two [strings.ReplaceAll] calls on a free-text field. *)
Definition cleanText (s : list Z) : list Z :=
  ReplaceAll (ReplaceAll s [LF] [SPACE]) [CR] [SPACE].

Definition commitRow (c : Commit) : list (list Z) :=
  let cleanMessage := cleanText (c_Message c) in
  [FormatInt (c_ProjectID c); c_ID c; c_AuthorName c; c_AuthorEmail c;
   formatDate (c_CommittedDate c); cleanMessage;
   FormatInt (Additions (c_Stats c)); FormatInt (Deletions (c_Stats c));
   FormatInt (Total (c_Stats c))].

Definition mrRow (m : BasicMergeRequest) : list (list Z) :=
  [FormatInt (m_ProjectID m); FormatInt (m_ID m); m_Title m; m_State m;
   Username (m_Author m); Name (m_Author m); formatDate (m_CreatedAt m);
   formatDate (m_MergedAt m); m_SourceBranch m; m_TargetBranch m; m_SHA m;
   m_MergeCommitSHA m; m_SquashCommitSHA m].

Definition noteRow (n : Note) : list (list Z) :=
  let cleanBody := cleanText (n_Body n) in
  [FormatInt (n_ProjectID n); FormatInt (n_ID n); Name (n_Author n);
   Username (n_Author n); formatDate (n_CreatedAt n);
   formatDate (n_UpdatedAt n); cleanBody; FormatBool (n_System n)].

(** What one exporter call writes, and whether it wrote the header, given
    the content [data] of the file when it was opened. *)
Definition exportOutput {A} (header : list (list Z)) (row : A → list (list Z))
    (records : list A) (data : list Z) : bool * list Z :=
  let hasHeader := 0 <? Z.of_nat (length data) in
  let head := if negb hasHeader then csvWrite header else [] in
  (negb hasHeader, head ++ flat_map (λ r, csvWrite (row r)) records).

(** The common body of [writeCommitsCSV], [writeMRsCSV] and [writeNotesCSV]:
    [None] is the error of a failed open. *)
Definition writeCSV {A} (header : list (list Z)) (row : A → list (list Z))
    (records : list A) (filename : list Z) (fs : filesystem)
    : option filesystem :=
  match OpenAppend fs filename with
  | None => None
  | Some data =>
      Some (appendClose fs filename data
              (snd (exportOutput header row records data)))
  end.

Definition writeCommitsCSV := writeCSV commitsHeader commitRow.
Definition writeMRsCSV := writeCSV mrsHeader mrRow.
Definition writeNotesCSV := writeCSV notesHeader noteRow.


(** ** The checkpoint store *)

(** [fmt.Sprintf("%s/.fetched_projects", dataDir)]. *)
Definition indexFile (dataDir : list Z) : list Z :=
  dataDir ++ str "/.fetched_projects".

(** [SkipSpace] of the scanner when a line feed is not a space ([Fscanf]):
    blanks are dropped, a line feed is an error, the end of input is not. *)
Fixpoint SkipSpace (input : list Z) : option (list Z) :=
  match input with
  | [] => Some []
  | r :: rest =>
      if r =? LF then None
      else if IsSpace r then SkipSpace rest
      else Some input
  end.

(** Blanks other than a line feed, as the format's white space consumes
    them. *)
Fixpoint skipBlanks (input : list Z) : list Z :=
  match input with
  | r :: rest => if IsSpace r && negb (r =? LF) then skipBlanks rest else input
  | [] => []
  end.

(** The longest prefix that satisfies [f], and what follows it. *)
Fixpoint spanRunes (f : Z → bool) (input : list Z) : list Z * list Z :=
  match input with
  | r :: rest =>
      if f r then let '(tok, rest') := spanRunes f rest in (r :: tok, rest')
      else ([], input)
  | [] => ([], [])
  end.

(** The verb [%d] into an [int64]: blanks, an optional sign, at least one
    digit; the token has to fit 64 bits. *)
Definition scanInt (input : list Z) : option (Z * list Z) :=
  input ← SkipSpace input;
  match input with
  | [] => None
  | r :: rest =>
      let '(sign, input) :=
        if (r =? PLUS) || (r =? MINUS) then ([r], rest) else ([], input) in
      let '(ds, input) := spanRunes is_digit input in
      match ds with
      | [] => None
      | _ :: _ =>
          match ParseInt (sign ++ ds) with
          | (i, None) => Some (i, input)
          | (_, Some _) => None
          end
      end
  end.

(** A single space of the format that does not follow a line feed: at
    least one blank of the input, or its end. *)
Definition advanceSpace (input : list Z) : option (list Z) :=
  match input with
  | [] => Some []
  | r :: rest =>
      if negb (IsSpace r) then None
      else if r =? LF then None
      else Some (skipBlanks rest)
  end.

(** The verb [%s]: blanks, then the next word, which must exist. *)
Definition scanString (input : list Z) : option (list Z * list Z) :=
  input ← SkipSpace input;
  match input with
  | [] => None
  | _ :: _ => Some (spanRunes (λ r, negb (IsSpace r)) input)
  end.

(** A line feed of the format: blanks, then a line feed or the end of the
    input. *)
Definition advanceNewline (input : list Z) : option (list Z) :=
  match skipBlanks input with
  | [] => Some []
  | r :: rest => if r =? LF then Some rest else None
  end.

(** [fmt.Fscanf(file, "%d %s\n", &projectID, &projectPath)] on the unread
    part of the file: the two values and what is left to read, or [None]
    for an error. *)
Definition Fscanf_entry (input : list Z) : option ((Z * list Z) * list Z) :=
  '(projectID, input) ← scanInt input;
  input ← advanceSpace input;
  '(projectPath, input) ← scanString input;
  input ← advanceNewline input;
  Some ((projectID, projectPath), input).

(** The read loop of [loadFetchedProjects]; it stops at the first error. *)
Fixpoint readEntries (fuel : nat) (input : list Z) (fetched : gmap Z bool)
    : gmap Z bool :=
  match fuel with
  | O => fetched
  | S fuel' =>
      match Fscanf_entry input with
      | None => fetched
      | Some ((projectID, _), rest) =>
          readEntries fuel' rest (<[projectID := true]> fetched)
      end
  end.

Definition loadFetchedProjects (dataDir : list Z) (fs : filesystem)
    : gmap Z bool :=
  let fetched : gmap Z bool := ∅ in
  match Open fs (indexFile dataDir) with
  | None => fetched
  | Some data => readEntries (S (length data)) data fetched
  end.

(** Reading a [map[int64]bool]: a missing key reads as [false]. *)
Definition isFetched (fetched : gmap Z bool) (projectID : Z) : bool :=
  default false (fetched !! projectID).

(** [fmt.Fprintf(file, "%d %s\n", projectID, projectPath)]. *)
Definition indexEntry (projectID : Z) (projectPath : list Z) : list Z :=
  FormatInt projectID ++ [SPACE] ++ projectPath ++ [LF].

(** [markProjectFetched]: a failed open is logged and nothing is written. *)
Definition markProjectFetched (dataDir : list Z) (projectID : Z)
    (projectPath : list Z) (fs : filesystem) : filesystem :=
  match OpenAppend fs (indexFile dataDir) with
  | None => fs
  | Some data =>
      appendClose fs (indexFile dataDir) data (indexEntry projectID projectPath)
  end.

(** ** URL path extraction *)

(** The two fields of a parsed [url.URL] that the program reads. *)
Record URL := { Host : list Z; Path : list Z }.

Inductive ExtractError :=
  | InvalidURL
  | InvalidBaseURL
  | HostMismatch (urlHost baseHost : list Z).

Inductive result (E A : Type) :=
  | Ok (a : A)
  | Err (e : E).
Arguments Ok {E A} a.
Arguments Err {E A} e.

(** [extractPath]; [Parse] stands for [url.Parse] of the standard library,
    [None] being its error. *)
Definition extractPath (Parse : list Z → option URL)
    (inputURL baseURL : list Z) : result ExtractError (list Z) :=
  match Parse inputURL with
  | None => Err InvalidURL
  | Some parsedURL =>
      match Parse baseURL with
      | None => Err InvalidBaseURL
      | Some parsedBase =>
          if negb (string_eqb (Host parsedURL) (Host parsedBase))
          then Err (HostMismatch (Host parsedURL) (Host parsedBase))
          else
            let path := TrimPrefix (Path parsedURL) (str "/") in
            Ok path
      end
  end.

(** [url.Parse] on plain hierarchical URLs: an alphabetic scheme, [://], a
    host and a path made of letters, digits, dots, dashes, underscores and
    slashes. The host is what lies before the first slash, the path is the
    rest. Inputs of any other shape are outside this fragment and are
    rejected here, which [url.Parse] does not do for all of them: this
    function is used in the examples, on URLs of the fragment only, and
    the general theorems about [extractPath] and [main] take [Parse] as a
    parameter. *)
Definition isLetter (c : Z) : bool :=
  ((65 <=? c) && (c <=? 90)) || ((97 <=? c) && (c <=? 122)).

Definition isPlain (c : Z) : bool :=
  isLetter c || is_digit c || (c =? 46) || (c =? 45) || (c =? 95).

Definition ParsePlain (rawURL : list Z) : option URL :=
  let '(scheme, rest) := spanRunes isLetter rawURL in
  if negb (string_eqb scheme []) && HasPrefix rest (str "://") then
    let '(host, path) := spanRunes isPlain (drop 3 rest) in
    if forallb (λ c, isPlain c || (c =? 47)) path
    then Some {| Host := host; Path := path |}
    else None
  else None.

(** ** Channels

    [make(chan T, size)] as [makechan] of the runtime decides it on
    linux/amd64: it panics when the size is negative, and when the buffer
    of [size] elements of [elemSize] bytes is more than the allocator can
    hand out, that is [maxAlloc] less the header of the channel (96 bytes,
    104 in later releases, which gives the same largest size). The three
    channels of the program carry slices, whose headers take 24 bytes.
    The memory is taken to be there for every size the runtime accepts. *)
Definition maxAlloc : Z := 2 ^ 48.
Definition hchanSize : Z := 96.
Definition sliceSize : Z := 24.

Definition makechan (elemSize size : Z) : option nat :=
  if (size <? 0) || (maxAlloc - hchanSize <? elemSize * size) then None
  else Some (Z.to_nat size).

(** The largest worker count for which [make(chan []T, workers*2)] does
    not panic: [(2^48 - 96) / 24 / 2], rounded down. *)
Definition maxWorkers : Z := 5864062014803.

(** ** The concurrent paginated fetcher

    [fetchCommits] and [fetchMRs] are the same program up to the type of
    the records and the page request. Its goroutines are the [workers]
    started by the loop, the goroutine that closes [results] after
    [wg.Wait()], and the calling goroutine that ranges over [results]. One
    step of the transition system is one atomic operation, page request or
    channel operation of one goroutine; an execution is any interleaving. *)

Inductive thread :=
  | Worker (i : nat)
  | Closer
  | Collector.

Module Pager.
Section Pager.
Context {A : Type}.

(** [fetchCommitPage] or [fetchMRPage] for the project at hand: the records
    of a page, none when the request fails. *)
Variable fetchPage : Z → list A.

(** Where a worker is in its loop. *)
Inductive pc :=
  | AtLoad                                 (* atomic.LoadInt32(&stop) *)
  | AtClaim                                (* atomic.AddInt64(&nextPage, 1) - 1 *)
  | AtFetch (page : Z)                     (* the page request *)
  | AtStore (page : Z)                     (* atomic.StoreInt32(&stop, 1) *)
  | AtSend (page : Z) (records : list A)   (* results <- records *)
  | Exited.                                (* returned, wg.Done() ran *)

Record state := {
  nextPage : Z;                (* shared counter *)
  stop : Z;                    (* atomic flag *)
  capacity : nat;              (* cap(results) *)
  results : list (list A);     (* the buffered pages, oldest first *)
  closed : bool;               (* close(results) ran *)
  workers : list pc;
  allRecords : list A;         (* allCommits, allMRs *)
  returned : bool;             (* the range loop ended *)
  requested : list Z;          (* pages requested so far, latest first *)
  signals : list Z             (* pages whose emptiness set the flag *)
}.

Definition setWorker (i : nat) (w : pc) (s : state) : state :=
  {| nextPage := nextPage s; stop := stop s; capacity := capacity s;
     results := results s; closed := closed s;
     workers := <[i := w]> (workers s);
     allRecords := allRecords s; returned := returned s;
     requested := requested s; signals := signals s |}.

(** The state after the variable declarations and the start of the
    goroutines; [None] when [make] panics. *)
Definition init (workersCount : Z) : option state :=
  match makechan sliceSize (wrap64 (workersCount * 2)) with
  | None => None
  | Some cap =>
      Some {| nextPage := 1; stop := 0; capacity := cap;
              results := []; closed := false;
              workers := replicate (Z.to_nat workersCount) AtLoad;
              allRecords := []; returned := false;
              requested := []; signals := [] |}
  end.

Definition workerStep (i : nat) (s : state) : option state :=
  match workers s !! i with
  | Some AtLoad =>
      if stop s =? 1 then Some (setWorker i Exited s)
      else Some (setWorker i AtClaim s)
  | Some AtClaim =>
      let next := wrap64 (nextPage s + 1) in
      let page := wrap64 (next - 1) in
      Some (setWorker i (AtFetch page)
              {| nextPage := next; stop := stop s; capacity := capacity s;
                 results := results s; closed := closed s;
                 workers := workers s; allRecords := allRecords s;
                 returned := returned s; requested := requested s;
                 signals := signals s |})
  | Some (AtFetch page) =>
      let records := fetchPage page in
      let s' :=
        {| nextPage := nextPage s; stop := stop s; capacity := capacity s;
           results := results s; closed := closed s;
           workers := workers s; allRecords := allRecords s;
           returned := returned s; requested := page :: requested s;
           signals := signals s |} in
      if Z.of_nat (length records) =? 0
      then Some (setWorker i (AtStore page) s')
      else Some (setWorker i (AtSend page records) s')
  | Some (AtStore page) =>
      Some (setWorker i Exited
              {| nextPage := nextPage s; stop := 1; capacity := capacity s;
                 results := results s; closed := closed s;
                 workers := workers s; allRecords := allRecords s;
                 returned := returned s; requested := requested s;
                 signals := page :: signals s |})
  | Some (AtSend page records) =>
      if decide (length (results s) < capacity s)%nat
      then Some (setWorker i AtLoad
              {| nextPage := nextPage s; stop := stop s;
                 capacity := capacity s;
                 results := results s ++ [records]; closed := closed s;
                 workers := workers s; allRecords := allRecords s;
                 returned := returned s; requested := requested s;
                 signals := signals s |})
      else None
  | Some Exited | None => None
  end.

Definition isExited (w : pc) : bool :=
  match w with Exited => true | _ => false end.

(** [wg.Wait()] returns once every worker is done; then [close(results)]. *)
Definition closerStep (s : state) : option state :=
  if negb (closed s) && forallb isExited (workers s)
  then Some {| nextPage := nextPage s; stop := stop s; capacity := capacity s;
               results := results s; closed := true;
               workers := workers s; allRecords := allRecords s;
               returned := returned s; requested := requested s;
               signals := signals s |}
  else None.

(** One iteration of [for records := range results]: a buffered page is
    appended, a closed and drained channel ends the loop. *)
Definition collectorStep (s : state) : option state :=
  if returned s then None
  else
    match results s with
    | records :: rest =>
        Some {| nextPage := nextPage s; stop := stop s;
                capacity := capacity s;
                results := rest; closed := closed s;
                workers := workers s;
                allRecords := allRecords s ++ records;
                returned := returned s; requested := requested s;
                signals := signals s |}
    | [] =>
        if closed s
        then Some {| nextPage := nextPage s; stop := stop s;
                     capacity := capacity s;
                     results := []; closed := closed s;
                     workers := workers s; allRecords := allRecords s;
                     returned := true; requested := requested s;
                     signals := signals s |}
        else None
    end.

Definition step (t : thread) (s : state) : option state :=
  match t with
  | Worker i => workerStep i s
  | Closer => closerStep s
  | Collector => collectorStep s
  end.

(** Some goroutine takes a step. *)
Definition Step (s s' : state) : Prop := ∃ t, step t s = Some s'.

(** The execution under a given schedule; [None] when the schedule picks a
    goroutine that cannot move. *)
Fixpoint run (schedule : list thread) (s : state) : option state :=
  match schedule with
  | [] => Some s
  | t :: schedule' =>
      match step t s with
      | Some s' => run schedule' s'
      | None => None
      end
  end.

(** The function can return [result] when started with [workersCount]
    workers. *)
Definition returns (workersCount : Z) (result : list A) : Prop :=
  ∃ s0 s, init workersCount = Some s0 ∧ rtc Step s0 s ∧
          returned s = true ∧ allRecords s = result.

End Pager.
End Pager.

(** ** The discussion fetcher *)

(** A [gitlab.Discussion], by its notes. *)
Record Discussion := { Notes : list Note }.

(** [fetchMRDiscussions]; [listDiscussions] is the one
    [ListMergeRequestDiscussions] request, [None] when it fails. *)
Definition fetchMRDiscussions (listDiscussions : Z → option (list Discussion))
    (mrIID : Z) : list Note :=
  match listDiscussions mrIID with
  | None => []
  | Some glDiscussions =>
      fold_left
        (λ notes gd,
           if Z.of_nat (length (Notes gd)) =? 0 then notes
           else notes ++ Notes gd)
        glDiscussions []
  end.

Module Discussions.
Section Discussions.

Variable listDiscussions : Z → option (list Discussion).
Variable mrIIDs : list Z.

Inductive pc :=
  | AtClaim                               (* atomic.AddInt64(&nextIdx, 1) - 1 *)
  | AtFetch (idx : Z)                     (* mrIIDs[idx], the request *)
  | AtSend (idx : Z) (notes : list Note)  (* results <- notes *)
  | AtCount                               (* atomic.AddInt64(&done, 1) *)
  | Exited
  | Panicked.                             (* index out of range *)

Record state := {
  nextIdx : Z;
  done : Z;
  capacity : nat;
  results : list (list Note);
  closed : bool;
  workers : list pc;
  allNotes : list Note;
  returned : bool;
  requested : list (nat * Z)    (* worker and index of each request *)
}.

Definition total : Z := Z.of_nat (length mrIIDs).

Definition setWorker (i : nat) (w : pc) (s : state) : state :=
  {| nextIdx := nextIdx s; done := done s; capacity := capacity s;
     results := results s; closed := closed s;
     workers := <[i := w]> (workers s);
     allNotes := allNotes s; returned := returned s;
     requested := requested s |}.

Definition init (workersCount : Z) : option state :=
  match makechan sliceSize (wrap64 (workersCount * 2)) with
  | None => None
  | Some cap =>
      Some {| nextIdx := 0; done := 0; capacity := cap;
              results := []; closed := false;
              workers := replicate (Z.to_nat workersCount) AtClaim;
              allNotes := []; returned := false; requested := [] |}
  end.

Definition workerStep (i : nat) (s : state) : option state :=
  match workers s !! i with
  | Some AtClaim =>
      let next := wrap64 (nextIdx s + 1) in
      let idx := wrap64 (next - 1) in
      let s' :=
        {| nextIdx := next; done := done s; capacity := capacity s;
           results := results s; closed := closed s; workers := workers s;
           allNotes := allNotes s; returned := returned s;
           requested := requested s |} in
      if total <=? idx then Some (setWorker i Exited s')
      else Some (setWorker i (AtFetch idx) s')
  | Some (AtFetch idx) =>
      if idx <? 0 then Some (setWorker i Panicked s)
      else
        match mrIIDs !! Z.to_nat idx with
        | None => Some (setWorker i Panicked s)
        | Some mrIID =>
            let notes := fetchMRDiscussions listDiscussions mrIID in
            Some (setWorker i (AtSend idx notes)
                    {| nextIdx := nextIdx s; done := done s;
                       capacity := capacity s;
                       results := results s; closed := closed s;
                       workers := workers s; allNotes := allNotes s;
                       returned := returned s;
                       requested := (i, idx) :: requested s |})
        end
  | Some (AtSend idx notes) =>
      if decide (length (results s) < capacity s)%nat
      then Some (setWorker i AtCount
              {| nextIdx := nextIdx s; done := done s; capacity := capacity s;
                 results := results s ++ [notes]; closed := closed s;
                 workers := workers s; allNotes := allNotes s;
                 returned := returned s; requested := requested s |})
      else None
  | Some AtCount =>
      Some (setWorker i AtClaim
              {| nextIdx := nextIdx s; done := wrap64 (done s + 1);
                 capacity := capacity s;
                 results := results s; closed := closed s;
                 workers := workers s; allNotes := allNotes s;
                 returned := returned s; requested := requested s |})
  | Some Exited | Some Panicked | None => None
  end.

Definition isExited (w : pc) : bool :=
  match w with Exited => true | _ => false end.

Definition closerStep (s : state) : option state :=
  if negb (closed s) && forallb isExited (workers s)
  then Some {| nextIdx := nextIdx s; done := done s; capacity := capacity s;
               results := results s; closed := true; workers := workers s;
               allNotes := allNotes s; returned := returned s;
               requested := requested s |}
  else None.

Definition collectorStep (s : state) : option state :=
  if returned s then None
  else
    match results s with
    | notes :: rest =>
        Some {| nextIdx := nextIdx s; done := done s; capacity := capacity s;
                results := rest; closed := closed s; workers := workers s;
                allNotes := allNotes s ++ notes; returned := returned s;
                requested := requested s |}
    | [] =>
        if closed s
        then Some {| nextIdx := nextIdx s; done := done s;
                     capacity := capacity s;
                     results := []; closed := closed s; workers := workers s;
                     allNotes := allNotes s; returned := true;
                     requested := requested s |}
        else None
    end.

Definition step (t : thread) (s : state) : option state :=
  match t with
  | Worker i => workerStep i s
  | Closer => closerStep s
  | Collector => collectorStep s
  end.

Definition Step (s s' : state) : Prop := ∃ t, step t s = Some s'.

Fixpoint run (schedule : list thread) (s : state) : option state :=
  match schedule with
  | [] => Some s
  | t :: schedule' =>
      match step t s with
      | Some s' => run schedule' s'
      | None => None
      end
  end.

Definition returns (workersCount : Z) (result : list Note) : Prop :=
  ∃ s0 s, init workersCount = Some s0 ∧ rtc Step s0 s ∧
          returned s = true ∧ allNotes s = result.

End Discussions.
End Discussions.

(** ** The pipeline of [main] *)

(** The remote, as the program observes it through the API client. *)
Record Client := {
  (* the outcome of recursivelyFetchProjectFromPath(client, path) *)
  resolveProjects : list Z → option (list Project);
  (* fetchCommitPage(client, projectID, page, sinceDate) *)
  commitPage : Z → Z → list Commit;
  (* fetchMRPage(client, projectID, page, sinceDate) *)
  mrPage : Z → Z → list BasicMergeRequest;
  (* client.Discussions.ListMergeRequestDiscussions(projectID, mrIID, nil) *)
  discussionList : Z → Z → option (list Discussion)
}.

(** [os.Getenv]: the empty string for a variable that is not set. *)
Definition Getenv (env : gmap (list Z) (list Z)) (key : list Z) : list Z :=
  default [] (env !! key).

Inductive FatalError :=
  | MissingConfiguration
  | MissingDataFolder
  | NoURLs
  | ExtractFailed (e : ExtractError)
  | ResolveFailed.

(** The worker count as [main] computes it; the error of [strconv.Atoi] is
    assigned and never read. *)
Definition workersCount (env : gmap (list Z) (list Z)) : Z :=
  let workersCountEnv := Getenv env (str "GITLAB_WORKERS") in
  match workersCountEnv with
  | [] => 1
  | _ :: _ => fst (Atoi workersCountEnv)
  end.

(** The loop over the input URLs. The first component lists the paths that
    were handed to [recursivelyFetchProjectFromPath], the only place of the
    loop where the remote is called; [log.Fatal] ends the loop. *)
Fixpoint resolveURLs (Parse : list Z → option URL) (client : Client)
    (gitlabBaseURL : list Z) (urls : list (list Z))
    (allProjects : list Project)
    : list (list Z) * result FatalError (list Project) :=
  match urls with
  | [] => ([], Ok allProjects)
  | url :: urls' =>
      match extractPath Parse url gitlabBaseURL with
      | Err e => ([], Err (ExtractFailed e))
      | Ok path =>
          match resolveProjects client path with
          | None => ([path], Err ResolveFailed)
          | Some projects =>
              let '(calls, r) :=
                resolveURLs Parse client gitlabBaseURL urls'
                  (allProjects ++ projects) in
              (path :: calls, r)
          end
      end
  end.

(** The projects that are not in the index loaded at start-up. *)
Definition projectsToFetch (fetchedProjects : gmap Z bool)
    (allProjects : list Project) : list Project :=
  filter (λ project, isFetched fetchedProjects (p_ID project) = false)
    allProjects.

Record Plan := {
  planWorkers : Z;
  planDataFolder : list Z;
  planProjects : list Project
}.

(** [main] up to the fetch loop, on the runs in which [godotenv.Load],
    [os.MkdirAll] of the data folder and [gitlab.NewClient] succeed (they
    take the environment file, the folder and the client as given here).
    When one of the three fails, [main] ends with [log.Fatal] at that
    point; those runs have no counterpart in this definition. *)
Definition mainSetup (Parse : list Z → option URL) (client : Client)
    (env : gmap (list Z) (list Z)) (urls : list (list Z)) (fs : filesystem)
    : list (list Z) * result FatalError Plan :=
  let gitlabBaseURL := Getenv env (str "GITLAB_URL") in
  let token := Getenv env (str "GITLAB_TOKEN") in
  if string_eqb gitlabBaseURL [] || string_eqb token [] then
    ([], Err MissingConfiguration)
  else
    let workers := workersCount env in
    let dataFolder := Getenv env (str "DATA_FOLDER") in
    if string_eqb dataFolder [] then ([], Err MissingDataFolder)
    else
      let fetchedProjects := loadFetchedProjects dataFolder fs in
      match urls with
      | [] => ([], Err NoURLs)
      | _ :: _ =>
          match resolveURLs Parse client gitlabBaseURL urls [] with
          | (calls, Err e) => (calls, Err e)
          | (calls, Ok allProjects) =>
              (calls,
               Ok {| planWorkers := workers; planDataFolder := dataFolder;
                     planProjects :=
                       projectsToFetch fetchedProjects allProjects |})
          end
      end.

Definition orElse (fs : filesystem) (written : option filesystem) : filesystem :=
  default fs written.

(** The writes of [fetchAll]; a failed export is logged and skipped. *)
Definition writeOutputs (dataDir : list Z) (commits : list Commit)
    (mrs : list BasicMergeRequest) (notes : list Note) (fs : filesystem)
    : filesystem :=
  let commitsFile := dataDir ++ str "/commits.csv" in
  let fs := orElse fs (writeCommitsCSV commits commitsFile fs) in
  let mrsFile := dataDir ++ str "/merge_requests.csv" in
  let fs := orElse fs (writeMRsCSV mrs mrsFile fs) in
  if 0 <? Z.of_nat (length notes) then
    let notesFile := dataDir ++ str "/notes.csv" in
    orElse fs (writeNotesCSV notes notesFile fs)
  else fs.

(** [fetchAll]: the three fetch phases, each with any result it can return,
    then the writes. *)
Inductive fetchAll (client : Client) (projectID workers : Z)
    (dataDir : list Z) (skipDiscussions : bool) (fs : filesystem)
    : filesystem → Prop :=
  | fetchAll_done commits mrs notes :
      Pager.returns (commitPage client projectID) workers commits →
      Pager.returns (mrPage client projectID) workers mrs →
      (if skipDiscussions then notes = []
       else Discussions.returns (discussionList client projectID)
              (m_IID <$> mrs) workers notes) →
      fetchAll client projectID workers dataDir skipDiscussions fs
        (writeOutputs dataDir commits mrs notes fs).

(** The loop over [projectsToFetch]. *)
Inductive fetchLoop (client : Client) (workers : Z) (dataDir : list Z)
    (skipDiscussions : bool)
    : list Project → filesystem → filesystem → Prop :=
  | fetchLoop_nil fs :
      fetchLoop client workers dataDir skipDiscussions [] fs fs
  | fetchLoop_cons project projects fs fs1 fs2 :
      fetchAll client (p_ID project) workers dataDir skipDiscussions fs fs1 →
      fetchLoop client workers dataDir skipDiscussions projects
        (markProjectFetched dataDir (p_ID project)
           (p_PathWithNamespace project) fs1) fs2 →
      fetchLoop client workers dataDir skipDiscussions
        (project :: projects) fs fs2.

Inductive outcome :=
  | Fatal (e : FatalError)
  | Completed (fs : filesystem).

(** A run of [main] on the files [fs] ends with [o]. *)
Definition mainRuns (Parse : list Z → option URL) (client : Client)
    (env : gmap (list Z) (list Z)) (skipDiscussions : bool)
    (urls : list (list Z)) (fs : filesystem) (o : outcome) : Prop :=
  match snd (mainSetup Parse client env urls fs) with
  | Err e => o = Fatal e
  | Ok plan =>
      ∃ fs', fetchLoop client (planWorkers plan) (planDataFolder plan)
               skipDiscussions (planProjects plan) fs fs' ∧
             o = Completed fs'
  end.

(** * Properties *)

(** ** Strings and numbers *)

Lemma replace_from_single (c : Z) (new : list Z) :
  ∀ (fuel : nat) (s : list Z), (length s ≤ fuel)%nat →
    replace_from fuel s [c] new =
    flat_map (λ x, if x =? c then new else [x]) s.
Proof.
  induction fuel as [|fuel IH]; intros s Hlen.
  - destruct s; simpl in *; [reflexivity | lia].
  - destruct s as [|x s]; [reflexivity|].
    simpl in Hlen. cbn [replace_from HasPrefix flat_map].
    rewrite andb_true_r. destruct (x =? c).
    + simpl. rewrite drop_0. f_equal. apply IH. lia.
    + simpl. f_equal. apply IH. lia.
Qed.

Lemma ReplaceAll_single (s : list Z) (c : Z) (new : list Z) :
  ReplaceAll s [c] new = flat_map (λ x, if x =? c then new else [x]) s.
Proof. unfold ReplaceAll. by apply replace_from_single. Qed.

(** What the two replacements do to a single code point. *)
Definition cleanRune (r : Z) : Z :=
  if (r =? LF) || (r =? CR) then SPACE else r.

Lemma cleanText_map (s : list Z) : cleanText s = cleanRune <$> s.
Proof.
  unfold cleanText. rewrite !ReplaceAll_single.
  induction s as [|x s IH]; [reflexivity|].
  cbn [flat_map fmap list_fmap]. unfold cleanRune at 1.
  destruct (x =? LF) eqn:E1; simpl.
  - rewrite IH. reflexivity.
  - destruct (x =? CR) eqn:E2; simpl; rewrite IH; reflexivity.
Qed.

(** A text without line feed and carriage return. *)
Definition oneLine (s : list Z) : Prop := Forall (λ c, c ≠ LF ∧ c ≠ CR) s.

Lemma oneLine_app (s t : list Z) : oneLine s → oneLine t → oneLine (s ++ t).
Proof. unfold oneLine. intros. by apply Forall_app. Qed.

Lemma oneLine_cleanText (s : list Z) : oneLine (cleanText s).
Proof.
  rewrite cleanText_map. unfold oneLine. apply Forall_fmap, Forall_forall.
  intros x _. unfold cleanRune, LF, CR, SPACE. simpl.
  destruct (x =? 10) eqn:E1; destruct (x =? 13) eqn:E2; simpl; lia.
Qed.

Definition digitRune (c : Z) : Prop := 48 ≤ c ≤ 57.

Lemma digits_from_digit (fuel : nat) :
  ∀ n acc, Forall digitRune acc → Forall digitRune (digits_from fuel n acc).
Proof.
  induction fuel as [|fuel IH]; intros n acc Hacc; simpl; [done|].
  assert (Forall digitRune ((48 + n mod 10) :: acc)) as Hacc'.
  { constructor; [|done]. unfold digitRune.
    pose proof (Z.mod_pos_bound n 10). lia. }
  destruct (n <? 10); [done|]. by apply IH.
Qed.

Lemma digits_digit (n : Z) : Forall digitRune (digits n).
Proof. apply digits_from_digit. constructor. Qed.

Lemma digitRune_oneLine (s : list Z) : Forall digitRune s → oneLine s.
Proof.
  unfold oneLine. intros H. eapply Forall_impl; [exact H|].
  unfold digitRune, LF, CR. intros; simpl in *. lia.
Qed.

Lemma oneLine_FormatInt (i : Z) : oneLine (FormatInt i).
Proof.
  unfold FormatInt. destruct (i <? 0).
  - constructor; [unfold MINUS, LF, CR; lia|].
    apply digitRune_oneLine, digits_digit.
  - apply digitRune_oneLine, digits_digit.
Qed.

Lemma oneLine_appendInt (x : Z) (width : nat) : oneLine (appendInt x width).
Proof.
  unfold appendInt. repeat apply oneLine_app.
  - destruct (x <? 0); repeat constructor; unfold MINUS, LF, CR; lia.
  - unfold oneLine. apply Forall_replicate. unfold LF, CR. lia.
  - apply digitRune_oneLine, digits_digit.
Qed.

Lemma oneLine_ascii (s : list Z) :
  forallb (λ c, negb (c =? LF) && negb (c =? CR)) s = true → oneLine s.
Proof.
  intros H. unfold oneLine. apply Forall_forall. intros c Hc.
  rewrite forallb_forall in H. apply list_elem_of_In in Hc.
  specialize (H c Hc). lia.
Qed.

Lemma oneLine_formatDate (date : option Time) : oneLine (formatDate date).
Proof.
  destruct date as [t|]; [|constructor].
  pose proof oneLine_appendInt as Hint.
  assert (∀ s, forallb (λ c, negb (c =? LF) && negb (c =? CR)) s = true →
               Forall (λ c, c ≠ LF ∧ c ≠ CR) s) as Hascii
    by exact oneLine_ascii.
  unfold formatDate, Format_RFC3339, oneLine in *.
  rewrite !Forall_app. repeat split; try apply Hint; try by apply Hascii.
  destruct (zoneOffset t =? 0); [by apply Hascii|].
  rewrite !Forall_app. repeat split; try apply Hint; try by apply Hascii.
  destruct (_ <? 0); by apply Hascii.
Qed.

(** ** The CSV writer *)

Lemma oneLine_writeField (field : list Z) :
  oneLine field → oneLine (writeField field).
Proof.
  intros H. unfold writeField. destruct (fieldNeedsQuotes field); [|done].
  constructor; [unfold QUOTE, LF, CR; lia|].
  apply oneLine_app; [|repeat constructor; unfold QUOTE, LF, CR; lia].
  induction H as [|c s Hc Hs IH]; [constructor|].
  cbn [flat_map]. apply oneLine_app; [|done].
  destruct (c =? QUOTE).
  - repeat (apply Forall_cons_2; [unfold QUOTE, LF, CR; lia|]).
    apply Forall_nil_2.
  - apply Forall_cons_2; [exact Hc | apply Forall_nil_2].
Qed.

Lemma oneLine_joinFields (fields : list (list Z)) :
  Forall oneLine fields → oneLine (joinFields fields).
Proof.
  induction 1 as [|f fs Hf Hfs IH]; [constructor|].
  cbn [joinFields]. destruct fs as [|g fs].
  - by apply oneLine_writeField.
  - apply oneLine_app; [by apply oneLine_writeField|].
    constructor; [unfold COMMA, LF, CR; lia | done].
Qed.

(** The line feeds of a text. *)
Definition lineFeeds (s : list Z) : nat := length (filter (λ c, c = LF) s).

Lemma oneLine_lineFeeds (s : list Z) : oneLine s → lineFeeds s = 0%nat.
Proof.
  unfold lineFeeds. induction 1 as [|c s [Hc _] Hs IH]; [done|].
  rewrite filter_cons_False; done.
Qed.

(** ** The exporters: sanitised free text *)

Create HintDb lines.
#[local] Hint Resolve oneLine_FormatInt oneLine_formatDate oneLine_cleanText
  : lines.

Lemma oneLine_commitRow (c : Commit) :
  oneLine (c_ID c) → oneLine (c_AuthorName c) → oneLine (c_AuthorEmail c) →
  Forall oneLine (commitRow c).
Proof.
  intros Hid Hname Hmail. unfold commitRow.
  repeat apply Forall_cons_2; try apply Forall_nil_2; auto with lines.
Qed.

(** The message of the example: [line1], LF, [line2], CR, LF. *)
Definition exampleMessage : list Z :=
  str "line1" ++ [LF] ++ str "line2" ++ [CR; LF].

Definition exampleCommit (name message : list Z) : Commit :=
  {| c_ProjectID := 7; c_ID := str "4f2a"; c_AuthorName := name;
     c_AuthorEmail := str "ann@example.org"; c_CommittedDate := None;
     c_Message := message;
     c_Stats := {| Additions := 1; Deletions := 0; Total := 1 |} |}.

(** C3, amended: in the message field of the row of a commit every line
    feed and every carriage return is replaced by one space; the message
    [line1], LF, [line2], CR, LF is written as [line1 line2] followed by two
    spaces, one for the carriage return and one for the line feed; and the
    row of a commit whose identifier, author name and author e-mail contain
    no line feed and no carriage return is one physical line: a text
    without either character, closed by a single line feed. *)
Theorem commit_message_sanitized (c : Commit) :
  commitRow c !! 5%nat = Some (cleanRune <$> c_Message c) ∧
  cleanText exampleMessage = str "line1 line2  " ∧
  (oneLine (c_ID c) → oneLine (c_AuthorName c) → oneLine (c_AuthorEmail c) →
   ∃ line, csvWrite (commitRow c) = line ++ [LF] ∧ oneLine line ∧
           lineFeeds (csvWrite (commitRow c)) = 1%nat).
Proof.
  split; [|split].
  - unfold commitRow. simpl. by rewrite cleanText_map.
  - reflexivity.
  - intros Hid Hname Hmail.
    pose proof (oneLine_joinFields _ (oneLine_commitRow c Hid Hname Hmail))
      as Hline.
    exists (joinFields (commitRow c)). split; [reflexivity|]. split; [done|].
    unfold csvWrite, lineFeeds in *. rewrite filter_app, length_app.
    fold (lineFeeds (joinFields (commitRow c))).
    by rewrite oneLine_lineFeeds.
Qed.

Lemma commit_message_sanitized_witness :
  ∃ line,
    csvWrite (commitRow (exampleCommit (str "Ann") exampleMessage)) =
      line ++ [LF] ∧
    oneLine line ∧
    lineFeeds (csvWrite (commitRow (exampleCommit (str "Ann") exampleMessage)))
      = 1%nat.
Proof.
  apply (commit_message_sanitized (exampleCommit (str "Ann") exampleMessage));
    apply oneLine_ascii; reflexivity.
Defined.

(** C3 as stated fails twice: the example message is written with two
    trailing spaces, not one, and a commit whose author name holds a line
    feed is written on two physical lines. *)
Lemma commit_message_example_refuted :
  cleanText exampleMessage ≠ str "line1 line2 " ∧
  commitRow (exampleCommit (str "Ann") exampleMessage) !! 5%nat
    = Some (str "line1 line2  ") ∧
  lineFeeds
    (csvWrite (commitRow (exampleCommit (str "A" ++ [LF] ++ str "B") [])))
    = 2%nat.
Proof.
  split; [|split].
  - vm_compute. discriminate.
  - reflexivity.
  - vm_compute. reflexivity.
Qed.

(** ** The exporters: the header row *)



Definition rowsOf {A} (row : A → list (list Z)) (records : list A) : list Z :=
  flat_map (λ r, csvWrite (row r)) records.

Section Header.
Context {A : Type} (header : list (list Z)) (row : A → list (list Z)).

Lemma OpenAppend_appendClose (fs : filesystem) (name data out : list Z) :
  OpenAppend (appendClose fs name data out) name = Some (data ++ out).
Proof. unfold OpenAppend, appendClose. by rewrite lookup_insert_eq. Qed.

Lemma Open_appendClose (fs : filesystem) (name data out : list Z) :
  Open (appendClose fs name data out) name = Some (data ++ out).
Proof. unfold Open, appendClose. by rewrite lookup_insert_eq. Qed.



Lemma writeCSV_output records filename fs data :
  OpenAppend fs filename = Some data →
  writeCSV header row records filename fs =
    Some (appendClose fs filename data
            ((if decide (length data = 0%nat) then csvWrite header else []) ++
             rowsOf row records)).
Proof.
  intros Hopen. unfold writeCSV, exportOutput. rewrite Hopen. simpl.
  by destruct data.
Qed.



End Header.




(** ** The checkpoint store *)

Lemma digits_value_from (fuel : nat) :
  ∀ n acc, 0 ≤ n < 2 ^ Z.of_nat fuel →
    fold_left (λ a d, a * 10 + (d - 48)) (digits_from fuel n acc) 0 =
    fold_left (λ a d, a * 10 + (d - 48)) acc n.
Proof.
  induction fuel as [|fuel IH]; intros n acc Hn.
  - simpl in *. by replace n with 0 by lia.
  - cbn [digits_from]. destruct (n <? 10) eqn:E.
    + apply Z.ltb_lt in E. cbn [fold_left]. f_equal.
      rewrite Z.mod_small; lia.
    + apply Z.ltb_ge in E. rewrite IH.
      * cbn [fold_left]. f_equal. pose proof (Z.div_mod n 10). lia.
      * rewrite Nat2Z.inj_succ, Z.pow_succ_r in Hn by lia.
        split; [apply Z.div_pos; lia|].
        apply Z.div_lt_upper_bound; lia.
Qed.

Lemma digits_value_digits (n : Z) : 0 ≤ n → digits_value (digits n) = n.
Proof.
  intros Hn. unfold digits_value, digits. rewrite digits_value_from; [done|].
  split; [done|]. rewrite Nat2Z.inj_succ, Z2Nat.id by apply Z.log2_nonneg.
  destruct (decide (n = 0)) as [->|]; [done|].
  apply Z.log2_spec. lia.
Qed.

Lemma digits_cons (n : Z) : ∃ d ds, digits n = d :: ds ∧ digitRune d.
Proof.
  pose proof (digits_digit n) as H. unfold digits in *.
  assert (∀ fuel m acc, acc ≠ [] → digits_from fuel m acc ≠ []) as Hne.
  { induction fuel as [|fuel IH]; intros m acc Hacc; simpl; [done|].
    destruct (m <? 10); [done|]. by apply IH. }
  cbn [digits_from] in *.
  destruct (n <? 10).
  - eexists _, _. split; [done|]. by inversion H.
  - specialize (Hne (Z.to_nat (Z.log2 n)) (n / 10) [48 + n mod 10]).
    destruct (digits_from _ _ _) as [|d ds]; [by destruct Hne|].
    exists d, ds. split; [done|]. by inversion H.
Qed.

Lemma is_digit_true (c : Z) : digitRune c → is_digit c = true.
Proof. unfold digitRune, is_digit. lia. Qed.

Lemma forallb_is_digit (s : list Z) :
  Forall digitRune s → forallb is_digit s = true.
Proof.
  induction 1 as [|c s Hc Hs IH]; [done|].
  simpl. by rewrite is_digit_true.
Qed.

Lemma ParseInt_FormatInt (i : Z) :
  in_int64 i → ParseInt (FormatInt i) = (i, None).
Proof.
  unfold in_int64, MinInt64, MaxInt64, two63. intros Hi.
  unfold FormatInt. destruct (i <? 0) eqn:E.
  - apply Z.ltb_lt in E. unfold ParseInt.
    rewrite Z.eqb_refl.
    destruct (digits_cons (- i)) as (d & ds & Hd & Hdig).
    pose proof (digits_digit (- i)) as Hall.
    pose proof (digits_value_digits (- i)) as Hval.
    rewrite Hd in *. rewrite forallb_is_digit by done.
    rewrite Hval by lia. simpl.
    unfold two63. destruct (2 ^ 63 <? - i) eqn:E2; [lia|].
    f_equal. lia.
  - apply Z.ltb_ge in E. unfold ParseInt.
    destruct (digits_cons i) as (d & ds & Hd & Hdig).
    pose proof (digits_digit i) as Hall.
    pose proof (digits_value_digits i) as Hval.
    rewrite Hd in *. unfold digitRune, MINUS, PLUS in *.
    destruct (d =? 45) eqn:E1; [lia|]. destruct (d =? 43) eqn:E2; [lia|].
    rewrite forallb_is_digit by done. rewrite Hval by lia. simpl.
    unfold two63. destruct (2 ^ 63 <=? i) eqn:E3; [lia|]. done.
Qed.

Lemma spanRunes_app (f : Z → bool) (tok next : list Z) :
  Forall (λ r, f r = true) tok →
  match next with [] => True | r :: _ => f r = false end →
  spanRunes f (tok ++ next) = (tok, next).
Proof.
  intros Htok Hnext. induction Htok as [|r tok Hr Htok IH]; simpl.
  - destruct next as [|r next]; [done|]. simpl. by rewrite Hnext.
  - by rewrite Hr, IH.
Qed.

(** A word: not empty and free of white space. *)
Definition isWord (s : list Z) : Prop :=
  s ≠ [] ∧ Forall (λ r, IsSpace r = false) s.

Definition wellFormedEntry (entry : Z * list Z) : Prop :=
  in_int64 (fst entry) ∧ isWord (snd entry).

Lemma IsSpace_digit (c : Z) : digitRune c → IsSpace c = false.
Proof. unfold digitRune, IsSpace. lia. Qed.

Lemma scanInt_FormatInt (i : Z) (rest : list Z) :
  in_int64 i →
  scanInt (FormatInt i ++ SPACE :: rest) = Some (i, SPACE :: rest).
Proof.
  intros Hi. pose proof (ParseInt_FormatInt i Hi) as Hparse.
  unfold FormatInt in *. destruct (i <? 0) eqn:E.
  - unfold scanInt. cbn [SkipSpace app]. change (MINUS =? LF) with false.
    change (IsSpace MINUS) with false. cbn [mbind option_bind].
    change ((MINUS =? PLUS) || (MINUS =? MINUS)) with true. cbn iota.
    rewrite (spanRunes_app is_digit (digits (- i)) (SPACE :: rest)).
    + destruct (digits_cons (- i)) as (d & ds & Hd & _). rewrite Hd in *.
      cbn [app] in *. by rewrite Hparse.
    + eapply Forall_impl; [apply digits_digit|]. apply is_digit_true.
    + done.
  - destruct (digits_cons i) as (d & ds & Hd & Hdig).
    pose proof (digits_digit i) as Hall. rewrite Hd in *.
    unfold scanInt. cbn [SkipSpace app].
    assert ((d =? LF) = false) as -> by (unfold digitRune, LF in *; lia).
    rewrite IsSpace_digit by done. cbn [mbind option_bind].
    assert (((d =? PLUS) || (d =? MINUS)) = false) as ->
      by (unfold digitRune, PLUS, MINUS in *; lia).
    cbn iota.
    change (d :: ds ++ SPACE :: rest) with ((d :: ds) ++ SPACE :: rest).
    rewrite (spanRunes_app is_digit (d :: ds) (SPACE :: rest)).
    + cbn [app]. by rewrite Hparse.
    + eapply Forall_impl; [exact Hall|]. apply is_digit_true.
    + done.
Qed.

Lemma IsSpace_LF_false (r : Z) : IsSpace r = false → (r =? LF) = false.
Proof. unfold IsSpace, LF. lia. Qed.

Lemma Fscanf_entry_indexEntry (projectID : Z) (projectPath rest : list Z) :
  wellFormedEntry (projectID, projectPath) →
  Fscanf_entry (indexEntry projectID projectPath ++ rest) =
    Some ((projectID, projectPath), rest).
Proof.
  intros [Hid [Hne Hword]]. simpl in *.
  unfold Fscanf_entry, indexEntry. rewrite <- !app_assoc. cbn [app].
  rewrite scanInt_FormatInt by done. cbn [mbind option_bind].
  destruct projectPath as [|r path]; [done|].
  inversion Hword as [|? ? Hr Hpath]; subst.
  cbn [advanceSpace app]. change (IsSpace SPACE) with true.
  change (SPACE =? LF) with false. cbn [negb mbind option_bind skipBlanks].
  rewrite Hr. cbn [andb].
  unfold scanString. cbn [SkipSpace]. rewrite (IsSpace_LF_false r Hr), Hr.
  cbn [mbind option_bind].
  change (r :: path ++ LF :: rest) with ((r :: path) ++ LF :: rest).
  rewrite (spanRunes_app (λ r, negb (IsSpace r)) (r :: path) (LF :: rest)).
  - unfold advanceNewline. cbn [skipBlanks]. change (IsSpace LF) with true.
    rewrite Z.eqb_refl. reflexivity.
  - eapply Forall_impl; [exact Hword|]. intros x Hx. simpl in *. by rewrite Hx.
  - reflexivity.
Qed.

(** Every successful scan consumes input, so the read loop is finite and
    the fuel of [readEntries] never runs out. *)
Lemma SkipSpace_length (input rest : list Z) :
  SkipSpace input = Some rest → (length rest ≤ length input)%nat.
Proof.
  revert rest. induction input as [|r input IH]; intros rest H; simpl in *.
  - by injection H as <-.
  - destruct (r =? LF); [done|]. destruct (IsSpace r).
    + specialize (IH rest H). lia.
    + injection H as <-. simpl. lia.
Qed.

Lemma skipBlanks_length (input : list Z) :
  (length (skipBlanks input) ≤ length input)%nat.
Proof.
  induction input as [|r input IH]; simpl; [lia|].
  destruct (IsSpace r && negb (r =? LF)); simpl; lia.
Qed.

Lemma spanRunes_length (f : Z → bool) (input tok rest : list Z) :
  spanRunes f input = (tok, rest) →
  length input = (length tok + length rest)%nat.
Proof.
  revert tok rest. induction input as [|r input IH]; intros tok rest H;
    simpl in *.
  - by injection H as <- <-.
  - destruct (f r).
    + destruct (spanRunes f input) as [tok' rest'] eqn:E.
      injection H as <- <-. simpl. by rewrite (IH tok' rest').
    + by injection H as <- <-.
Qed.

Lemma Fscanf_entry_consumes (input rest : list Z) (entry : Z * list Z) :
  Fscanf_entry input = Some (entry, rest) →
  (length rest < length input)%nat.
Proof.
  unfold Fscanf_entry, scanInt, advanceSpace, scanString, advanceNewline.
  destruct (SkipSpace input) as [i1|] eqn:H1; simpl; [|done].
  apply SkipSpace_length in H1. destruct i1 as [|r i1]; [done|].
  assert (∃ sign i2, (if (r =? PLUS) || (r =? MINUS)
                      then ([r], i1) else ([], r :: i1)) = (sign, i2) ∧
                     (length i2 ≤ length (r :: i1))%nat)
    as (sign & i2 & -> & H2).
  { destruct ((r =? PLUS) || (r =? MINUS)); eexists _, _;
      (split; [done|]); simpl; lia. }
  destruct (spanRunes is_digit i2) as [ds i3] eqn:H3.
  apply spanRunes_length in H3. destruct ds as [|d ds]; [done|].
  destruct (ParseInt (sign ++ d :: ds)) as [i [e|]]; simpl; [done|].
  destruct i3 as [|r3 i3]; simpl.
  - done.
  - destruct (IsSpace r3); simpl; [|done]. destruct (r3 =? LF); simpl; [done|].
    pose proof (skipBlanks_length i3) as H4.
    destruct (SkipSpace (skipBlanks i3)) as [i5|] eqn:H5; simpl; [|done].
    apply SkipSpace_length in H5. destruct i5 as [|r5 i5]; [done|].
    destruct (spanRunes (λ r, negb (IsSpace r)) (r5 :: i5)) as [path i6] eqn:H6.
    apply spanRunes_length in H6. simpl.
    pose proof (skipBlanks_length i6) as H7.
    destruct (skipBlanks i6) as [|r8 i8] eqn:H8; simpl.
    + intros [= <- <-]. simpl in *. lia.
    + destruct (r8 =? LF); simpl; [|done].
      intros [= <- <-]. simpl in *. lia.
Qed.

Lemma readEntries_fuel (fuel fuel' : nat) :
  ∀ (input : list Z) (fetched : gmap Z bool),
    (length input < fuel)%nat → (length input < fuel')%nat →
    readEntries fuel input fetched = readEntries fuel' input fetched.
Proof.
  revert fuel'. induction fuel as [|fuel IH];
    intros fuel' input fetched H1 H2; [lia|].
  destruct fuel' as [|fuel']; [lia|]. simpl.
  destruct (Fscanf_entry input) as [[[id path] rest]|] eqn:E; [|done].
  apply Fscanf_entry_consumes in E. apply IH; lia.
Qed.

(** The text of an index that holds the given entries. *)
Definition entriesText (entries : list (Z * list Z)) : list Z :=
  flat_map (λ entry, indexEntry (fst entry) (snd entry)) entries.

Definition insertEntries (entries : list (Z * list Z)) (fetched : gmap Z bool)
    : gmap Z bool :=
  foldl (λ m entry, <[fst entry := true]> m) fetched entries.

Lemma readEntries_entries (entries : list (Z * list Z)) (tail : list Z) :
  Forall wellFormedEntry entries → Fscanf_entry tail = None →
  ∀ fuel fetched, (length entries < fuel)%nat →
    readEntries fuel (entriesText entries ++ tail) fetched =
    insertEntries entries fetched.
Proof.
  intros Hwf Htail. induction Hwf as [|[id path] entries He Hwf IH];
    intros fuel fetched Hfuel.
  - destruct fuel; [simpl in Hfuel; lia|]. simpl. by rewrite Htail.
  - destruct fuel; [simpl in Hfuel; lia|]. simpl in Hfuel.
    cbn [entriesText flat_map readEntries fst snd]. rewrite <- app_assoc.
    rewrite Fscanf_entry_indexEntry by done.
    fold (entriesText entries). rewrite IH by lia. reflexivity.
Qed.

Lemma length_entriesText (entries : list (Z * list Z)) :
  (length entries ≤ length (entriesText entries))%nat.
Proof.
  induction entries as [|[id path] entries IH]; [done|].
  cbn [entriesText flat_map]. fold (entriesText entries).
  unfold indexEntry. rewrite !length_app. simpl. lia.
Qed.

Lemma dom_insertEntries (entries : list (Z * list Z)) :
  ∀ fetched, dom (insertEntries entries fetched) =
             list_to_set (entries.*1) ∪ dom fetched.
Proof.
  induction entries as [|[id path] entries IH]; intros fetched.
  - simpl. by rewrite (left_id_L ∅ (∪)).
  - cbn [insertEntries foldl fmap list_fmap list_to_set fst].
    fold (insertEntries entries (<[id:=true]> fetched)).
    rewrite IH, dom_insert_L, !(assoc_L (∪)).
    by rewrite (comm_L (∪) (list_to_set (entries.*1)) {[id]}).
Qed.

Lemma lookup_insertEntries (entries : list (Z * list Z)) (id : Z) :
  ∀ fetched, id ∈ entries.*1 ∨ fetched !! id = Some true →
             insertEntries entries fetched !! id = Some true.
Proof.
  induction entries as [|[id' path] entries IH]; intros fetched H.
  - simpl in *. destruct H as [H|H]; [by apply elem_of_nil in H | done].
  - cbn [insertEntries foldl fst]. fold (insertEntries entries (<[id':=true]> fetched)).
    apply IH. cbn [fmap list_fmap fst] in H.
    destruct (decide (id = id')) as [->|Hne].
    + right. apply lookup_insert_eq.
    + destruct H as [H|H].
      * left. apply elem_of_cons in H. by destruct H as [H|H].
      * right. by rewrite lookup_insert_ne.
Qed.

Lemma loadFetchedProjects_entries dataDir fs entries tail :
  Forall wellFormedEntry entries → Fscanf_entry tail = None →
  Open fs (indexFile dataDir) = Some (entriesText entries ++ tail) →
  loadFetchedProjects dataDir fs = insertEntries entries ∅.
Proof.
  intros Hwf Htail Hopen. unfold loadFetchedProjects. rewrite Hopen.
  apply readEntries_entries; [done | done |].
  rewrite length_app. pose proof (length_entriesText entries). lia.
Qed.

(** C7: after [markProjectFetched(dir, 7, "a/b")] has appended to a
    checkpoint store, [loadFetchedProjects(dir)] on the same store returns a
    set that contains 7. The store is any index the program can have
    written before (absent, empty, or a sequence of entries with 64-bit
    identifiers and paths that are words), and the same holds for every
    such identifier and path. *)
Theorem checkpoint_round_trip (dataDir : list Z) (fs : filesystem)
    (entries : list (Z * list Z)) (projectID : Z) (projectPath : list Z) :
  Forall wellFormedEntry entries →
  wellFormedEntry (projectID, projectPath) →
  OpenAppend fs (indexFile dataDir) = Some (entriesText entries) →
  loadFetchedProjects dataDir
    (markProjectFetched dataDir projectID projectPath fs) !! projectID
    = Some true.
Proof.
  intros Hwf He Hopen. unfold markProjectFetched. rewrite Hopen.
  rewrite (loadFetchedProjects_entries dataDir _
             (entries ++ [(projectID, projectPath)]) []).
  - apply lookup_insertEntries. left. rewrite fmap_app.
    apply elem_of_app. right. simpl. apply elem_of_cons. by left.
  - apply Forall_app. split; [done|]. by apply Forall_singleton.
  - reflexivity.
  - rewrite Open_appendClose. f_equal.
    unfold entriesText. rewrite flat_map_app. simpl.
    by rewrite !app_nil_r.
Qed.

Lemma checkpoint_round_trip_witness :
  loadFetchedProjects (str "data")
    (markProjectFetched (str "data") 7 (str "a/b") ∅) !! 7 = Some true.
Proof.
  apply (checkpoint_round_trip (str "data") ∅ [] 7 (str "a/b")).
  - apply Forall_nil_2.
  - split; [vm_compute; split; discriminate|].
    split; [discriminate|]. repeat apply Forall_cons_2; try reflexivity.
    apply Forall_nil_2.
  - reflexivity.
Defined.

(** C8, amended: [loadFetchedProjects] never fails. For a file that is
    missing or cannot be opened it returns the empty set. For a file that
    can be read it returns the identifiers of the entries that precede the
    first line that fails to parse: the empty set when the very first line
    is malformed, and not the empty set when well-formed entries come
    first. *)
Theorem load_stops_at_first_error (dataDir : list Z) (fs : filesystem) :
  (Open fs (indexFile dataDir) = None →
   loadFetchedProjects dataDir fs = ∅) ∧
  (∀ tail, Fscanf_entry tail = None →
     Open fs (indexFile dataDir) = Some tail →
     loadFetchedProjects dataDir fs = ∅) ∧
  (∀ entries tail,
     Forall wellFormedEntry entries → Fscanf_entry tail = None →
     Open fs (indexFile dataDir) = Some (entriesText entries ++ tail) →
     dom (loadFetchedProjects dataDir fs) = list_to_set (entries.*1)).
Proof.
  split; [|split].
  - intros Hopen. unfold loadFetchedProjects. by rewrite Hopen.
  - intros tail Htail Hopen.
    by rewrite (loadFetchedProjects_entries dataDir fs [] tail).
  - intros entries tail Hwf Htail Hopen.
    rewrite (loadFetchedProjects_entries dataDir fs entries tail) by done.
    by rewrite dom_insertEntries, dom_empty_L, (right_id_L ∅ (∪)).
Qed.

(** An index with one good entry followed by a line that is not one. *)
Definition brokenIndex : list Z :=
  indexEntry 7 (str "a/b") ++ str "garbage" ++ [LF].

Lemma load_stops_at_first_error_witness :
  loadFetchedProjects (str "data") ∅ = ∅ ∧
  loadFetchedProjects (str "data")
    {[ indexFile (str "data") := File (str "garbage" ++ [LF]) ]} = ∅ ∧
  dom (loadFetchedProjects (str "data")
         {[ indexFile (str "data") := File brokenIndex ]})
    = list_to_set ([(7, str "a/b")].*1).
Proof.
  split; [|split].
  - apply (load_stops_at_first_error (str "data") ∅). reflexivity.
  - destruct (load_stops_at_first_error (str "data")
                {[ indexFile (str "data") := File (str "garbage" ++ [LF]) ]})
      as (_ & Hfirst & _).
    apply (Hfirst (str "garbage" ++ [LF])).
    + reflexivity.
    + unfold Open. by rewrite lookup_singleton_eq.
  - destruct (load_stops_at_first_error (str "data")
                {[ indexFile (str "data") := File brokenIndex ]})
      as (_ & _ & Hprefix).
    apply (Hprefix [(7, str "a/b")] (str "garbage" ++ [LF])).
    + apply Forall_singleton. split; [vm_compute; split; discriminate|].
      split; [discriminate|]. repeat apply Forall_cons_2; try reflexivity.
      apply Forall_nil_2.
    + reflexivity.
    + unfold Open. rewrite lookup_singleton_eq. reflexivity.
Defined.

(** C8 as stated fails: the index [brokenIndex] is malformed, its second
    line is not an entry, and yet the set that is returned contains 7. *)
Lemma load_malformed_not_empty :
  Fscanf_entry (str "garbage" ++ [LF]) = None ∧
  loadFetchedProjects (str "data")
    {[ indexFile (str "data") := File brokenIndex ]} !! 7 = Some true ∧
  loadFetchedProjects (str "data")
    {[ indexFile (str "data") := File brokenIndex ]} ≠ ∅.
Proof.
  assert (loadFetchedProjects (str "data")
            {[ indexFile (str "data") := File brokenIndex ]} !! 7 = Some true)
    as H.
  { rewrite (loadFetchedProjects_entries (str "data") _
               [(7, str "a/b")] (str "garbage" ++ [LF])).
    - reflexivity.
    - apply Forall_singleton. split; [vm_compute; split; discriminate|].
      split; [discriminate|]. repeat apply Forall_cons_2; try reflexivity.
      apply Forall_nil_2.
    - reflexivity.
    - unfold Open. rewrite lookup_singleton_eq. reflexivity. }
  split; [reflexivity|]. split; [exact H|].
  intros Hempty. rewrite Hempty in H. by rewrite lookup_empty in H.
Qed.

(** ** URL path extraction *)

Lemma string_eqb_eq (s t : list Z) : string_eqb s t = true ↔ s = t.
Proof.
  revert t. induction s as [|a s IH]; intros [|b t]; simpl; try done.
  rewrite andb_true_iff, IH, Z.eqb_eq. split.
  - by intros [-> ->].
  - by intros [= -> ->].
Qed.

Lemma TrimPrefix_slash (path : list Z) :
  TrimPrefix (str "/" ++ path) (str "/") = path.
Proof. reflexivity. Qed.

Lemma resolveURLs_app Parse client base (before rest : list (list Z)) :
  ∀ acc,
    resolveURLs Parse client base (before ++ rest) acc =
    match resolveURLs Parse client base before acc with
    | (calls, Ok projects) =>
        let '(calls', r) := resolveURLs Parse client base rest projects in
        (calls ++ calls', r)
    | (calls, Err e) => (calls, Err e)
    end.
Proof.
  induction before as [|url before IH]; intros acc.
  - simpl. by destruct (resolveURLs Parse client base rest acc).
  - cbn [app resolveURLs].
    destruct (extractPath Parse url base) as [path|e]; [|done].
    destruct (resolveProjects client path) as [projects|]; [|done].
    rewrite IH.
    destruct (resolveURLs Parse client base before (acc ++ projects))
      as [calls [all|e]]; [|done].
    by destruct (resolveURLs Parse client base rest all).
Qed.

(** C9: when both URLs parse, an input URL whose host equals the host of
    the base URL yields its path with the leading slash stripped, and an
    input URL whose host differs yields the host-mismatch error; in [main]
    that error ends the loop over the URLs before the remote is called for
    that URL or for any later one. *)
Theorem extractPath_host_check (Parse : list Z → option URL)
    (inputURL baseURL : list Z) (parsedURL parsedBase : URL) :
  Parse inputURL = Some parsedURL →
  Parse baseURL = Some parsedBase →
  (Host parsedURL = Host parsedBase →
   extractPath Parse inputURL baseURL
     = Ok (TrimPrefix (Path parsedURL) (str "/")) ∧
   ∀ path, Path parsedURL = str "/" ++ path →
           extractPath Parse inputURL baseURL = Ok path) ∧
  (Host parsedURL ≠ Host parsedBase →
   extractPath Parse inputURL baseURL
     = Err (HostMismatch (Host parsedURL) (Host parsedBase)) ∧
   ∀ client before after acc,
     fst (resolveURLs Parse client baseURL (before ++ inputURL :: after) acc)
       = fst (resolveURLs Parse client baseURL before acc) ∧
     ∃ e, snd (resolveURLs Parse client baseURL
                 (before ++ inputURL :: after) acc) = Err e).
Proof.
  intros Hurl Hbase. split.
  - intros Hhost. unfold extractPath. rewrite Hurl, Hbase.
    assert (string_eqb (Host parsedURL) (Host parsedBase) = true) as ->
      by by apply string_eqb_eq.
    split; [done|]. intros path ->. by rewrite TrimPrefix_slash.
  - intros Hhost.
    assert (extractPath Parse inputURL baseURL
              = Err (HostMismatch (Host parsedURL) (Host parsedBase))) as Herr.
    { unfold extractPath. rewrite Hurl, Hbase.
      destruct (string_eqb (Host parsedURL) (Host parsedBase)) eqn:E; [|done].
      by apply string_eqb_eq in E. }
    split; [done|]. intros client before after acc.
    rewrite resolveURLs_app.
    destruct (resolveURLs Parse client baseURL before acc)
      as [calls [all|e]]; simpl.
    + rewrite Herr. simpl. rewrite app_nil_r. eauto.
    + eauto.
Qed.

Lemma extractPath_host_check_witness :
  extractPath ParsePlain (str "https://gitlab.example/group/proj")
    (str "https://gitlab.example") = Ok (str "group/proj") ∧
  extractPath ParsePlain (str "https://other.example/group/proj")
    (str "https://gitlab.example")
    = Err (HostMismatch (str "other.example") (str "gitlab.example")).
Proof.
  split.
  - apply (extractPath_host_check ParsePlain
             (str "https://gitlab.example/group/proj")
             (str "https://gitlab.example")
             {| Host := str "gitlab.example"; Path := str "/group/proj" |}
             {| Host := str "gitlab.example"; Path := [] |});
      reflexivity.
  - apply (extractPath_host_check ParsePlain
             (str "https://other.example/group/proj")
             (str "https://gitlab.example")
             {| Host := str "other.example"; Path := str "/group/proj" |}
             {| Host := str "gitlab.example"; Path := [] |});
      [reflexivity | reflexivity | vm_compute; discriminate].
Defined.

(** ** Lists of workers *)

Lemma sum_list_with_insert {B} (f : B → nat) (ws : list B) (i : nat) (w w' : B) :
  ws !! i = Some w →
  (sum_list_with f (<[i:=w']> ws) + f w = sum_list_with f ws + f w')%nat.
Proof.
  intros Hi. pose proof (lookup_lt_Some _ _ _ Hi) as Hlt.
  rewrite insert_take_drop by done.
  rewrite <- (take_drop_middle ws i w Hi) at 3.
  rewrite !sum_list_with_app. simpl. lia.
Qed.

Lemma flat_map_insert {B C} (f : B → list C) (ws : list B) (i : nat) (w w' : B) :
  ws !! i = Some w →
  flat_map f (<[i:=w']> ws) ++ f w ≡ₚ flat_map f ws ++ f w'.
Proof.
  intros Hi. pose proof (lookup_lt_Some _ _ _ Hi) as Hlt.
  rewrite insert_take_drop by done.
  rewrite <- (take_drop_middle ws i w Hi) at 3.
  rewrite !flat_map_app. simpl. solve_Permutation.
Qed.

Lemma sum_list_with_le_length {B} (f : B → nat) (ws : list B) :
  (∀ w, (f w ≤ 1)%nat) → (sum_list_with f ws ≤ length ws)%nat.
Proof.
  intros Hf. induction ws as [|w ws IH]; simpl; [lia|].
  specialize (Hf w). lia.
Qed.

Lemma wrap64_small (x : Z) : - 2 ^ 63 ≤ x < 2 ^ 63 → wrap64 x = x.
Proof.
  intros Hx. unfold wrap64, two63. rewrite Z.mod_small; lia.
Qed.

(** ** Channels *)

Lemma makechan_Some (elemSize size : Z) (cap : nat) :
  makechan elemSize size = Some cap → 0 ≤ size ∧ cap = Z.to_nat size.
Proof.
  unfold makechan. destruct (size <? 0) eqn:E; [done|]. simpl.
  destruct (maxAlloc - hchanSize <? elemSize * size); [done|].
  intros [= <-]. lia.
Qed.

(** Up to [maxWorkers] workers the channel is made, with room for two pages
    per worker. *)
Lemma makechan_workers (N : Z) :
  0 ≤ N ≤ maxWorkers →
  makechan sliceSize (wrap64 (N * 2)) = Some (Z.to_nat (2 * N)).
Proof.
  unfold maxWorkers. intros HN. rewrite wrap64_small by lia.
  unfold makechan, maxAlloc, hchanSize, sliceSize.
  destruct (N * 2 <? 0) eqn:E1; [lia|].
  destruct (2 ^ 48 - 96 <? 24 * (N * 2)) eqn:E2; [lia|].
  simpl. do 2 f_equal. lia.
Qed.


(** ** The page counter

    The counter of the pages is a 64-bit integer: the value after
    [2^63 - 1] is [-2^63]. [unwrap] gives back, for the first [2^64]
    claims, the number of the claim that a value of the counter stands
    for. *)
Definition unwrap (n : Z) : Z := if 1 <=? n then n else n + 2 ^ 64.
Arguments unwrap : simpl never.

Lemma wrap64_range (x : Z) : in_int64 (wrap64 x).
Proof.
  unfold in_int64, wrap64, MinInt64, MaxInt64, two63.
  pose proof (Z.mod_pos_bound (x + 2 ^ 63) (2 ^ 64)). lia.
Qed.

Lemma wrap64_spec (x : Z) : ∃ k, wrap64 x = x + k * 2 ^ 64.
Proof.
  unfold wrap64, two63. exists (- ((x + 2 ^ 63) / 2 ^ 64)).
  pose proof (Z.div_mod (x + 2 ^ 63) (2 ^ 64)). lia.
Qed.

Lemma wrap64_unique (x y k : Z) :
  in_int64 y → y = x + k * 2 ^ 64 → wrap64 x = y.
Proof.
  intros Hy ->. destruct (wrap64_spec x) as [k' Hk'].
  pose proof (wrap64_range x) as Hx.
  unfold in_int64, MinInt64, MaxInt64, two63 in *. lia.
Qed.

Lemma unwrap_small (p : Z) : 1 ≤ p → unwrap p = p.
Proof. intros Hp. unfold unwrap. destruct (1 <=? p) eqn:E; lia. Qed.

Lemma unwrap_range (p : Z) : in_int64 p → 1 ≤ unwrap p ≤ 2 ^ 64.
Proof.
  unfold in_int64, MinInt64, MaxInt64, two63, unwrap.
  destruct (1 <=? p) eqn:E; lia.
Qed.

Lemma unwrap_le (p q : Z) :
  in_int64 p → unwrap p ≤ q → q < 2 ^ 63 → unwrap p = p.
Proof.
  unfold in_int64, MinInt64, MaxInt64, two63, unwrap.
  destruct (1 <=? p) eqn:E; lia.
Qed.


Lemma wrap64_unwrap (p : Z) : in_int64 p → wrap64 (unwrap p) = p.
Proof.
  intros Hp. unfold unwrap. destruct (1 <=? p) eqn:E.
  - apply (wrap64_unique _ _ 0); [done | lia].
  - apply (wrap64_unique _ _ (-1)); [done | lia].
Qed.

Lemma unwrap_wrap64 (q : Z) : 1 ≤ q ≤ 2 ^ 64 → unwrap (wrap64 q) = q.
Proof.
  intros Hq. destruct (wrap64_spec q) as [k Hk].
  pose proof (wrap64_range q) as Hr.
  unfold in_int64, MinInt64, MaxInt64, two63 in Hr. unfold unwrap.
  destruct (1 <=? wrap64 q) eqn:E; lia.
Qed.

(** [atomic.AddInt64(&nextPage, 1) - 1] is the old value of the counter,
    and the counter then stands for one claim more. *)
Lemma claim_page (n : Z) : in_int64 n → wrap64 (wrap64 (n + 1) - 1) = n.
Proof.
  intros Hn. destruct (wrap64_spec (n + 1)) as [k Hk].
  apply (wrap64_unique _ _ (- k)); [done | lia].
Qed.

Lemma claim_next (n : Z) :
  in_int64 n → unwrap n < 2 ^ 64 → unwrap (wrap64 (n + 1)) = unwrap n + 1.
Proof.
  intros Hn Hlt. pose proof (unwrap_range n Hn) as Hr.
  rewrite <- (unwrap_wrap64 (unwrap n + 1)) by lia. f_equal.
  destruct (wrap64_spec (unwrap n + 1)) as [k Hk].
  assert (∃ j, unwrap n = n + j * 2 ^ 64) as [j Hj].
  { unfold unwrap. destruct (1 <=? n); [exists 0 | exists 1]; lia. }
  apply (wrap64_unique _ _ (k + j)); [apply wrap64_range | lia].
Qed.

(** ** The paginated fetcher: invariant and termination *)

Module PagerFacts.
Import Pager.
Section PagerFacts.
Context {A : Type} (fetchPage : Z → list A).

(** [N] workers fetch a resource whose pages [1..P] hold records, [P]
    being a 64-bit integer, and whose next [N] pages are empty, with the
    numbers that the page counter gives them: [P+1..P+N], wrapped around
    where they pass [2^63 - 1]. *)
Variables N P : Z.
Hypothesis N_range : 0 ≤ N < 2 ^ 62.
Hypothesis P_range : 0 ≤ P ≤ MaxInt64.
Hypothesis pages_full : ∀ p, 1 ≤ p ≤ P → fetchPage p ≠ [].
Hypothesis pages_empty : ∀ p, P < p ≤ P + N → fetchPage (wrap64 p) = [].

(** A worker that holds a page past [P], or is about to exit, claims no
    further page. *)
Definition deadW (w : @pc A) : nat :=
  match w with
  | AtFetch p => if P <? unwrap p then 1 else 0
  | AtStore _ | Exited => 1
  | _ => 0
  end.

Definition aliveW (w : @pc A) : nat :=
  match w with Exited => 0 | _ => 1 end.

(** The page a worker has claimed and not requested yet. *)
Definition holding (w : @pc A) : list Z :=
  match w with AtFetch p => [p] | _ => [] end.

(** The records a worker has fetched and not sent yet. *)
Definition carrying (w : @pc A) : list A :=
  match w with AtSend _ records => records | _ => [] end.

Definition wellWorker (next : Z) (w : @pc A) : Prop :=
  match w with
  | AtFetch p => in_int64 p ∧ 1 ≤ unwrap p < next
  | AtStore p => P < unwrap p < next
  | _ => True
  end.

(** The weight of a worker in the termination measure. *)
Definition weight (w : @pc A) : nat :=
  match w with
  | AtLoad => 4
  | AtClaim => 3
  | AtFetch p => if P <? unwrap p then 2 else 8
  | AtStore _ => 1
  | AtSend _ _ => 7
  | Exited => 0
  end.

Definition measure (s : @state A) : nat :=
  (6 * Z.to_nat (P + 1 - unwrap (nextPage s)) +
   sum_list_with weight (workers s) +
   2 * length (results s) + (if closed s then 0 else 1) +
   (if returned s then 0 else 1))%nat.

Record Inv (s : @state A) : Prop := {
  inv_counter : in_int64 (nextPage s);
  inv_next :
    1 ≤ unwrap (nextPage s)
      ≤ P + 1 + Z.of_nat (sum_list_with deadW (workers s));
  inv_len : length (workers s) = Z.to_nat N;
  inv_well : Forall (wellWorker (unwrap (nextPage s))) (workers s);
  inv_pages :
    unwrap <$> (flat_map holding (workers s) ++ requested s)
      ≡ₚ seqZ 1 (unwrap (nextPage s) - 1);
  inv_range : Forall in_int64 (requested s);
  inv_records :
    allRecords s ++ concat (results s) ++ flat_map carrying (workers s)
      ≡ₚ flat_map fetchPage (requested s);
  inv_stop :
    (stop s = 1 ∧ signals s ≠ []) ∨ (stop s = 0 ∧ signals s = []);
  inv_exit : Forall (λ w, w = Exited → stop s = 1) (workers s);
  inv_signals :
    Forall (λ p, P < unwrap p < unwrap (nextPage s)) (signals s);
  inv_count :
    (length (signals s) + sum_list_with aliveW (workers s)
       ≤ length (workers s))%nat;
  inv_closed : closed s = true → Forall (λ w, w = Exited) (workers s);
  inv_returned : returned s = true → closed s = true ∧ results s = [];
  inv_capacity : capacity s = Z.to_nat (2 * N)
}.

Lemma init_state :
  N ≤ maxWorkers →
  @init A N = Some {| nextPage := 1; stop := 0; capacity := Z.to_nat (2 * N);
                   results := []; closed := false;
                   workers := replicate (Z.to_nat N) AtLoad;
                   allRecords := []; returned := false;
                   requested := []; signals := [] |}.
Proof using N_range.
  intros Hmake. unfold init. by rewrite makechan_workers by lia.
Qed.

Lemma Inv_init (s0 : @state A) : init N = Some s0 → Inv s0.
Proof using N_range P_range.
  unfold init.
  destruct (makechan sliceSize (wrap64 (N * 2))) as [cap|] eqn:Hmake;
    [|done].
  apply makechan_Some in Hmake as [_ ->].
  rewrite wrap64_small by lia. intros [= <-].
  assert (∀ n, flat_map holding (replicate n AtLoad) = []) as Hhold
    by (induction n; simpl; auto).
  assert (∀ n, flat_map carrying (replicate n AtLoad) = []) as Hcarry
    by (induction n; simpl; auto).
  assert (∀ n, sum_list_with aliveW (replicate n (@AtLoad A)) = n) as Halive
    by (induction n; simpl; auto).
  split; simpl.
  - vm_compute. split; discriminate.
  - change (unwrap 1) with 1. lia.
  - apply length_replicate.
  - apply Forall_replicate. exact I.
  - by rewrite Hhold.
  - apply Forall_nil_2.
  - by rewrite Hcarry.
  - by right.
  - apply Forall_replicate. discriminate.
  - apply Forall_nil_2.
  - rewrite Halive, length_replicate. lia.
  - discriminate.
  - discriminate.
  - f_equal. lia.
Qed.

Lemma bounded_dead (ws : list (@pc A)) :
  (sum_list_with deadW ws ≤ length ws)%nat.
Proof.
  apply sum_list_with_le_length. intros [| |p|p|p r|]; simpl; try lia.
  destruct (P <? unwrap p); lia.
Qed.

Lemma wellWorker_mono (next next' : Z) (w : @pc A) :
  next ≤ next' → wellWorker next w → wellWorker next' w.
Proof. destruct w; simpl; unfold in_int64; lia. Qed.

(** The effect of replacing worker [i] on the sums and on the pages and
    records in flight. *)
Lemma replace_worker (ws : list (@pc A)) (i : nat) (w w' : @pc A) :
  ws !! i = Some w →
  (sum_list_with weight (<[i:=w']> ws) + weight w
     = sum_list_with weight ws + weight w')%nat ∧
  (sum_list_with deadW (<[i:=w']> ws) + deadW w
     = sum_list_with deadW ws + deadW w')%nat ∧
  (sum_list_with aliveW (<[i:=w']> ws) + aliveW w
     = sum_list_with aliveW ws + aliveW w')%nat ∧
  flat_map holding (<[i:=w']> ws) ++ holding w
    ≡ₚ flat_map holding ws ++ holding w' ∧
  flat_map carrying (<[i:=w']> ws) ++ carrying w
    ≡ₚ flat_map carrying ws ++ carrying w'.
Proof.
  intros Hw. repeat split;
    auto using sum_list_with_insert, flat_map_insert.
Qed.

Lemma worker_running (s : @state A) (i : nat) (w : @pc A) :
  Inv s → workers s !! i = Some w → w ≠ Exited →
  closed s = false ∧ returned s = false.
Proof.
  intros HI Hw Hne.
  assert (closed s = false) as Hc.
  { destruct (closed s) eqn:E; [|done].
    pose proof (inv_closed s HI E) as Hall.
    rewrite Forall_lookup in Hall. by specialize (Hall i w Hw). }
  split; [done|]. destruct (returned s) eqn:E; [|done].
  destruct (inv_returned s HI E). congruence.
Qed.

(** A step of a worker keeps the invariant and makes the measure smaller.
    In each case of the proof the goals are the fields of [Inv], in their
    order, and then the measure. *)
Lemma workerStep_Inv (i : nat) (s s' : @state A) :
  Inv s → workerStep fetchPage i s = Some s' →
  Inv s' ∧ (measure s' < measure s)%nat.
Proof using N_range P_range pages_full pages_empty.
  intros HI Hstep. unfold workerStep in Hstep.
  destruct (workers s !! i) as [w|] eqn:Hw; [|done].
  pose proof (bounded_dead (workers s)) as Hdead.
  pose proof (inv_len s HI) as Hlen.
  pose proof (eq_refl : 2 ^ 63 = 2 * 2 ^ 62) as Hpow.
  destruct w as [| |page|page|page records|].
  - (* the load of the flag *)
    destruct (worker_running s i _ HI Hw ltac:(done)) as [Hc Hr].
    destruct (stop s =? 1) eqn:Hstop; injection Hstep as <-.
    + apply Z.eqb_eq in Hstop.
      destruct (replace_worker _ i _ Exited Hw) as (Hwt & Hd & Ha & Hh & Hcr).
      destruct HI. simpl in *. split; [split; simpl|].
      * done.
      * lia.
      * by rewrite length_insert.
      * by apply Forall_insert.
      * rewrite app_nil_r in Hh. by rewrite Hh, app_nil_r.
      * done.
      * rewrite app_nil_r in Hcr. by rewrite Hcr, app_nil_r.
      * done.
      * by apply Forall_insert.
      * done.
      * rewrite length_insert. lia.
      * congruence.
      * congruence.
      * done.
      * unfold measure. simpl. rewrite Hc, Hr. lia.
    + destruct (replace_worker _ i _ AtClaim Hw) as (Hwt & Hd & Ha & Hh & Hcr).
      destruct HI. simpl in *. split; [split; simpl|].
      * done.
      * lia.
      * by rewrite length_insert.
      * by apply Forall_insert.
      * rewrite app_nil_r in Hh. by rewrite Hh, app_nil_r.
      * done.
      * rewrite app_nil_r in Hcr. by rewrite Hcr, app_nil_r.
      * done.
      * by apply Forall_insert.
      * done.
      * rewrite length_insert. lia.
      * congruence.
      * congruence.
      * done.
      * unfold measure. simpl. rewrite Hc, Hr. lia.
  - (* the claim of a page *)
    destruct (worker_running s i _ HI Hw ltac:(done)) as [Hc Hr].
    pose proof (inv_next s HI) as Hnext.
    assert (sum_list_with deadW (workers s) < length (workers s))%nat as Hlive.
    { destruct (replace_worker _ i _ Exited Hw) as (_ & Hd & _).
      pose proof (bounded_dead (<[i:=Exited]> (workers s))) as Hle.
      rewrite length_insert in Hle. simpl in Hd. lia. }
    pose proof (inv_counter s HI) as Hcounter.
    assert (unwrap (nextPage s) < 2 ^ 64) as Hroom
      by (unfold MaxInt64, two63 in P_range; lia).
    pose proof (claim_page _ Hcounter) as Hpage.
    pose proof (claim_next _ Hcounter Hroom) as Hcount.
    cbv zeta in Hstep. rewrite Hpage in Hstep. injection Hstep as <-.
    destruct (replace_worker _ i _ (AtFetch (nextPage s)) Hw)
      as (Hwt & Hd & Ha & Hh & Hcr).
    destruct HI. simpl in *. split; [split; simpl|]; rewrite ?Hcount.
    + apply wrap64_range.
    + destruct (P <? unwrap (nextPage s)) eqn:E; lia.
    + by rewrite length_insert.
    + apply Forall_insert; [|simpl; split; [done | lia]].
      eapply Forall_impl; [exact inv_well0|].
      intros w. apply wellWorker_mono. lia.
    + rewrite app_nil_r in Hh. rewrite Hh.
      replace (unwrap (nextPage s) + 1 - 1)
        with ((unwrap (nextPage s) - 1) + 1) by lia.
      rewrite seqZ_app by lia. rewrite <- inv_pages0.
      replace (1 + (unwrap (nextPage s) - 1)) with (unwrap (nextPage s))
        by lia.
      rewrite (seqZ_cons _ 1), seqZ_nil by lia.
      rewrite !fmap_app. simpl. solve_Permutation.
    + done.
    + rewrite !app_nil_r in Hcr. by rewrite Hcr.
    + done.
    + by apply Forall_insert.
    + eapply Forall_impl; [exact inv_signals0|]. simpl. lia.
    + rewrite length_insert. lia.
    + congruence.
    + congruence.
    + done.
    + unfold measure. simpl. rewrite Hc, Hr, Hcount.
      destruct (P <? unwrap (nextPage s)) eqn:E; lia.
  - (* the page request *)
    destruct (worker_running s i _ HI Hw ltac:(done)) as [Hc Hr].
    pose proof (inv_next s HI) as Hnext.
    pose proof (inv_well s HI) as Hwell.
    rewrite Forall_lookup in Hwell. specialize (Hwell i _ Hw). simpl in Hwell.
    destruct (Z.of_nat (length (fetchPage page)) =? 0) eqn:Hempty;
      injection Hstep as <-.
    + assert (fetchPage page = []) as Hnil
        by (apply nil_length_inv; lia).
      assert (P < unwrap page) as Hpast.
      { destruct (decide (P < unwrap page)); [done|].
        assert (unwrap page = page) as Hsame
          by (apply (unwrap_le page P);
              [tauto | lia | unfold MaxInt64, two63 in P_range; lia]).
        destruct (pages_full page); [lia | done]. }
      destruct (replace_worker _ i _ (AtStore page) Hw)
        as (Hwt & Hd & Ha & Hh & Hcr).
      destruct HI. simpl in *.
      assert ((P <? unwrap page) = true) as E by lia. rewrite E in *.
      split; [split; simpl|].
      * done.
      * lia.
      * by rewrite length_insert.
      * apply Forall_insert; [done | simpl; lia].
      * rewrite <- inv_pages0. rewrite app_nil_r in Hh. rewrite <- Hh.
        apply fmap_Permutation. solve_Permutation.
      * apply Forall_cons_2; [tauto | done].
      * rewrite Hnil. simpl. rewrite !app_nil_r in Hcr. by rewrite Hcr.
      * done.
      * by apply Forall_insert.
      * done.
      * rewrite length_insert. lia.
      * congruence.
      * congruence.
      * done.
      * unfold measure. simpl. rewrite Hc, Hr. lia.
    + assert (unwrap page ≤ P) as Hin.
      { destruct (decide (unwrap page ≤ P)); [done|].
        rewrite <- (wrap64_unwrap page) in Hempty by tauto.
        rewrite pages_empty in Hempty; [done|]. lia. }
      destruct (replace_worker _ i _ (AtSend page (fetchPage page)) Hw)
        as (Hwt & Hd & Ha & Hh & Hcr).
      destruct HI. simpl in *.
      assert ((P <? unwrap page) = false) as E by lia. rewrite E in *.
      split; [split; simpl|].
      * done.
      * lia.
      * by rewrite length_insert.
      * by apply Forall_insert.
      * rewrite <- inv_pages0. rewrite app_nil_r in Hh. rewrite <- Hh.
        apply fmap_Permutation. solve_Permutation.
      * apply Forall_cons_2; [tauto | done].
      * rewrite <- inv_records0. rewrite app_nil_r in Hcr. rewrite Hcr.
        solve_Permutation.
      * done.
      * by apply Forall_insert.
      * done.
      * rewrite length_insert. lia.
      * congruence.
      * congruence.
      * done.
      * unfold measure. simpl. rewrite Hc, Hr. lia.
  - (* the store of the flag *)
    destruct (worker_running s i _ HI Hw ltac:(done)) as [Hc Hr].
    pose proof (inv_well s HI) as Hwell.
    rewrite Forall_lookup in Hwell. specialize (Hwell i _ Hw). simpl in Hwell.
    injection Hstep as <-.
    destruct (replace_worker _ i _ Exited Hw) as (Hwt & Hd & Ha & Hh & Hcr).
    destruct HI. simpl in *. split; [split; simpl|].
    + done.
    + lia.
    + by rewrite length_insert.
    + by apply Forall_insert.
    + rewrite !app_nil_r in Hh. by rewrite Hh.
    + done.
    + rewrite !app_nil_r in Hcr. by rewrite Hcr.
    + by left.
    + apply Forall_forall. done.
    + by apply Forall_cons_2.
    + rewrite length_insert. lia.
    + congruence.
    + congruence.
    + done.
    + unfold measure. simpl. rewrite Hc, Hr. lia.
  - (* the send *)
    destruct (worker_running s i _ HI Hw ltac:(done)) as [Hc Hr].
    destruct (decide (length (results s) < capacity s)%nat); [|done].
    injection Hstep as <-.
    destruct (replace_worker _ i _ AtLoad Hw) as (Hwt & Hd & Ha & Hh & Hcr).
    destruct HI. simpl in *. split; [split; simpl|].
    + done.
    + lia.
    + by rewrite length_insert.
    + by apply Forall_insert.
    + rewrite !app_nil_r in Hh. by rewrite Hh.
    + done.
    + rewrite <- inv_records0. rewrite concat_app. simpl.
      rewrite !app_nil_r in *. rewrite <- Hcr. solve_Permutation.
    + done.
    + by apply Forall_insert.
    + done.
    + rewrite length_insert. lia.
    + congruence.
    + congruence.
    + done.
    + unfold measure. simpl. rewrite Hc, Hr, length_app. simpl. lia.
  - done.
Qed.

Lemma closerStep_Inv (s s' : @state A) :
  Inv s → closerStep s = Some s' → Inv s' ∧ (measure s' < measure s)%nat.
Proof.
  intros HI Hstep. unfold closerStep in Hstep.
  destruct (closed s) eqn:Hc; [done|].
  destruct (forallb isExited (workers s)) eqn:Hall; [|done].
  injection Hstep as <-. destruct HI. split; [split; simpl; try done|].
  - intros _. apply Forall_forall. intros w Hin.
    rewrite forallb_forall in Hall. apply list_elem_of_In in Hin.
    specialize (Hall w Hin). by destruct w.
  - intros Hr. destruct (inv_returned0 Hr). congruence.
  - unfold measure. simpl. rewrite Hc. lia.
Qed.

Lemma collectorStep_Inv (s s' : @state A) :
  Inv s → collectorStep s = Some s' → Inv s' ∧ (measure s' < measure s)%nat.
Proof.
  intros HI Hstep. unfold collectorStep in Hstep.
  pose proof (inv_records s HI) as Hrecords.
  destruct (returned s) eqn:Hr; [done|].
  destruct (results s) as [|records rest] eqn:Hres.
  - destruct (closed s) eqn:Hc; [|done]. injection Hstep as <-.
    split; [destruct HI; split; simpl; try done; auto|].
    unfold measure. simpl. rewrite Hr, Hres, Hc. simpl. lia.
  - injection Hstep as <-.
    split; [destruct HI; split; simpl; try done; try congruence|].
    + rewrite <- Hrecords. simpl. solve_Permutation.
    + unfold measure. simpl. rewrite Hr, Hres. simpl. lia.
Qed.

Lemma Step_Inv (s s' : @state A) :
  Inv s → Step fetchPage s s' → Inv s' ∧ (measure s' < measure s)%nat.
Proof using N_range P_range pages_full pages_empty.
  intros HI [[i| |] Hstep]; simpl in Hstep.
  - by apply (workerStep_Inv i s).
  - by apply closerStep_Inv.
  - by apply collectorStep_Inv.
Qed.

Lemma reachable_Inv (s s' : @state A) :
  Inv s → rtc (Step fetchPage) s s' → Inv s'.
Proof using N_range P_range pages_full pages_empty.
  intros HI Hsteps. induction Hsteps as [|s s1 s2 Hstep _ IH]; [done|].
  apply IH. by apply (Step_Inv s).
Qed.

(** Every execution is finite: each step makes the measure smaller. *)
Lemma Inv_terminates (s : @state A) : Inv s → sn (Step fetchPage) s.
Proof using N_range P_range pages_full pages_empty.
  remember (measure s) as m eqn:Hm. revert s Hm.
  induction m as [m IH] using lt_wf_ind. intros s -> HI.
  constructor. intros s' Hstep. unfold flip in Hstep.
  destruct (Step_Inv s s' HI Hstep) as [HI' Hlt].
  by apply (IH (measure s')).
Qed.

Lemma forallb_false_lookup {B} (f : B → bool) (l : list B) :
  forallb f l = false → ∃ i x, l !! i = Some x ∧ f x = false.
Proof.
  induction l as [|x l IH]; simpl; [done|].
  destruct (f x) eqn:E; simpl.
  - intros H. destruct (IH H) as (i & y & Hi & Hy). by exists (S i), y.
  - intros _. by exists 0%nat, x.
Qed.

(** No deadlock: as long as the function has not returned, some goroutine
    can take a step. *)
Lemma Inv_progress (s : @state A) :
  Inv s → returned s = false → ∃ s', Step fetchPage s s'.
Proof using N_range.
  intros HI Hr.
  destruct (results s) as [|records rest] eqn:Hres.
  - destruct (forallb isExited (workers s)) eqn:Hall.
    + destruct (closed s) eqn:Hc.
      * eexists. exists Collector. simpl. unfold collectorStep.
        by rewrite Hr, Hres, Hc.
      * eexists. exists Closer. simpl. unfold closerStep.
        by rewrite Hc, Hall.
    + destruct (forallb_false_lookup _ _ Hall) as (i & w & Hw & Hlive).
      pose proof (lookup_lt_Some _ _ _ Hw) as Hlt.
      pose proof (inv_len s HI) as Hlen.
      pose proof (inv_capacity s HI) as Hcap.
      destruct w as [| |page|page|page records|]; try done.
      * destruct (stop s =? 1) eqn:Hstop;
          eexists; exists (Worker i); simpl; unfold workerStep;
          by rewrite Hw, Hstop.
      * eexists. exists (Worker i). simpl. unfold workerStep. by rewrite Hw.
      * destruct (Z.of_nat (length (fetchPage page)) =? 0) eqn:Hempty;
          eexists; exists (Worker i); simpl; unfold workerStep;
          by rewrite Hw, Hempty.
      * eexists. exists (Worker i). simpl. unfold workerStep. by rewrite Hw.
      * eexists. exists (Worker i). simpl. unfold workerStep.
        rewrite Hw, Hres. rewrite decide_True; [done|]. simpl. lia.
  - eexists. exists Collector. simpl. unfold collectorStep.
    by rewrite Hr, Hres.
Qed.



End PagerFacts.
End PagerFacts.

(** ** The paginated fetcher on any resource: the flag and the page numbers *)

(** The facts below hold whatever the pages hold: every worker stores the
    flag at most once, and then exits; the flag is set exactly when some
    worker has stored it; page numbers are 64-bit integers. *)
Module PagerFlag.
Import Pager.
Section PagerFlag.
Context {A : Type} (fetchPage : Z → list A).
Variable N : Z.










End PagerFlag.
End PagerFlag.


(** ** The paginated fetcher: results *)

Lemma run_rtc {A} (fetchPage : Z → list A) (schedule : list thread) :
  ∀ s s', Pager.run fetchPage schedule s = Some s' →
          rtc (Pager.Step fetchPage) s s'.
Proof.
  induction schedule as [|t schedule IH]; intros s s' Hrun; simpl in Hrun.
  - injection Hrun as <-. constructor.
  - destruct (Pager.step fetchPage t s) as [s1|] eqn:Hstep; [|done].
    eapply rtc_l; [by exists t | by apply IH].
Qed.



(** Page [P + 1] is the first empty page. *)
Definition firstEmptyPage {A} (fetchPage : Z → list A) (P : Z) : Prop :=
  0 ≤ P ∧ (∀ p, 1 ≤ p ≤ P → fetchPage p ≠ []) ∧ fetchPage (P + 1) = [].











(** ** The discussion fetcher: invariant and termination *)

Module DiscussionFacts.
Import Discussions.

Lemma disc_init_state (N : Z) :
  0 ≤ N ≤ maxWorkers →
  init N = Some {| nextIdx := 0; done := 0; capacity := Z.to_nat (2 * N);
                   results := []; closed := false;
                   workers := replicate (Z.to_nat N) AtClaim;
                   allNotes := []; returned := false; requested := [] |}.
Proof.
  intros N_range. unfold init. by rewrite makechan_workers.
Qed.


Section DiscussionFacts.

Variable listDiscussions : Z → option (list Discussion).
Variable mrIIDs : list Z.
Variable N : Z.
Hypothesis N_range : 0 ≤ N < 2 ^ 62.
Hypothesis M_range : Z.of_nat (length mrIIDs) < 2 ^ 62.

Local Abbreviation M := (Z.of_nat (length mrIIDs)).

(** The notes that the request for index [idx] returns. *)
Definition notesAt (idx : Z) : list Note :=
  match mrIIDs !! Z.to_nat idx with
  | Some mrIID => fetchMRDiscussions listDiscussions mrIID
  | None => []
  end.

Definition exitedW (w : pc) : nat :=
  match w with Exited => 1 | _ => 0 end.

Definition holding (w : pc) : list Z :=
  match w with AtFetch idx => [idx] | _ => [] end.

Definition carrying (w : pc) : list Note :=
  match w with AtSend _ notes => notes | _ => [] end.

Definition wellWorker (next : Z) (w : pc) : Prop :=
  match w with
  | AtFetch idx => 0 ≤ idx < M
  | Exited => M < next
  | Panicked => False
  | _ => True
  end.

Definition weight (w : pc) : nat :=
  match w with
  | AtClaim => 1
  | AtFetch _ => 6
  | AtSend _ _ => 5
  | AtCount => 2
  | Exited | Panicked => 0
  end.

Definition measure (s : state) : nat :=
  (6 * Z.to_nat (M - nextIdx s) + sum_list_with weight (workers s) +
   2 * length (results s) + (if closed s then 0 else 1) +
   (if returned s then 0 else 1))%nat.

Record Inv (s : state) : Prop := {
  dinv_next :
    0 ≤ nextIdx s ≤ M + Z.of_nat (sum_list_with exitedW (workers s));
  dinv_len : length (workers s) = Z.to_nat N;
  dinv_well : Forall (wellWorker (nextIdx s)) (workers s);
  dinv_indices :
    flat_map holding (workers s) ++ (requested s).*2
      ≡ₚ seqZ 0 (Z.min (nextIdx s) M);
  dinv_notes :
    allNotes s ++ concat (results s) ++ flat_map carrying (workers s)
      ≡ₚ flat_map notesAt ((requested s).*2);
  dinv_closed : closed s = true → Forall (λ w, w = Exited) (workers s);
  dinv_returned : returned s = true → closed s = true ∧ results s = [];
  dinv_capacity : capacity s = Z.to_nat (2 * N)
}.

Lemma disc_Inv_init (s0 : state) : init N = Some s0 → Inv s0.
Proof.
  unfold init.
  destruct (makechan sliceSize (wrap64 (N * 2))) as [cap|] eqn:Hmake;
    [|done].
  apply makechan_Some in Hmake as [_ ->].
  rewrite wrap64_small by lia. intros [= <-].
  assert (∀ n, flat_map holding (replicate n AtClaim) = []) as Hhold
    by (induction n; simpl; auto).
  assert (∀ n, flat_map carrying (replicate n AtClaim) = []) as Hcarry
    by (induction n; simpl; auto).
  split; simpl.
  - lia.
  - apply length_replicate.
  - apply Forall_replicate. exact I.
  - rewrite Hhold. simpl. rewrite seqZ_nil; [done | lia].
  - by rewrite Hcarry.
  - discriminate.
  - discriminate.
  - f_equal. lia.
Qed.

Lemma bounded_exited (ws : list pc) :
  (sum_list_with exitedW ws ≤ length ws)%nat.
Proof. apply sum_list_with_le_length. intros []; simpl; lia. Qed.

Lemma disc_wellWorker_mono (next next' : Z) (w : pc) :
  next ≤ next' → wellWorker next w → wellWorker next' w.
Proof. destruct w; simpl; lia. Qed.

Lemma disc_replace_worker (ws : list pc) (i : nat) (w w' : pc) :
  ws !! i = Some w →
  (sum_list_with weight (<[i:=w']> ws) + weight w
     = sum_list_with weight ws + weight w')%nat ∧
  (sum_list_with exitedW (<[i:=w']> ws) + exitedW w
     = sum_list_with exitedW ws + exitedW w')%nat ∧
  flat_map holding (<[i:=w']> ws) ++ holding w
    ≡ₚ flat_map holding ws ++ holding w' ∧
  flat_map carrying (<[i:=w']> ws) ++ carrying w
    ≡ₚ flat_map carrying ws ++ carrying w'.
Proof.
  intros Hw. repeat split;
    auto using sum_list_with_insert, flat_map_insert.
Qed.

Lemma disc_worker_running (s : state) (i : nat) (w : pc) :
  Inv s → workers s !! i = Some w → w ≠ Exited →
  closed s = false ∧ returned s = false.
Proof.
  intros HI Hw Hne.
  assert (closed s = false) as Hc.
  { destruct (closed s) eqn:E; [|done].
    pose proof (dinv_closed s HI E) as Hall.
    rewrite Forall_lookup in Hall. by specialize (Hall i w Hw). }
  split; [done|]. destruct (returned s) eqn:E; [|done].
  destruct (dinv_returned s HI E). congruence.
Qed.

(** As for the paginated fetcher: the fields of [Inv], then the measure. *)
Lemma disc_workerStep_Inv (i : nat) (s s' : state) :
  Inv s → workerStep listDiscussions mrIIDs i s = Some s' →
  Inv s' ∧ (measure s' < measure s)%nat.
Proof.
  intros HI Hstep. unfold workerStep, total in Hstep.
  destruct (workers s !! i) as [w|] eqn:Hw; [|done].
  pose proof (bounded_exited (workers s)) as Hexited.
  pose proof (dinv_len s HI) as Hlen.
  pose proof (dinv_next s HI) as Hnext.
  pose proof (dinv_well s HI) as Hwell.
  rewrite Forall_lookup in Hwell. specialize (Hwell i _ Hw).
  pose proof (eq_refl : 2 ^ 63 = 2 * 2 ^ 62) as Hpow.
  destruct w as [|idx|idx notes| | |]; simpl in Hwell.
  - (* the claim of an index *)
    destruct (disc_worker_running s i _ HI Hw ltac:(done)) as [Hc Hr].
    assert (sum_list_with exitedW (workers s) < length (workers s))%nat
      as Hlive.
    { destruct (disc_replace_worker _ i _ Exited Hw) as (_ & Hd & _).
      pose proof (bounded_exited (<[i:=Exited]> (workers s))) as Hle.
      rewrite length_insert in Hle. simpl in Hd. lia. }
    assert (wrap64 (nextIdx s + 1) = nextIdx s + 1) as Hwrap
      by (apply wrap64_small; lia).
    assert (wrap64 (nextIdx s + 1 - 1) = nextIdx s) as Hwrap'
      by (rewrite wrap64_small; lia).
    rewrite Hwrap, Hwrap' in Hstep.
    destruct (M <=? nextIdx s) eqn:Hend; injection Hstep as <-.
    + apply Z.leb_le in Hend.
      destruct (disc_replace_worker _ i _ Exited Hw) as (Hwt & Hd & Hh & Hcr).
      destruct HI. simpl in *. split; [split; simpl|].
      * lia.
      * by rewrite length_insert.
      * apply Forall_insert; [|simpl; lia].
        eapply Forall_impl; [exact dinv_well0|].
        intros w. apply disc_wellWorker_mono. lia.
      * rewrite app_nil_r in Hh. rewrite Hh, !app_nil_r.
        rewrite Z.min_r in * by lia. done.
      * rewrite !app_nil_r in Hcr. by rewrite Hcr.
      * congruence.
      * congruence.
      * done.
      * unfold measure. simpl. rewrite Hc, Hr. lia.
    + apply Z.leb_gt in Hend.
      destruct (disc_replace_worker _ i _ (AtFetch (nextIdx s)) Hw)
        as (Hwt & Hd & Hh & Hcr).
      destruct HI. simpl in *. split; [split; simpl|].
      * lia.
      * by rewrite length_insert.
      * apply Forall_insert; [|simpl; lia].
        eapply Forall_impl; [exact dinv_well0|].
        intros w. apply disc_wellWorker_mono. lia.
      * rewrite app_nil_r in Hh. rewrite Hh.
        rewrite Z.min_l in * by lia.
        rewrite seqZ_app by lia. rewrite <- dinv_indices0.
        replace (0 + nextIdx s) with (nextIdx s) by lia.
        rewrite (seqZ_cons _ 1), seqZ_nil by lia. solve_Permutation.
      * rewrite !app_nil_r in Hcr. by rewrite Hcr.
      * congruence.
      * congruence.
      * done.
      * unfold measure. simpl. rewrite Hc, Hr. lia.
  - (* the request *)
    destruct (disc_worker_running s i _ HI Hw ltac:(done)) as [Hc Hr].
    destruct (idx <? 0) eqn:Hneg; [lia|].
    destruct (mrIIDs !! Z.to_nat idx) as [mrIID|] eqn:Hiid.
    2: { apply lookup_ge_None in Hiid. lia. }
    injection Hstep as <-.
    destruct (disc_replace_worker _ i _
                (AtSend idx (fetchMRDiscussions listDiscussions mrIID)) Hw)
      as (Hwt & Hd & Hh & Hcr).
    destruct HI. simpl in *. split; [split; simpl|].
    + lia.
    + by rewrite length_insert.
    + by apply Forall_insert.
    + rewrite <- dinv_indices0. rewrite app_nil_r in Hh. rewrite <- Hh.
      solve_Permutation.
    + unfold notesAt at 1. rewrite Hiid. rewrite <- dinv_notes0.
      rewrite app_nil_r in Hcr. rewrite Hcr. solve_Permutation.
    + congruence.
    + congruence.
    + done.
    + unfold measure. simpl. rewrite Hc, Hr. lia.
  - (* the send *)
    destruct (disc_worker_running s i _ HI Hw ltac:(done)) as [Hc Hr].
    destruct (decide (length (results s) < capacity s)%nat); [|done].
    injection Hstep as <-.
    destruct (disc_replace_worker _ i _ AtCount Hw) as (Hwt & Hd & Hh & Hcr).
    destruct HI. simpl in *. split; [split; simpl|].
    + lia.
    + by rewrite length_insert.
    + by apply Forall_insert.
    + rewrite !app_nil_r in Hh. by rewrite Hh.
    + rewrite <- dinv_notes0. rewrite concat_app. simpl.
      rewrite !app_nil_r in *. rewrite <- Hcr. solve_Permutation.
    + congruence.
    + congruence.
    + done.
    + unfold measure. simpl. rewrite Hc, Hr, length_app. simpl. lia.
  - (* the progress counter *)
    destruct (disc_worker_running s i _ HI Hw ltac:(done)) as [Hc Hr].
    injection Hstep as <-.
    destruct (disc_replace_worker _ i _ AtClaim Hw) as (Hwt & Hd & Hh & Hcr).
    destruct HI. simpl in *. split; [split; simpl|].
    + lia.
    + by rewrite length_insert.
    + by apply Forall_insert.
    + rewrite !app_nil_r in Hh. by rewrite Hh.
    + rewrite !app_nil_r in Hcr. by rewrite Hcr.
    + congruence.
    + congruence.
    + done.
    + unfold measure. simpl. rewrite Hc, Hr. lia.
  - done.
  - done.
Qed.

Lemma disc_closerStep_Inv (s s' : state) :
  Inv s → closerStep s = Some s' → Inv s' ∧ (measure s' < measure s)%nat.
Proof.
  intros HI Hstep. unfold closerStep in Hstep.
  destruct (closed s) eqn:Hc; [done|].
  destruct (forallb isExited (workers s)) eqn:Hall; [|done].
  injection Hstep as <-. destruct HI. split; [split; simpl; try done|].
  - intros _. apply Forall_forall. intros w Hin.
    rewrite forallb_forall in Hall. apply list_elem_of_In in Hin.
    specialize (Hall w Hin). by destruct w.
  - intros Hr. destruct (dinv_returned0 Hr). congruence.
  - unfold measure. simpl. rewrite Hc. lia.
Qed.

Lemma disc_collectorStep_Inv (s s' : state) :
  Inv s → collectorStep s = Some s' → Inv s' ∧ (measure s' < measure s)%nat.
Proof.
  intros HI Hstep. unfold collectorStep in Hstep.
  pose proof (dinv_notes s HI) as Hnotes.
  destruct (returned s) eqn:Hr; [done|].
  destruct (results s) as [|notes rest] eqn:Hres.
  - destruct (closed s) eqn:Hc; [|done]. injection Hstep as <-.
    split; [destruct HI; split; simpl; try done; auto|].
    unfold measure. simpl. rewrite Hr, Hres, Hc. simpl. lia.
  - injection Hstep as <-.
    split; [destruct HI; split; simpl; try done; try congruence|].
    + rewrite <- Hnotes. simpl. solve_Permutation.
    + unfold measure. simpl. rewrite Hr, Hres. simpl. lia.
Qed.

Lemma disc_Step_Inv (s s' : state) :
  Inv s → Step listDiscussions mrIIDs s s' →
  Inv s' ∧ (measure s' < measure s)%nat.
Proof.
  intros HI [[i| |] Hstep]; simpl in Hstep.
  - by apply (disc_workerStep_Inv i s).
  - by apply disc_closerStep_Inv.
  - by apply disc_collectorStep_Inv.
Qed.

Lemma disc_reachable_Inv (s s' : state) :
  Inv s → rtc (Step listDiscussions mrIIDs) s s' → Inv s'.
Proof.
  intros HI Hsteps. induction Hsteps as [|s s1 s2 Hstep _ IH]; [done|].
  apply IH. by apply (disc_Step_Inv s).
Qed.

Lemma disc_Inv_terminates (s : state) :
  Inv s → sn (Step listDiscussions mrIIDs) s.
Proof.
  remember (measure s) as m eqn:Hm. revert s Hm.
  induction m as [m IH] using lt_wf_ind. intros s -> HI.
  constructor. intros s' Hstep. unfold flip in Hstep.
  destruct (disc_Step_Inv s s' HI Hstep) as [HI' Hlt].
  by apply (IH (measure s')).
Qed.

Lemma disc_Inv_progress (s : state) :
  Inv s → returned s = false → ∃ s', Step listDiscussions mrIIDs s s'.
Proof.
  intros HI Hr.
  destruct (results s) as [|notes rest] eqn:Hres.
  - destruct (forallb isExited (workers s)) eqn:Hall.
    + destruct (closed s) eqn:Hc.
      * eexists. exists Collector. simpl. unfold collectorStep.
        by rewrite Hr, Hres, Hc.
      * eexists. exists Closer. simpl. unfold closerStep.
        by rewrite Hc, Hall.
    + destruct (PagerFacts.forallb_false_lookup _ _ Hall)
        as (i & w & Hw & Hlive).
      pose proof (lookup_lt_Some _ _ _ Hw) as Hlt.
      pose proof (dinv_len s HI) as Hlen.
      pose proof (dinv_capacity s HI) as Hcap.
      pose proof (dinv_well s HI) as Hwell.
      rewrite Forall_lookup in Hwell. specialize (Hwell i _ Hw).
      destruct w as [|idx|idx notes| | |]; try done.
      * destruct (total mrIIDs <=? wrap64 (wrap64 (nextIdx s + 1) - 1))
          eqn:Hend;
          eexists; exists (Worker i); simpl; unfold workerStep;
          by rewrite Hw, Hend.
      * simpl in Hwell.
        destruct (mrIIDs !! Z.to_nat idx) as [mrIID|] eqn:Hiid.
        2: { apply lookup_ge_None in Hiid. lia. }
        eexists. exists (Worker i). simpl. unfold workerStep.
        rewrite Hw, Hiid. destruct (idx <? 0) eqn:Hneg; [lia | done].
      * eexists. exists (Worker i). simpl. unfold workerStep.
        rewrite Hw, Hres. rewrite decide_True; [done|]. simpl. lia.
      * eexists. exists (Worker i). simpl. unfold workerStep. by rewrite Hw.
  - eexists. exists Collector. simpl. unfold collectorStep.
    by rewrite Hr, Hres.
Qed.



End DiscussionFacts.
End DiscussionFacts.

(** ** The discussion fetcher: results *)





(** ** Fetching without workers *)

(** With no worker, the closer closes the channel at once and the function
    returns nothing, without a single request. *)
Definition fetchesNothing {A} (fetchPage : Z → list A) : Prop :=
  ∃ s0, Pager.init 0 = Some s0 ∧
    Pager.workers s0 = [] ∧
    (∃ s1, Pager.closerStep s0 = Some s1 ∧ Pager.closed s1 = true) ∧
    sn (Pager.Step fetchPage) s0 ∧
    ∀ s, rtc (Pager.Step fetchPage) s0 s →
      Pager.requested s = [] ∧
      (nf (Pager.Step fetchPage) s → Pager.returned s = true) ∧
      (Pager.returned s = true → Pager.allRecords s = []).

Lemma zero_workers_fetch {A} (fetchPage : Z → list A) :
  fetchesNothing fetchPage.
Proof.
  assert (0 ≤ 0 < 2 ^ 62) as H0 by lia.
  assert (∀ p, 1 ≤ p ≤ 0 → fetchPage p ≠ []) as Hfull by (intros; lia).
  assert (∀ p, 0 < p ≤ 0 + 0 → fetchPage (wrap64 p) = []) as Hempty
    by (intros; lia).
  assert (0 ≤ 0 ≤ MaxInt64) as HP by (by vm_compute).
  eexists. split; [reflexivity|]. split; [reflexivity|].
  split; [by eexists|].
  pose proof (PagerFacts.Inv_init fetchPage 0 0 H0 HP _ eq_refl) as HI0.
  split; [by apply (PagerFacts.Inv_terminates fetchPage 0 0)|].
  intros s Hreach.
  pose proof (PagerFacts.reachable_Inv fetchPage 0 0 H0 HP Hfull Hempty
                _ s HI0 Hreach) as HI.
  pose proof (PagerFacts.inv_len _ _ _ _ HI) as Hlen.
  destruct (Pager.workers s) as [|w ws] eqn:Hws; [|done].
  pose proof (PagerFacts.inv_next _ _ _ _ HI) as Hnext.
  pose proof (PagerFacts.inv_pages _ _ _ _ HI) as Hpages.
  pose proof (PagerFacts.inv_records _ _ _ _ HI) as Hrecords.
  rewrite Hws in *. simpl in *.
  assert (Pager.requested s = []) as Hreq.
  { rewrite seqZ_nil in Hpages by lia. apply Permutation_nil_r in Hpages.
    by apply fmap_nil_inv in Hpages. }
  split; [done|]. split.
  - intros Hnf. destruct (Pager.returned s) eqn:Hr; [done|].
    destruct Hnf. by apply (PagerFacts.Inv_progress fetchPage 0 0).
  - intros _. rewrite Hreq in Hrecords. simpl in Hrecords.
    apply Permutation_nil_r in Hrecords.
    apply app_eq_nil in Hrecords. by destruct Hrecords.
Qed.

Lemma zero_workers_returns {A} (fetchPage : Z → list A) (result : list A) :
  Pager.returns fetchPage 0 result ↔ result = [].
Proof.
  split.
  - intros (s0 & s & Hinit & Hreach & Hr & <-).
    destruct (zero_workers_fetch fetchPage) as (s0' & Hinit' & _ & _ & _ & H).
    rewrite Hinit in Hinit'. injection Hinit' as <-.
    by apply (H s Hreach).
  - intros ->. eexists _, _. split; [reflexivity|]. split.
    + apply (run_rtc fetchPage [Closer; Collector]). reflexivity.
    + split; reflexivity.
Qed.

Definition discussionsFetchNothing
    (listDiscussions : Z → option (list Discussion)) (mrIIDs : list Z)
    : Prop :=
  ∃ s0, Discussions.init 0 = Some s0 ∧
    Discussions.workers s0 = [] ∧
    sn (Discussions.Step listDiscussions mrIIDs) s0 ∧
    ∀ s, rtc (Discussions.Step listDiscussions mrIIDs) s0 s →
      Discussions.requested s = [] ∧
      (nf (Discussions.Step listDiscussions mrIIDs) s →
       Discussions.returned s = true) ∧
      (Discussions.returned s = true → Discussions.allNotes s = []).

Lemma no_workers_no_notes listDiscussions mrIIDs (s s' : Discussions.state) :
  rtc (Discussions.Step listDiscussions mrIIDs) s s' →
  Discussions.workers s = [] ∧ Discussions.requested s = [] ∧
  Discussions.allNotes s = [] ∧ Discussions.results s = [] →
  Discussions.workers s' = [] ∧ Discussions.requested s' = [] ∧
  Discussions.allNotes s' = [] ∧ Discussions.results s' = [].
Proof.
  induction 1 as [|s s1 s2 [t Hstep] _ IH]; [done|].
  intros (Hws & Hreq & Hall & Hres). apply IH.
  destruct t as [i| |]; simpl in Hstep.
  - unfold Discussions.workerStep in Hstep. by rewrite Hws in Hstep.
  - unfold Discussions.closerStep in Hstep.
    destruct (_ && _); [|done]. by injection Hstep as <-.
  - unfold Discussions.collectorStep in Hstep.
    destruct (Discussions.returned s); [done|]. rewrite Hres in Hstep.
    destruct (Discussions.closed s); [|done]. by injection Hstep as <-.
Qed.

Lemma zero_workers_discussions
    (listDiscussions : Z → option (list Discussion)) (mrIIDs : list Z) :
  Z.of_nat (length mrIIDs) < 2 ^ 62 →
  discussionsFetchNothing listDiscussions mrIIDs.
Proof.
  intros HM. assert (0 ≤ 0 < 2 ^ 62) as H0 by lia.
  eexists. split; [reflexivity|]. split; [reflexivity|].
  pose proof (DiscussionFacts.disc_Inv_init listDiscussions mrIIDs 0 H0 _
                eq_refl) as HI0.
  split.
  { by apply (DiscussionFacts.disc_Inv_terminates listDiscussions mrIIDs 0). }
  intros s Hreach.
  pose proof (DiscussionFacts.disc_reachable_Inv listDiscussions mrIIDs 0
                H0 HM _ s HI0 Hreach) as HI.
  destruct (no_workers_no_notes listDiscussions mrIIDs _ s Hreach)
    as (_ & Hreq & Hall & _); [done|].
  split; [done|]. split; [|done].
  intros Hnf. destruct (Discussions.returned s) eqn:Hr; [done|].
  destruct Hnf.
  by apply (DiscussionFacts.disc_Inv_progress listDiscussions mrIIDs 0).
Qed.

Lemma disc_run_rtc listDiscussions mrIIDs (schedule : list thread) :
  ∀ s s', Discussions.run listDiscussions mrIIDs schedule s = Some s' →
          rtc (Discussions.Step listDiscussions mrIIDs) s s'.
Proof.
  induction schedule as [|t schedule IH]; intros s s' Hrun; simpl in Hrun.
  - injection Hrun as <-. constructor.
  - destruct (Discussions.step listDiscussions mrIIDs t s) as [s1|] eqn:Hstep;
      [|done].
    eapply rtc_l; [by exists t | by apply IH].
Qed.

Lemma zero_workers_discussions_returns listDiscussions (result : list Note) :
  Discussions.returns listDiscussions [] 0 result ↔ result = [].
Proof.
  split.
  - intros (s0 & s & Hinit & Hreach & Hr & <-).
    destruct (zero_workers_discussions listDiscussions [])
      as (s0' & Hinit' & _ & _ & H); [simpl; lia|].
    rewrite Hinit in Hinit'. injection Hinit' as <-.
    by apply (H s Hreach).
  - intros ->. eexists _, _. split; [reflexivity|]. split.
    + apply (disc_run_rtc listDiscussions [] [Closer; Collector]).
      reflexivity.
    + split; reflexivity.
Qed.

(** ** The pipeline: what reaches the checkpoint index *)

Lemma writeCSV_other {A} (header : list (list Z)) (row : A → list (list Z))
    (records : list A) (filename other : list Z) (fs : filesystem) :
  other ≠ filename →
  orElse fs (writeCSV header row records filename fs) !! other = fs !! other.
Proof.
  intros Hne. unfold writeCSV, orElse.
  destruct (OpenAppend fs filename) as [data|]; [|done]. simpl.
  unfold appendClose. by rewrite lookup_insert_ne.
Qed.

Lemma indexFile_not_csv (dataDir : list Z) :
  indexFile dataDir ≠ dataDir ++ str "/commits.csv" ∧
  indexFile dataDir ≠ dataDir ++ str "/merge_requests.csv" ∧
  indexFile dataDir ≠ dataDir ++ str "/notes.csv".
Proof.
  unfold indexFile. repeat split; intros H; by apply app_inv_head in H.
Qed.

Lemma writeOutputs_index (dataDir : list Z) (commits : list Commit)
    (mrs : list BasicMergeRequest) (notes : list Note) (fs : filesystem) :
  writeOutputs dataDir commits mrs notes fs !! indexFile dataDir
    = fs !! indexFile dataDir.
Proof.
  destruct (indexFile_not_csv dataDir) as (Hc & Hm & Hn).
  unfold writeOutputs, writeCommitsCSV, writeMRsCSV, writeNotesCSV.
  destruct (0 <? Z.of_nat (length notes)).
  - by rewrite !writeCSV_other.
  - by rewrite !writeCSV_other.
Qed.

Definition entriesOf (projects : list Project) : list Z :=
  flat_map (λ p, indexEntry (p_ID p) (p_PathWithNamespace p)) projects.

(** The fetch loop appends one entry per element of the list it runs over,
    whatever the fetch phases return. *)
Lemma fetchLoop_index (client : Client) (workers : Z) (dataDir : list Z)
    (skip : bool) (projects : list Project) (fs fs' : filesystem) :
  fetchLoop client workers dataDir skip projects fs fs' →
  ∀ data, OpenAppend fs (indexFile dataDir) = Some data →
          OpenAppend fs' (indexFile dataDir)
            = Some (data ++ entriesOf projects).
Proof.
  induction 1 as [fs|project projects fs fs1 fs2 Hfetch Hloop IH];
    intros data Hopen.
  - unfold entriesOf. simpl. by rewrite app_nil_r.
  - destruct Hfetch as [commits mrs notes _ _ _].
    assert (OpenAppend (writeOutputs dataDir commits mrs notes fs)
              (indexFile dataDir) = Some data) as Hopen1.
    { unfold OpenAppend in *. by rewrite writeOutputs_index. }
    rewrite (IH (data ++ indexEntry (p_ID project)
                           (p_PathWithNamespace project))).
    + unfold entriesOf. simpl. by rewrite app_assoc.
    + unfold markProjectFetched. rewrite Hopen1.
      apply OpenAppend_appendClose.
Qed.

(** The strings [strconv.Atoi] accepts as to their syntax: an optional sign
    and at least one decimal digit. *)
Definition validInteger (s : list Z) : bool :=
  let body :=
    match s with
    | c :: rest => if (c =? PLUS) || (c =? MINUS) then rest else s
    | [] => []
    end in
  match body with
  | [] => false
  | _ :: _ => forallb is_digit body
  end.

Lemma Atoi_invalid (s : list Z) :
  validInteger s = false → Atoi s = (0, Some ErrSyntax).
Proof.
  unfold validInteger, Atoi, ParseInt. destruct s as [|c rest]; [done|].
  unfold PLUS, MINUS.
  destruct (c =? 45) eqn:E1; destruct (c =? 43) eqn:E2;
    try lia; simpl.
  - destruct rest; [done|]. by intros ->.
  - destruct rest; [done|]. by intros ->.
  - by intros ->.
Qed.

Lemma zero_workers_fetchAll (client : Client) (projectID : Z)
    (dataDir : list Z) (skip : bool) (fs fs' : filesystem) :
  fetchAll client projectID 0 dataDir skip fs fs' ↔
  fs' = writeOutputs dataDir [] [] [] fs.
Proof.
  split.
  - intros [commits mrs notes Hc Hm Hn].
    apply zero_workers_returns in Hc as ->.
    apply zero_workers_returns in Hm as ->.
    destruct skip; [by subst|].
    simpl in Hn. by apply zero_workers_discussions_returns in Hn as ->.
  - intros ->. apply fetchAll_done.
    + by apply zero_workers_returns.
    + by apply zero_workers_returns.
    + destruct skip; [done|]. simpl.
      by apply zero_workers_discussions_returns.
Qed.

Lemma zero_workers_fetchLoop (client : Client) (dataDir : list Z)
    (skip : bool) (projects : list Project) :
  ∀ fs, ∃ fs', fetchLoop client 0 dataDir skip projects fs fs'.
Proof.
  induction projects as [|project projects IH]; intros fs.
  - exists fs. constructor.
  - destruct (IH (markProjectFetched dataDir (p_ID project)
                    (p_PathWithNamespace project)
                    (writeOutputs dataDir [] [] [] fs))) as [fs' Hloop].
    exists fs'. econstructor; [|exact Hloop].
    by apply zero_workers_fetchAll.
Qed.

(** C10: when [GITLAB_WORKERS] is set to a string that is not a valid
    integer, the parse error is ignored and the worker count is 0; with 0
    workers a fetch phase has no worker, its channel is closed at once and
    it returns the empty list without any request; the loop over the
    projects still completes and appends an entry to the checkpoint index
    for every project it runs over. *)
Theorem invalid_worker_count_fetches_nothing (env : gmap (list Z) (list Z)) :
  Getenv env (str "GITLAB_WORKERS") ≠ [] →
  validInteger (Getenv env (str "GITLAB_WORKERS")) = false →
  workersCount env = 0 ∧
  (∀ A (fetchPage : Z → list A),
     fetchesNothing fetchPage ∧
     ∀ result, Pager.returns fetchPage (workersCount env) result ↔
               result = []) ∧
  (∀ client projectID dataDir skip fs fs',
     fetchAll client projectID (workersCount env) dataDir skip fs fs' ↔
     fs' = writeOutputs dataDir [] [] [] fs) ∧
  (∀ client dataDir skip projects fs,
     (∃ fs', fetchLoop client (workersCount env) dataDir skip projects fs fs') ∧
     ∀ fs' data,
       fetchLoop client (workersCount env) dataDir skip projects fs fs' →
       OpenAppend fs (indexFile dataDir) = Some data →
       OpenAppend fs' (indexFile dataDir) = Some (data ++ entriesOf projects)).
Proof.
  intros Hset Hinvalid.
  assert (workersCount env = 0) as Hzero.
  { unfold workersCount.
    destruct (Getenv env (str "GITLAB_WORKERS")) as [|c v] eqn:Hv; [done|].
    by rewrite Atoi_invalid. }
  rewrite Hzero. split; [done|]. split; [|split].
  - intros A fetchPage. split; [apply zero_workers_fetch|].
    apply zero_workers_returns.
  - intros. apply zero_workers_fetchAll.
  - intros client dataDir skip projects fs. split.
    + apply zero_workers_fetchLoop.
    + intros fs' data Hloop Hopen.
      by apply (fetchLoop_index client 0 dataDir skip projects fs).
Qed.

Lemma invalid_worker_count_fetches_nothing_witness :
  workersCount {[ str "GITLAB_WORKERS" := str "four" ]} = 0.
Proof.
  apply (invalid_worker_count_fetches_nothing
           {[ str "GITLAB_WORKERS" := str "four" ]}).
  - unfold Getenv. rewrite lookup_singleton_eq. discriminate.
  - unfold Getenv. rewrite lookup_singleton_eq. reflexivity.
Defined.

(** ** The pipeline: a project that is resolved twice *)

Lemma OpenAppend_Open (fs : filesystem) (name data : list Z) :
  OpenAppend fs name = Some data → data ≠ [] → Open fs name = Some data.
Proof.
  unfold OpenAppend, Open. destruct (fs !! name) as [[d|]|]; naive_solver.
Qed.

Definition projectSeven : Project :=
  {| p_ID := 7; p_PathWithNamespace := str "group/proj" |}.

(** A remote with the single project [group/proj], which has no commits and
    no merge requests. *)
Definition oneProjectClient : Client :=
  {| resolveProjects := λ path,
       if string_eqb path (str "group/proj") then Some [projectSeven]
       else None;
     commitPage := λ _ _, [];
     mrPage := λ _ _, [];
     discussionList := λ _ _, Some [] |}.

Definition exampleEnv : gmap (list Z) (list Z) :=
  {[ str "GITLAB_URL" := str "https://gitlab.example";
     str "GITLAB_TOKEN" := str "secret";
     str "DATA_FOLDER" := str "data" ]}.

(** The same project URL, given twice on the command line. *)
Definition sameURLTwice : list (list Z) :=
  [str "https://gitlab.example/group/proj";
   str "https://gitlab.example/group/proj"].

Lemma sameURLTwice_plan :
  snd (mainSetup ParsePlain oneProjectClient exampleEnv sameURLTwice ∅)
    = Ok {| planWorkers := 1; planDataFolder := str "data";
            planProjects := [projectSeven; projectSeven] |}.
Proof. vm_compute. reflexivity. Qed.

Lemma one_worker_empty_resource {A} :
  Pager.returns (λ _ : Z, @nil A) 1 [].
Proof.
  eexists _, _. split; [reflexivity|]. split.
  - apply (run_rtc _ [Worker 0; Worker 0; Worker 0; Worker 0; Closer;
                      Collector]).
    reflexivity.
  - split; reflexivity.
Qed.

Lemma one_worker_no_merge_requests listDiscussions :
  Discussions.returns listDiscussions [] 1 [].
Proof.
  eexists _, _. split; [reflexivity|]. split.
  - apply (disc_run_rtc _ _ [Worker 0; Closer; Collector]). reflexivity.
  - split; reflexivity.
Qed.

(** C4 on the code: the project [group/proj], identifier 7, is not in the
    index; its URL is given twice. The run completes, and every run leaves
    two entries for identifier 7 in the index file: the list of resolved
    projects is filtered against the index loaded at start-up only. *)
Theorem same_project_marked_twice (skipDiscussions : bool) :
  (∃ fs', mainRuns ParsePlain oneProjectClient exampleEnv skipDiscussions
            sameURLTwice ∅ (Completed fs')) ∧
  ∀ o, mainRuns ParsePlain oneProjectClient exampleEnv skipDiscussions
         sameURLTwice ∅ o →
       ∃ fs', o = Completed fs' ∧
              Open fs' (indexFile (str "data"))
                = Some (indexEntry 7 (str "group/proj") ++
                        indexEntry 7 (str "group/proj")).
Proof.
  unfold mainRuns. rewrite sameURLTwice_plan. simpl. split.
  - assert (∀ fs, fetchAll oneProjectClient 7 1 (str "data") skipDiscussions
                    fs (writeOutputs (str "data") [] [] [] fs)) as Hfetch.
    { intros fs. apply fetchAll_done.
      - apply one_worker_empty_resource.
      - apply one_worker_empty_resource.
      - destruct skipDiscussions; [done|].
        apply one_worker_no_merge_requests. }
    eexists. eexists. split; [|reflexivity].
    eapply fetchLoop_cons; [apply Hfetch|].
    eapply fetchLoop_cons; [apply Hfetch|]. constructor.
  - intros o (fs' & Hloop & ->). exists fs'. split; [done|].
    apply OpenAppend_Open; [|done].
    by apply (fetchLoop_index oneProjectClient 1 (str "data")
                skipDiscussions [projectSeven; projectSeven] ∅ fs' Hloop []).
Qed.

(** * More of the program *)

(** ** File names *)

(** The pairs given to [strings.NewReplacer] in [sanitizeFilename]: each of
    them replaces one ASCII character by an underscore. *)
Definition filenamePairs : list (Z * Z) :=
  [(47, 95); (92, 95); (58, 95); (42, 95); (63, 95); (34, 95); (60, 95);
   (62, 95); (124, 95); (32, 95)].

(** A replacer whose old and new strings are all single characters maps
    every character on its own; the first pair for a character wins. *)
Fixpoint replaceRune (pairs : list (Z * Z)) (c : Z) : Z :=
  match pairs with
  | [] => c
  | (old, new) :: pairs' => if c =? old then new else replaceRune pairs' c
  end.

Definition sanitizeFilename (name : list Z) : list Z :=
  replaceRune filenamePairs <$> name.

Definition unsafeRune (c : Z) : Prop := c ∈ filenamePairs.*1.

Lemma replaceRune_cases (pairs : list (Z * Z)) (c : Z) :
  replaceRune pairs c ∈ pairs.*2 ∨
  (replaceRune pairs c = c ∧ c ∉ pairs.*1).
Proof.
  induction pairs as [|[old new] pairs IH]; simpl.
  - right. split; [done|]. apply not_elem_of_nil.
  - destruct (Z.eqb_spec c old) as [->|Hne].
    + left. apply elem_of_cons. by left.
    + destruct IH as [IH|[IH1 IH2]].
      * left. apply elem_of_cons. by right.
      * right. split; [done|]. apply not_elem_of_cons. done.
Qed.

Lemma replaceRune_safe (c : Z) : ¬ unsafeRune (replaceRune filenamePairs c).
Proof.
  unfold unsafeRune.
  destruct (replaceRune_cases filenamePairs c) as [H|[-> H]]; [|done].
  revert H. generalize (replaceRune filenamePairs c). intros r.
  unfold filenamePairs. cbn [fmap list_fmap fst snd].
  rewrite !elem_of_cons, !elem_of_nil. lia.
Qed.

Lemma replaceRune_id (c : Z) :
  ¬ unsafeRune c → replaceRune filenamePairs c = c.
Proof.
  unfold unsafeRune. generalize filenamePairs. intros pairs.
  induction pairs as [|[old new] pairs IH]; [done|].
  cbn [fmap list_fmap fst replaceRune]. rewrite not_elem_of_cons.
  intros [Hne Hrest]. destruct (Z.eqb_spec c old); [done|]. by apply IH.
Qed.

(** X1: [sanitizeFilename] keeps the length of the name, leaves none of the ten
    characters it replaces, changes nothing in a name that has none of them,
    so that applying it twice is applying it once, and works through a
    name piece by piece. *)
Theorem sanitizeFilename_safe (name other : list Z) :
  length (sanitizeFilename name) = length name ∧
  Forall (λ c, ¬ unsafeRune c) (sanitizeFilename name) ∧
  (Forall (λ c, ¬ unsafeRune c) name → sanitizeFilename name = name) ∧
  sanitizeFilename (sanitizeFilename name) = sanitizeFilename name ∧
  sanitizeFilename (name ++ other)
    = sanitizeFilename name ++ sanitizeFilename other.
Proof.
  assert (∀ s, Forall (λ c, ¬ unsafeRune c) s → sanitizeFilename s = s)
    as Hid.
  { induction 1 as [|c s Hc Hs IH]; [done|].
    unfold sanitizeFilename in *. cbn [fmap list_fmap].
    by rewrite replaceRune_id, IH. }
  assert (Forall (λ c, ¬ unsafeRune c) (sanitizeFilename name)) as Hsafe.
  { unfold sanitizeFilename. apply Forall_fmap, Forall_forall.
    intros c _. apply replaceRune_safe. }
  split; [apply length_fmap|]. split; [done|]. split; [apply Hid|].
  split; [by apply Hid|]. apply fmap_app.
Qed.

Lemma sanitizeFilename_safe_witness :
  sanitizeFilename (str "group_proj-1.csv") = str "group_proj-1.csv".
Proof.
  refine (proj1 (proj2 (proj2
            (sanitizeFilename_safe (str "group_proj-1.csv") []))) _).
  let l := eval vm_compute in (str "group_proj-1.csv") in
  change (str "group_proj-1.csv") with l.
  repeat (apply Forall_cons_2;
          [unfold unsafeRune, filenamePairs; cbn [fmap list_fmap fst];
           rewrite !elem_of_cons, elem_of_nil; lia|]).
  apply Forall_nil_2.
Defined.

(** ** Dates *)

Lemma digits_nonempty (n : Z) : digits n ≠ [].
Proof. destruct (digits_cons n) as (d & ds & -> & _). done. Qed.

Lemma digits_from_length (fuel : nat) :
  ∀ (n : Z) (k : nat) (acc : list Z),
    0 ≤ n < 10 ^ Z.of_nat k → (1 ≤ k)%nat →
    (length (digits_from fuel n acc) ≤ k + length acc)%nat.
Proof.
  induction fuel as [|fuel IH]; intros n k acc Hn Hk; simpl; [lia|].
  destruct (n <? 10) eqn:E; [simpl; lia|]. apply Z.ltb_ge in E.
  destruct k as [|[|k]]; [lia | simpl in Hn; lia |].
  specialize (IH (n / 10) (S k) ((48 + n mod 10) :: acc)).
  simpl length in IH. etransitivity; [apply IH|]; [|lia|lia].
  rewrite (Nat2Z.inj_succ (S k)), Z.pow_succ_r in Hn by lia.
  split; [apply Z.div_pos; lia|]. apply Z.div_lt_upper_bound; lia.
Qed.

Lemma appendInt_length (x : Z) (width : nat) :
  0 ≤ x < 10 ^ Z.of_nat width → (1 ≤ width)%nat →
  length (appendInt x width) = width.
Proof.
  intros Hx Hw. unfold appendInt.
  destruct (x <? 0) eqn:E; [lia|]. rewrite Z.abs_eq by lia.
  pose proof (digits_from_length (S (Z.to_nat (Z.log2 x))) x width [] Hx Hw)
    as Hlen.
  fold (digits x) in Hlen. simpl in Hlen.
  rewrite !length_app, length_replicate. simpl. lia.
Qed.

(** The fields of a time as the [time] package produces them. *)
Definition civilTime (t : Time) : Prop :=
  0 ≤ year t ≤ 9999 ∧ 1 ≤ month t ≤ 12 ∧ 1 ≤ day t ≤ 31 ∧
  0 ≤ hour t ≤ 23 ∧ 0 ≤ minute t ≤ 59 ∧ 0 ≤ second t ≤ 59.

(** X2: [formatDate] returns the empty string for a nil date only, so that an
    empty date column, such as [merged_at], always stands for a missing
    date; a date in UTC with a four-digit year is written on 20
    characters that end with [Z]. *)
Theorem formatDate_empty_iff_nil (date : option Time) :
  (formatDate date = [] ↔ date = None) ∧
  (∀ t, date = Some t → civilTime t → zoneOffset t = 0 →
        length (formatDate date) = 20%nat ∧
        last (formatDate date) = Some 90).
Proof.
  split.
  - split; [|by intros ->]. destruct date as [t|]; [|done].
    unfold formatDate, Format_RFC3339, appendInt. intros H.
    apply app_eq_nil in H as [H _]. apply app_eq_nil in H as [_ H].
    apply app_eq_nil in H as [_ H]. by apply digits_nonempty in H.
  - intros t -> (Hy & Hm & Hd & Hh & Hmi & Hs) Hz.
    unfold formatDate, Format_RFC3339. rewrite Hz. simpl (_ =? _).
    cbn iota. split.
    + rewrite !length_app, !appendInt_length by (simpl; lia). reflexivity.
    + rewrite !app_assoc. apply last_snoc.
Qed.

Lemma formatDate_empty_iff_nil_witness :
  length (formatDate (Some {| year := 2024; month := 3; day := 9; hour := 7;
                              minute := 5; second := 0; zoneOffset := 0 |}))
    = 20%nat ∧
  last (formatDate (Some {| year := 2024; month := 3; day := 9; hour := 7;
                            minute := 5; second := 0; zoneOffset := 0 |}))
    = Some 90.
Proof.
  eapply (formatDate_empty_iff_nil
            (Some {| year := 2024; month := 3; day := 9; hour := 7;
                     minute := 5; second := 0; zoneOffset := 0 |}));
    [reflexivity | unfold civilTime; simpl; lia | reflexivity].
Defined.

(** ** The notes of a merge request *)

Lemma fold_notes (glDiscussions : list Discussion) :
  ∀ notes,
    fold_left
      (λ notes gd,
         if Z.of_nat (length (Notes gd)) =? 0 then notes
         else notes ++ Notes gd)
      glDiscussions notes
    = notes ++ concat (Notes <$> glDiscussions).
Proof.
  induction glDiscussions as [|gd ds IH]; intros notes; simpl.
  - by rewrite app_nil_r.
  - rewrite IH. destruct (Z.of_nat (length (Notes gd)) =? 0) eqn:E.
    + assert (Notes gd = []) as -> by (apply nil_length_inv; lia). done.
    + by rewrite app_assoc.
Qed.

(** X3: [fetchMRDiscussions] returns the notes of all discussions of the merge
    request, discussion after discussion and in the order of each
    discussion, so that skipping the empty discussions loses nothing; a
    failed request yields no note at all. *)
Theorem fetchMRDiscussions_all_notes
    (listDiscussions : Z → option (list Discussion)) (mrIID : Z) :
  (listDiscussions mrIID = None →
   fetchMRDiscussions listDiscussions mrIID = []) ∧
  (∀ glDiscussions, listDiscussions mrIID = Some glDiscussions →
     fetchMRDiscussions listDiscussions mrIID
       = concat (Notes <$> glDiscussions) ∧
     length (fetchMRDiscussions listDiscussions mrIID)
       = sum_list_with (λ gd, length (Notes gd)) glDiscussions).
Proof.
  unfold fetchMRDiscussions. split; [by intros ->|].
  intros ds ->. rewrite fold_notes. cbn [app]. split; [done|].
  induction ds as [|gd ds IH]; [done|].
  cbn [fmap list_fmap concat sum_list_with]. rewrite length_app.
  f_equal. exact IH.
Qed.

Definition exampleNote (body : list Z) : Note :=
  {| n_ProjectID := 7; n_ID := 31;
     n_Author := {| Username := str "ann"; Name := str "Ann" |};
     n_CreatedAt := None; n_UpdatedAt := None; n_Body := body;
     n_System := false |}.

Lemma fetchMRDiscussions_all_notes_witness :
  fetchMRDiscussions
    (λ _, Some [ {| Notes := [exampleNote (str "a")] |}; {| Notes := [] |};
                 {| Notes := [exampleNote (str "b"); exampleNote (str "c")] |} ])
    5
  = [exampleNote (str "a"); exampleNote (str "b"); exampleNote (str "c")].
Proof.
  exact (proj1 (proj2 (fetchMRDiscussions_all_notes
            (λ _, Some [ {| Notes := [exampleNote (str "a")] |};
                         {| Notes := [] |};
                         {| Notes := [exampleNote (str "b");
                                      exampleNote (str "c")] |} ]) 5)
            _ eq_refl)).
Defined.

(** ** Free text and physical lines *)

Lemma cleanRune_id (c : Z) : c ≠ LF → c ≠ CR → cleanRune c = c.
Proof.
  unfold cleanRune, LF, CR. intros. destruct (c =? 10) eqn:E1; [lia|].
  destruct (c =? 13) eqn:E2; [lia | done].
Qed.

Lemma cleanText_oneLine (s : list Z) : oneLine s → cleanText s = s.
Proof.
  rewrite cleanText_map. induction 1 as [|c s [Hc1 Hc2] Hs IH]; [done|].
  cbn [fmap list_fmap] in *. by rewrite cleanRune_id, IH.
Qed.

(** X4: The clean-up of a free-text field replaces characters one for one: the
    text keeps its length, a text without line break is left as it is, and
    cleaning twice is cleaning once. *)
Theorem cleanText_one_for_one (s : list Z) :
  length (cleanText s) = length s ∧
  (oneLine s → cleanText s = s) ∧
  cleanText (cleanText s) = cleanText s ∧
  ∀ t, cleanText (s ++ t) = cleanText s ++ cleanText t.
Proof.
  split; [|split; [|split]].
  - rewrite cleanText_map. apply length_fmap.
  - apply cleanText_oneLine.
  - apply cleanText_oneLine, oneLine_cleanText.
  - intros t. rewrite !cleanText_map. apply fmap_app.
Qed.

Lemma cleanText_one_for_one_witness : cleanText (str "fix typo") = str "fix typo".
Proof.
  refine (proj1 (proj2 (cleanText_one_for_one (str "fix typo"))) _).
  apply oneLine_ascii. reflexivity.
Defined.

Lemma lineFeeds_app (s t : list Z) :
  lineFeeds (s ++ t) = (lineFeeds s + lineFeeds t)%nat.
Proof. unfold lineFeeds. by rewrite filter_app, length_app. Qed.

Lemma lineFeeds_cons (c : Z) (s : list Z) :
  lineFeeds (c :: s) = ((if (c =? LF)%Z then 1 else 0) + lineFeeds s)%nat.
Proof.
  unfold lineFeeds. destruct (c =? LF) eqn:E.
  - apply Z.eqb_eq in E. by rewrite filter_cons_True.
  - apply Z.eqb_neq in E. by rewrite filter_cons_False.
Qed.

Lemma lineFeeds_writeField (field : list Z) :
  lineFeeds (writeField field) = lineFeeds field.
Proof.
  unfold writeField. destruct (fieldNeedsQuotes field); [|done].
  rewrite lineFeeds_cons, lineFeeds_app. change (QUOTE =? LF) with false.
  change (lineFeeds [QUOTE]) with 0%nat. rewrite Nat.add_0_r. simpl.
  induction field as [|c s IH]; [done|].
  cbn [flat_map]. rewrite lineFeeds_app, IH, lineFeeds_cons.
  destruct (Z.eqb_spec c QUOTE) as [->|Hne]; [reflexivity|].
  rewrite (lineFeeds_cons c []). change (lineFeeds []) with 0%nat. lia.
Qed.

Lemma lineFeeds_joinFields (fields : list (list Z)) :
  lineFeeds (joinFields fields) = sum_list_with lineFeeds fields.
Proof.
  induction fields as [|f fs IH]; [done|].
  cbn [joinFields sum_list_with]. destruct fs as [|g fs].
  - rewrite lineFeeds_writeField. simpl. lia.
  - rewrite lineFeeds_app, lineFeeds_cons, lineFeeds_writeField, IH.
    change (COMMA =? LF) with false. simpl. lia.
Qed.

(** The CSV writer keeps the line feeds of the fields it quotes: a record
    takes one physical line more than its fields hold line feeds. *)
Lemma lineFeeds_csvWrite (record : list (list Z)) :
  lineFeeds (csvWrite record) = S (sum_list_with lineFeeds record).
Proof.
  unfold csvWrite. rewrite lineFeeds_app, lineFeeds_joinFields.
  change (lineFeeds [LF]) with 1%nat. lia.
Qed.

Lemma lineFeeds_zero (s : list Z) :
  lineFeeds s = 0%nat ↔ Forall (λ c, c ≠ LF) s.
Proof.
  induction s as [|c s IH]; [by split; [constructor|]|].
  rewrite lineFeeds_cons, Forall_cons, <- IH.
  destruct (c =? LF) eqn:E; [apply Z.eqb_eq in E | apply Z.eqb_neq in E];
    split; intros; try lia; naive_solver.
Qed.

(** The text fields of a merge request, in the order of the row. *)
Definition mrTextFields (m : BasicMergeRequest) : list (list Z) :=
  [m_Title m; m_State m; Username (m_Author m); Name (m_Author m);
   m_SourceBranch m; m_TargetBranch m; m_SHA m; m_MergeCommitSHA m;
   m_SquashCommitSHA m].

(** X5: [writeMRsCSV] cleans no field: the row of a merge request is a single
    physical line exactly when none of its nine text fields holds a line
    feed, and in general it has one line more than these fields hold line
    feeds. *)
Theorem mr_row_lines (m : BasicMergeRequest) :
  lineFeeds (csvWrite (mrRow m))
    = S (sum_list_with lineFeeds (mrTextFields m)) ∧
  (lineFeeds (csvWrite (mrRow m)) = 1%nat ↔
   Forall (λ field, Forall (λ c, c ≠ LF) field) (mrTextFields m)).
Proof.
  assert (lineFeeds (csvWrite (mrRow m))
            = S (sum_list_with lineFeeds (mrTextFields m))) as Hcount.
  { rewrite lineFeeds_csvWrite. unfold mrRow, mrTextFields. simpl.
    rewrite !(oneLine_lineFeeds _ (oneLine_FormatInt _)),
            !(oneLine_lineFeeds _ (oneLine_formatDate _)). lia. }
  split; [done|]. rewrite Hcount. unfold mrTextFields.
  rewrite !Forall_cons, Forall_nil, <- !lineFeeds_zero. simpl. lia.
Qed.

(** X6: The row of a note: the body is cleaned, and the row is a single
    physical line when the name and the user name of the author hold no
    line break. *)
Theorem note_row_one_line (n : Note) :
  noteRow n !! 6%nat = Some (cleanRune <$> n_Body n) ∧
  (oneLine (Name (n_Author n)) → oneLine (Username (n_Author n)) →
   ∃ line, csvWrite (noteRow n) = line ++ [LF] ∧ oneLine line).
Proof.
  split; [unfold noteRow; simpl; by rewrite cleanText_map|].
  intros Hname Huser. exists (joinFields (noteRow n)). split; [done|].
  apply oneLine_joinFields. unfold noteRow.
  repeat apply Forall_cons_2; try apply Forall_nil_2; auto with lines.
  destruct (n_System n); apply oneLine_ascii; reflexivity.
Qed.

Lemma note_row_one_line_witness :
  ∃ line, csvWrite (noteRow (exampleNote exampleMessage)) = line ++ [LF] ∧
          oneLine line.
Proof.
  refine (proj2 (note_row_one_line (exampleNote exampleMessage)) _ _);
    apply oneLine_ascii; reflexivity.
Defined.

(** ** Files only grow *)

(** [fs'] extends [fs]: every file of [fs] is still there with its old
    content at the start, and what could not be opened still cannot. *)
Definition extends (fs fs' : filesystem) : Prop :=
  ∀ name,
    match fs !! name with
    | Some (File data) => ∃ more, fs' !! name = Some (File (data ++ more))
    | Some NoAccess => fs' !! name = Some NoAccess
    | None => True
    end.

Lemma extends_refl (fs : filesystem) : extends fs fs.
Proof.
  intros name. destruct (fs !! name) as [[data|]|]; [|done|done].
  exists []. by rewrite app_nil_r.
Qed.

Lemma extends_trans (fs1 fs2 fs3 : filesystem) :
  extends fs1 fs2 → extends fs2 fs3 → extends fs1 fs3.
Proof.
  intros H12 H23 name. specialize (H12 name). specialize (H23 name).
  destruct (fs1 !! name) as [[data|]|]; [| |done].
  - destruct H12 as [more H12]. rewrite H12 in H23.
    destruct H23 as [more' H23]. exists (more ++ more').
    by rewrite app_assoc.
  - by rewrite H12 in H23.
Qed.

Lemma extends_append (fs : filesystem) (name data out : list Z) :
  OpenAppend fs name = Some data →
  extends fs (appendClose fs name data out).
Proof.
  intros Hopen other. unfold appendClose, OpenAppend in *.
  destruct (decide (other = name)) as [->|Hne].
  - rewrite lookup_insert_eq.
    destruct (fs !! name) as [[d|]|]; [|done|done].
    injection Hopen as ->. by exists out.
  - rewrite lookup_insert_ne by done.
    destruct (fs !! other) as [[d|]|]; [|done|done].
    exists []. by rewrite app_nil_r.
Qed.

Lemma extends_writeCSV {A} (header : list (list Z)) (row : A → list (list Z))
    (records : list A) (filename : list Z) (fs : filesystem) :
  extends fs (orElse fs (writeCSV header row records filename fs)).
Proof.
  unfold writeCSV, orElse.
  destruct (OpenAppend fs filename) as [data|] eqn:Hopen; simpl.
  - by apply extends_append.
  - apply extends_refl.
Qed.

Lemma extends_markProjectFetched (dataDir : list Z) (projectID : Z)
    (projectPath : list Z) (fs : filesystem) :
  extends fs (markProjectFetched dataDir projectID projectPath fs).
Proof.
  unfold markProjectFetched.
  destruct (OpenAppend fs (indexFile dataDir)) as [data|] eqn:Hopen.
  - by apply extends_append.
  - apply extends_refl.
Qed.

Lemma extends_writeOutputs (dataDir : list Z) (commits : list Commit)
    (mrs : list BasicMergeRequest) (notes : list Note) (fs : filesystem) :
  extends fs (writeOutputs dataDir commits mrs notes fs).
Proof.
  unfold writeOutputs. cbv zeta.
  set (fs1 := orElse fs (writeCommitsCSV commits _ fs)).
  set (fs2 := orElse fs1 (writeMRsCSV mrs _ fs1)).
  assert (extends fs fs1) as H1
    by apply (extends_writeCSV commitsHeader commitRow).
  assert (extends fs1 fs2) as H2
    by apply (extends_writeCSV mrsHeader mrRow).
  apply (extends_trans fs fs1); [exact H1|].
  apply (extends_trans fs1 fs2); [exact H2|].
  destruct (0 <? Z.of_nat (length notes)).
  - apply (extends_writeCSV notesHeader noteRow).
  - apply extends_refl.
Qed.

Lemma fetchLoop_extends (client : Client) (workers : Z) (dataDir : list Z)
    (skip : bool) (projects : list Project) (fs fs' : filesystem) :
  fetchLoop client workers dataDir skip projects fs fs' → extends fs fs'.
Proof.
  induction 1 as [fs|project projects fs fs1 fs2 Hfetch _ IH].
  - apply extends_refl.
  - destruct Hfetch as [commits mrs notes _ _ _].
    eapply extends_trans; [apply extends_writeOutputs|].
    eapply extends_trans; [apply extends_markProjectFetched | exact IH].
Qed.

(** X7: Whatever the remote answers and however the workers are scheduled, a
    run of the fetch loop, and so a completed run of [main], only appends:
    every file that existed before is still there and starts with its old
    content, and a path that could not be opened is left alone. *)
Theorem run_only_appends (client : Client) (skipDiscussions : bool)
    (fs fs' : filesystem) :
  (∀ workers dataDir projects,
     fetchLoop client workers dataDir skipDiscussions projects fs fs' →
     extends fs fs') ∧
  (∀ Parse env urls,
     mainRuns Parse client env skipDiscussions urls fs (Completed fs') →
     extends fs fs').
Proof.
  split.
  - intros workers dataDir projects. apply fetchLoop_extends.
  - intros Parse env urls. unfold mainRuns.
    destruct (snd (mainSetup Parse client env urls fs)) as [plan|e];
      [|done].
    intros (fs1 & Hrun & [= ->]). by apply fetchLoop_extends in Hrun.
Qed.

(** ** The index after a run *)

Lemma entriesText_nil (entries : list (Z * list Z)) :
  entriesText entries = [] → entries = [].
Proof.
  destruct entries as [|[id path] entries]; [done|].
  unfold entriesText, indexEntry. cbn [flat_map fst snd]. intros H.
  apply app_eq_nil in H as [H _]. apply app_eq_nil in H as [_ H].
  discriminate H.
Qed.

Lemma entriesText_app (entries more : list (Z * list Z)) :
  entriesText (entries ++ more) = entriesText entries ++ entriesText more.
Proof. unfold entriesText. apply flat_map_app. Qed.

(** An index file that holds well-formed entries and nothing else reads
    back as these entries; the file may also be absent. *)
Lemma load_written_index (dataDir : list Z) (fs : filesystem)
    (entries : list (Z * list Z)) :
  Forall wellFormedEntry entries →
  OpenAppend fs (indexFile dataDir) = Some (entriesText entries) →
  loadFetchedProjects dataDir fs = insertEntries entries ∅.
Proof.
  intros Hwf Hopen. unfold OpenAppend in Hopen.
  destruct (fs !! indexFile dataDir) as [[data|]|] eqn:Hfile; [| done |].
  - injection Hopen as ->.
    apply (loadFetchedProjects_entries dataDir fs entries []);
      [done | done |]. unfold Open. by rewrite Hfile, app_nil_r.
  - injection Hopen as Hnil. symmetry in Hnil.
    apply entriesText_nil in Hnil as ->.
    unfold loadFetchedProjects, Open. by rewrite Hfile.
Qed.

Lemma insertEntries_lookup_inv (entries : list (Z * list Z)) (id : Z)
    (b : bool) :
  insertEntries entries ∅ !! id = Some b → id ∈ entries.*1.
Proof.
  intros H. apply elem_of_dom_2 in H.
  rewrite dom_insertEntries, dom_empty_L, (right_id_L ∅ (∪)) in H.
  by apply elem_of_list_to_set in H.
Qed.

(** The index entry that [main] writes for a project. *)
Definition entryOf (project : Project) : Z * list Z :=
  (p_ID project, p_PathWithNamespace project).

Definition wellFormedProject (project : Project) : Prop :=
  wellFormedEntry (entryOf project).

Lemma entriesOf_entriesText (projects : list Project) :
  entriesOf projects = entriesText (entryOf <$> projects).
Proof.
  unfold entriesOf, entriesText. induction projects as [|p ps IH]; [done|].
  cbn [fmap list_fmap flat_map]. by rewrite IH.
Qed.

Lemma projectsToFetch_nil (fetched : gmap Z bool) (projects : list Project) :
  Forall (λ p, fetched !! p_ID p = Some true) projects →
  projectsToFetch fetched projects = [].
Proof.
  unfold projectsToFetch. induction 1 as [|p ps Hp Hps IH]; [done|].
  rewrite filter_cons_False; [done|]. unfold isFetched. by rewrite Hp.
Qed.

(** What the index reads as after the fetch loop ran over [projects]. *)
Lemma fetchLoop_load (client : Client) (workers : Z) (dataDir : list Z)
    (skip : bool) (projects : list Project) (fs fs' : filesystem)
    (entries : list (Z * list Z)) :
  Forall wellFormedEntry entries →
  Forall wellFormedProject projects →
  OpenAppend fs (indexFile dataDir) = Some (entriesText entries) →
  fetchLoop client workers dataDir skip projects fs fs' →
  loadFetchedProjects dataDir fs'
    = insertEntries (entries ++ (entryOf <$> projects)) ∅.
Proof.
  intros Hwf Hps Hopen Hloop. apply load_written_index.
  - apply Forall_app. split; [done|]. by apply Forall_fmap.
  - rewrite entriesText_app, <- entriesOf_entriesText.
    by apply (fetchLoop_index client workers dataDir skip projects fs).
Qed.

(** X8: After the fetch loop has run over a list of projects, the index reads
    back as exactly the identifiers it held before and those of the list,
    no more and no fewer, and none of these projects is left to fetch;
    the identifiers fit 64 bits and the paths are words. *)
Theorem index_after_run (client : Client) (workers : Z) (dataDir : list Z)
    (skip : bool) (projects : list Project) (fs fs' : filesystem)
    (entries : list (Z * list Z)) :
  Forall wellFormedEntry entries →
  Forall wellFormedProject projects →
  OpenAppend fs (indexFile dataDir) = Some (entriesText entries) →
  fetchLoop client workers dataDir skip projects fs fs' →
  dom (loadFetchedProjects dataDir fs')
    = list_to_set (entries.*1 ++ (p_ID <$> projects)) ∧
  projectsToFetch (loadFetchedProjects dataDir fs') projects = [].
Proof.
  intros Hwf Hps Hopen Hloop.
  rewrite (fetchLoop_load client workers dataDir skip projects fs fs' entries)
    by done.
  split.
  - rewrite dom_insertEntries, dom_empty_L, (right_id_L ∅ (∪)).
    by rewrite fmap_app, <- list_fmap_compose.
  - apply projectsToFetch_nil, Forall_forall. intros p Hp.
    apply lookup_insertEntries. left. rewrite fmap_app.
    apply elem_of_app. right. rewrite <- list_fmap_compose.
    apply list_elem_of_fmap. by exists p.
Qed.

Lemma wellFormed_projectSeven : wellFormedProject projectSeven.
Proof.
  split; [vm_compute; split; discriminate|]. split; [discriminate|].
  let l := eval vm_compute in (snd (entryOf projectSeven)) in
  change (snd (entryOf projectSeven)) with l.
  repeat (apply Forall_cons_2; [reflexivity|]). apply Forall_nil_2.
Defined.

Lemma fetch_projectSeven (skip : bool) (fs : filesystem) :
  fetchLoop oneProjectClient 1 (str "data") skip [projectSeven] fs
    (markProjectFetched (str "data") 7 (str "group/proj")
       (writeOutputs (str "data") [] [] [] fs)).
Proof.
  eapply fetchLoop_cons; [|apply fetchLoop_nil].
  apply fetchAll_done.
  - apply one_worker_empty_resource.
  - apply one_worker_empty_resource.
  - destruct skip; [done|]. apply one_worker_no_merge_requests.
Defined.

Lemma index_after_run_witness :
  dom (loadFetchedProjects (str "data")
         (markProjectFetched (str "data") 7 (str "group/proj")
            (writeOutputs (str "data") [] [] [] ∅)))
    = (list_to_set [7] : gset Z) ∧
  projectsToFetch
    (loadFetchedProjects (str "data")
       (markProjectFetched (str "data") 7 (str "group/proj")
          (writeOutputs (str "data") [] [] [] ∅)))
    [projectSeven] = [].
Proof.
  apply (index_after_run oneProjectClient 1 (str "data") false
           [projectSeven] ∅ _ []).
  - apply Forall_nil_2.
  - apply Forall_cons_2; [apply wellFormed_projectSeven | apply Forall_nil_2].
  - reflexivity.
  - apply fetch_projectSeven.
Defined.

(** ** A second run *)

(** X9: A run of [main] that completed has left an index with which the same
    command, on the same remote, finds no project left to fetch: every
    project the URLs resolve to was either in the index already or has been
    marked by the run. The index at the start holds well-formed entries (or
    is absent), and the projects have 64-bit identifiers and paths without
    white space. *)
Theorem second_run_fetches_nothing (Parse : list Z → option URL)
    (client : Client) (env : gmap (list Z) (list Z)) (skip : bool)
    (urls : list (list Z)) (fs fs' : filesystem)
    (entries : list (Z * list Z)) (calls : list (list Z))
    (allProjects : list Project) :
  Forall wellFormedEntry entries →
  OpenAppend fs (indexFile (Getenv env (str "DATA_FOLDER")))
    = Some (entriesText entries) →
  resolveURLs Parse client (Getenv env (str "GITLAB_URL")) urls []
    = (calls, Ok allProjects) →
  Forall wellFormedProject allProjects →
  mainRuns Parse client env skip urls fs (Completed fs') →
  ∃ plan, snd (mainSetup Parse client env urls fs') = Ok plan ∧
          planProjects plan = [].
Proof.
  intros Hwf Hopen Hres Hps Hrun. unfold mainRuns in Hrun.
  unfold mainSetup in *. cbv zeta in *.
  destruct (string_eqb (Getenv env (str "GITLAB_URL")) []
            || string_eqb (Getenv env (str "GITLAB_TOKEN")) []);
    [discriminate Hrun|].
  destruct (string_eqb (Getenv env (str "DATA_FOLDER")) []);
    [discriminate Hrun|].
  destruct urls as [|url urls]; [discriminate Hrun|].
  rewrite Hres in *. cbn [snd planWorkers planDataFolder planProjects] in *.
  destruct Hrun as (fs1 & Hloop & [= <-]).
  eexists. split; [reflexivity|]. cbn [planProjects].
  set (dataFolder := Getenv env (str "DATA_FOLDER")) in *.
  set (todo := projectsToFetch (loadFetchedProjects dataFolder fs)
                 allProjects) in *.
  assert (Forall wellFormedProject todo) as Htodo.
  { apply Forall_forall. intros p Hp.
    apply list_elem_of_filter in Hp as [_ Hp].
    by apply (proj1 (Forall_forall _ _) Hps). }
  rewrite (fetchLoop_load client (workersCount env) dataFolder skip todo
             fs fs' entries) by done.
  apply projectsToFetch_nil, Forall_forall. intros p Hp.
  apply lookup_insertEntries. left. rewrite fmap_app. apply elem_of_app.
  destruct (isFetched (loadFetchedProjects dataFolder fs) (p_ID p)) eqn:E.
  - left. unfold isFetched in E.
    rewrite (load_written_index dataFolder fs entries) in E by done.
    destruct (insertEntries entries ∅ !! p_ID p) as [b|] eqn:El; [|done].
    by apply insertEntries_lookup_inv in El.
  - right. rewrite <- list_fmap_compose. apply list_elem_of_fmap.
    exists p. split; [done|]. by apply list_elem_of_filter.
Qed.

Lemma second_run_fetches_nothing_witness :
  ∃ plan,
    snd (mainSetup ParsePlain oneProjectClient exampleEnv
           [str "https://gitlab.example/group/proj"]
           (markProjectFetched (str "data") 7 (str "group/proj")
              (writeOutputs (str "data") [] [] [] ∅))) = Ok plan ∧
    planProjects plan = [].
Proof.
  apply (second_run_fetches_nothing ParsePlain oneProjectClient exampleEnv
           true [str "https://gitlab.example/group/proj"] ∅ _ []
           [str "group/proj"] [projectSeven]).
  - apply Forall_nil_2.
  - reflexivity.
  - reflexivity.
  - apply Forall_cons_2; [apply wellFormed_projectSeven | apply Forall_nil_2].
  - unfold mainRuns.
    change (snd (mainSetup ParsePlain oneProjectClient exampleEnv
                   [str "https://gitlab.example/group/proj"] ∅))
      with (Ok (E := FatalError)
              {| planWorkers := 1; planDataFolder := str "data";
                 planProjects := [projectSeven] |}).
    eexists. split; [apply fetch_projectSeven | reflexivity].
Defined.

(** ** The worker count *)

Lemma fold_digits_nonneg (ds : list Z) :
  forallb is_digit ds = true →
  ∀ acc, 0 ≤ acc → 0 ≤ fold_left (λ a d, a * 10 + (d - 48)) ds acc.
Proof.
  induction ds as [|d ds IH]; intros Hds acc Hacc; simpl in *; [done|].
  apply andb_prop in Hds as [Hd Hds]. unfold is_digit in Hd.
  apply IH; [done | lia].
Qed.

Lemma digits_value_nonneg (ds : list Z) :
  forallb is_digit ds = true → 0 ≤ digits_value ds.
Proof. intros Hds. by apply fold_digits_nonneg. Qed.

(** Whatever the string, the value [strconv.ParseInt] returns fits 64
    bits: a value out of range is replaced by the nearest bound. *)
Lemma ParseInt_in_int64 (s : list Z) : in_int64 (fst (ParseInt s)).
Proof.
  assert (in_int64 0) as Hzero by (vm_compute; split; discriminate).
  assert (in_int64 MaxInt64) as Hmax by (vm_compute; split; discriminate).
  assert (in_int64 MinInt64) as Hmin by (vm_compute; split; discriminate).
  assert (∀ neg body,
            in_int64
              (fst (match body with
                    | [] => (0, Some ErrSyntax)
                    | _ :: _ =>
                        if forallb is_digit body then
                          let un := digits_value body in
                          if negb neg && (two63 <=? un)
                          then (MaxInt64, Some ErrRange)
                          else if neg && (two63 <? un)
                               then (MinInt64, Some ErrRange)
                               else (if neg then - un else un, None)
                        else (0, Some ErrSyntax)
                    end))) as Hbody.
  { intros neg [|c body]; [done|].
    destruct (forallb is_digit (c :: body)) eqn:Hd; [|done].
    pose proof (digits_value_nonneg _ Hd) as Hun. cbv zeta.
    generalize dependent (digits_value (c :: body)). intros un Hun.
    unfold in_int64, MinInt64, MaxInt64, two63 in *.
    destruct neg; simpl.
    - destruct (2 ^ 63 <? un) eqn:E; simpl; lia.
    - destruct (2 ^ 63 <=? un) eqn:E; simpl; lia. }
  unfold ParseInt. destruct s as [|c rest]; [exact (Hbody false [])|].
  destruct (c =? MINUS); [exact (Hbody true rest)|].
  destruct (c =? PLUS);
    [exact (Hbody false rest) | exact (Hbody false (c :: rest))].
Qed.

Lemma FormatInt_nonempty (i : Z) : FormatInt i ≠ [].
Proof.
  unfold FormatInt. destruct (i <? 0); [done|].
  destruct (digits_cons i) as (d & ds & -> & _). done.
Qed.

(** X10: The worker count of [main]: 1 when [GITLAB_WORKERS] is unset or empty,
    the number itself when the variable holds the decimal form of a 64-bit
    integer, negative ones included, and in every case a value that fits
    64 bits. *)
Theorem workersCount_value (env : gmap (list Z) (list Z)) :
  in_int64 (workersCount env) ∧
  (Getenv env (str "GITLAB_WORKERS") = [] → workersCount env = 1) ∧
  (∀ n, in_int64 n → Getenv env (str "GITLAB_WORKERS") = FormatInt n →
        workersCount env = n).
Proof.
  unfold workersCount. split; [|split].
  - destruct (Getenv env (str "GITLAB_WORKERS")) as [|c v].
    + vm_compute; split; discriminate.
    + apply ParseInt_in_int64.
  - by intros ->.
  - intros n Hn Hv. rewrite Hv.
    destruct (FormatInt n) as [|c v] eqn:Hf; [by apply FormatInt_nonempty in Hf|].
    rewrite <- Hf. unfold Atoi. by rewrite ParseInt_FormatInt.
Qed.

Lemma workersCount_value_witness :
  workersCount {[ str "GITLAB_WORKERS" := str "-8" ]} = -8.
Proof.
  refine (proj2 (proj2 (workersCount_value
                          {[ str "GITLAB_WORKERS" := str "-8" ]})) (-8) _ _).
  - vm_compute. split; discriminate.
  - unfold Getenv. rewrite lookup_singleton_eq. reflexivity.
Defined.

(** ** A negative worker count *)

Lemma negative_workers_init (N : Z) :
  - 2 ^ 62 ≤ N < 0 →
  (∀ A, @Pager.init A N = None) ∧ Discussions.init N = None.
Proof.
  intros HN. unfold Pager.init, Discussions.init, makechan.
  rewrite wrap64_small by lia.
  destruct (N * 2 <? 0) eqn:E; [done | lia].
Qed.

(** No fetch with [N] workers returns, [fetchAll] does not complete, and
    the loop of [main] only completes over no project at all, leaving the
    files as they are. *)
Definition fetchPanics (N : Z) : Prop :=
  (∀ A (fetchPage : Z → list A) result,
     ¬ Pager.returns fetchPage N result) ∧
  (∀ listDiscussions mrIIDs result,
     ¬ Discussions.returns listDiscussions mrIIDs N result) ∧
  (∀ client projectID dataDir skip fs fs',
     ¬ fetchAll client projectID N dataDir skip fs fs') ∧
  (∀ client dataDir skip projects fs fs',
     fetchLoop client N dataDir skip projects fs fs' →
     projects = [] ∧ fs' = fs).

(** X11: With a negative worker count (down to [-2^62], so that its double does
    not wrap) the channel cannot be made: no fetch phase returns, [fetchAll]
    does not complete, and the loop of [main] only completes when there is
    no project to fetch, leaving the files as they are. *)
Theorem negative_worker_count_panics (N : Z) :
  - 2 ^ 62 ≤ N < 0 → fetchPanics N.
Proof.
  intros HN. destruct (negative_workers_init N HN) as [Hpager Hdisc].
  assert (∀ A (fetchPage : Z → list A) result,
            ¬ Pager.returns fetchPage N result) as Hnever.
  { intros A fetchPage result (s0 & s & Hinit & _).
    by rewrite Hpager in Hinit. }
  split; [done|]. split; [|split].
  - intros listDiscussions mrIIDs result (s0 & s & Hinit & _).
    by rewrite Hdisc in Hinit.
  - intros client projectID dataDir skip fs fs' [commits mrs notes Hc _ _].
    by apply Hnever in Hc.
  - intros client dataDir skip projects fs fs' Hloop.
    destruct Hloop as [fs|project projects fs fs1 fs2 Hfetch _]; [done|].
    destruct Hfetch as [commits mrs notes Hc _ _]. by apply Hnever in Hc.
Qed.

Lemma negative_worker_count_panics_witness : fetchPanics (-1).
Proof. apply (negative_worker_count_panics (-1)). lia. Defined.

(** ** The paginated fetcher on any resource *)

(** The invariant below makes no assumption on the pages: it accounts for
    every requested page, by the place where its records are. *)
Module PagerPages.
Import Pager.
Section PagerPages.
Context {A : Type} (fetchPage : Z → list A).
Variable N : Z.

(** The page whose records a worker is about to send. *)
Definition sending (w : @pc A) : list Z :=
  match w with AtSend p _ => [p] | _ => [] end.

(** What a worker knows: the records it carries are those of its page, the
    page that made it set the flag was empty. *)
Definition knows (s : @state A) (w : @pc A) : Prop :=
  match w with
  | AtSend p records => records = fetchPage p
  | AtStore p => p ∈ requested s ∧ fetchPage p = []
  | Exited => stop s = 1
  | _ => True
  end.

(** [collected] lists the pages whose records the collector has appended,
    in the order of [allRecords], and [inflight] the pages in the channel. *)
Record Pages (s : @state A) (collected inflight : list Z) : Prop := {
  pages_records : allRecords s = flat_map fetchPage collected;
  pages_results : results s = fetchPage <$> inflight;
  pages_requested :
    collected ++ inflight ++ flat_map sending (workers s) ≡ₚ requested s;
  pages_workers : Forall (knows s) (workers s);
  pages_stop : stop s = 1 → ∃ p, p ∈ requested s ∧ fetchPage p = [];
  pages_len : length (workers s) = Z.to_nat N;
  pages_capacity : capacity s = Z.to_nat (wrap64 (N * 2));
  pages_closed : closed s = true → Forall (λ w, w = Exited) (workers s);
  pages_returned : returned s = true → closed s = true ∧ results s = []
}.

Definition Whole (s : @state A) : Prop :=
  ∃ collected inflight, Pages s collected inflight.

Lemma Whole_init (s0 : @state A) : init N = Some s0 → Whole s0.
Proof.
  unfold init.
  destruct (makechan sliceSize (wrap64 (N * 2))) as [cap|] eqn:Hmake;
    [|done].
  apply makechan_Some in Hmake as [_ ->]. intros [= <-].
  exists [], []. split; simpl; try done.
  - induction (Z.to_nat N) as [|n IH]; [done|]. simpl. exact IH.
  - apply Forall_replicate. exact I.
  - apply length_replicate.
Qed.

Lemma sending_insert (ws : list (@pc A)) (i : nat) (w w' : @pc A) :
  ws !! i = Some w →
  flat_map sending (<[i:=w']> ws) ++ sending w
    ≡ₚ flat_map sending ws ++ sending w'.
Proof. apply flat_map_insert. Qed.

Lemma Pages_running (s : @state A) (collected inflight : list Z) (i : nat)
    (w : @pc A) :
  Pages s collected inflight → workers s !! i = Some w → w ≠ Exited →
  closed s = false ∧ returned s = false.
Proof.
  intros HP Hw Hne.
  assert (closed s = false) as Hc.
  { destruct (closed s) eqn:E; [|done].
    pose proof (pages_closed s _ _ HP E) as Hall.
    rewrite Forall_lookup in Hall. by specialize (Hall i w Hw). }
  split; [done|]. destruct (returned s) eqn:E; [|done].
  destruct (pages_returned s _ _ HP E). congruence.
Qed.

Lemma workerStep_Whole (i : nat) (s s' : @state A) :
  Whole s → workerStep fetchPage i s = Some s' → Whole s'.
Proof.
  intros (collected & inflight & HP) Hstep. unfold workerStep in Hstep.
  destruct (workers s !! i) as [w|] eqn:Hw; [|done].
  pose proof (pages_workers s _ _ HP) as Hknows.
  pose proof (proj1 (Forall_lookup _ _) Hknows i w Hw) as Hknow.
  destruct w as [| |page|page|page records|]; [| | | | |done].
  - (* the load of the flag *)
    destruct (Pages_running s _ _ i _ HP Hw ltac:(done)) as [Hc Hr].
    pose proof (sending_insert _ i _ Exited Hw) as Hs1.
    pose proof (sending_insert _ i _ AtClaim Hw) as Hs2.
    simpl in Hs1, Hs2. rewrite !app_nil_r in Hs1, Hs2.
    destruct (stop s =? 1) eqn:Hstop; injection Hstep as <-;
      exists collected, inflight; destruct HP; split; simpl;
      try done; try congruence.
    + by rewrite Hs1.
    + apply Forall_insert; [done|]. simpl. lia.
    + by rewrite length_insert.
    + by rewrite Hs2.
    + by apply Forall_insert.
    + by rewrite length_insert.
  - (* the claim of a page *)
    destruct (Pages_running s _ _ i _ HP Hw ltac:(done)) as [Hc Hr].
    injection Hstep as <-.
    pose proof (sending_insert _ i _
                  (AtFetch (wrap64 (wrap64 (nextPage s + 1) - 1))) Hw) as Hs.
    simpl in Hs. rewrite !app_nil_r in Hs.
    exists collected, inflight. destruct HP. split; simpl;
      try done; try congruence.
    + by rewrite Hs.
    + by apply Forall_insert.
    + by rewrite length_insert.
  - (* the request *)
    destruct (Pages_running s _ _ i _ HP Hw ltac:(done)) as [Hc Hr].
    assert (Forall (knows
              {| nextPage := nextPage s; stop := stop s;
                 capacity := capacity s; results := results s;
                 closed := closed s; workers := workers s;
                 allRecords := allRecords s; returned := returned s;
                 requested := page :: requested s;
                 signals := signals s |}) (workers s)) as Hknows'.
    { eapply Forall_impl; [exact Hknows|].
      intros [| |p|p|p r|]; simpl; try done.
      intros [Hin He]. split; [by apply elem_of_cons; right | done]. }
    destruct (Z.of_nat (length (fetchPage page)) =? 0) eqn:Hempty;
      injection Hstep as <-.
    + assert (fetchPage page = []) as Hnil
        by (apply nil_length_inv; lia).
      pose proof (sending_insert _ i _ (AtStore page) Hw) as Hs.
      simpl in Hs. rewrite !app_nil_r in Hs.
      exists (page :: collected), inflight. destruct HP. split; simpl;
        try done; try congruence.
      * by rewrite Hnil.
      * rewrite Hs. by constructor.
      * apply Forall_insert; [exact Hknows'|]. simpl.
        split; [by apply elem_of_cons; left | done].
      * intros _. exists page. split; [by apply elem_of_cons; left | done].
      * by rewrite length_insert.
    + pose proof (sending_insert _ i _ (AtSend page (fetchPage page)) Hw)
        as Hs.
      simpl in Hs. rewrite !app_nil_r in Hs.
      exists collected, inflight. destruct HP. split; simpl;
        try done; try congruence.
      * rewrite Hs, <- pages_requested0. solve_Permutation.
      * apply Forall_insert; [exact Hknows'|]. done.
      * intros Hst. destruct (pages_stop0 Hst) as (p & Hp & He).
        exists p. split; [by apply elem_of_cons; right | done].
      * by rewrite length_insert.
  - (* the store of the flag *)
    destruct (Pages_running s _ _ i _ HP Hw ltac:(done)) as [Hc Hr].
    injection Hstep as <-.
    pose proof (sending_insert _ i _ Exited Hw) as Hs.
    simpl in Hs. rewrite !app_nil_r in Hs.
    exists collected, inflight. destruct HP. split; simpl;
      try done; try congruence.
    + by rewrite Hs.
    + apply Forall_insert; [|done].
      eapply Forall_impl; [exact Hknows|].
      intros [| |p|p|p r|]; simpl; done.
    + intros _. by exists page.
    + by rewrite length_insert.
  - (* the send *)
    destruct (Pages_running s _ _ i _ HP Hw ltac:(done)) as [Hc Hr].
    destruct (decide _); [|done]. injection Hstep as <-.
    pose proof (sending_insert _ i _ AtLoad Hw) as Hs. simpl in Hs.
    rewrite app_nil_r in Hs. simpl in Hknow.
    exists collected, (inflight ++ [page]). destruct HP. split; simpl;
      try done; try congruence.
    + rewrite fmap_app. simpl. by rewrite pages_results0, Hknow.
    + rewrite <- pages_requested0, <- Hs. solve_Permutation.
    + apply Forall_insert; [|done].
      eapply Forall_impl; [exact Hknows|].
      intros [| |p|p|p r|]; simpl; done.
    + by rewrite length_insert.
Qed.

Lemma closerStep_Whole (s s' : @state A) :
  Whole s → closerStep s = Some s' → Whole s'.
Proof.
  intros (collected & inflight & HP) Hstep. unfold closerStep in Hstep.
  destruct (closed s) eqn:Hc; [done|].
  destruct (forallb isExited (workers s)) eqn:Hall; [|done].
  injection Hstep as <-. exists collected, inflight.
  destruct HP. split; simpl; try done.
  - intros _. apply Forall_forall. intros w Hin.
    rewrite forallb_forall in Hall. apply list_elem_of_In in Hin.
    specialize (Hall w Hin). by destruct w.
  - intros Hr. destruct (pages_returned0 Hr). congruence.
Qed.

Lemma collectorStep_Whole (s s' : @state A) :
  Whole s → collectorStep s = Some s' → Whole s'.
Proof.
  intros (collected & inflight & HP) Hstep. unfold collectorStep in Hstep.
  destruct (returned s) eqn:Hr; [done|].
  destruct (results s) as [|records rest] eqn:Hres.
  - destruct (closed s) eqn:Hc; [|done]. injection Hstep as <-.
    exists collected, inflight. destruct HP. split; simpl; try done.
    + by rewrite <- pages_results0, Hres.
    + intros _. by apply pages_closed0.
  - injection Hstep as <-.
    destruct HP. rewrite Hres in pages_results0.
    destruct inflight as [|page inflight]; [done|].
    injection pages_results0 as -> ->.
    exists (collected ++ [page]), inflight. split; simpl;
      try done; try congruence.
    + rewrite flat_map_app. simpl. by rewrite app_nil_r, pages_records0.
    + rewrite <- pages_requested0. solve_Permutation.
Qed.

Lemma Step_Whole (s s' : @state A) :
  Whole s → Step fetchPage s s' → Whole s'.
Proof.
  intros HW [[i| |] Hstep]; simpl in Hstep.
  - by apply (workerStep_Whole i s).
  - by apply (closerStep_Whole s).
  - by apply (collectorStep_Whole s).
Qed.

Lemma reachable_Whole (s s' : @state A) :
  Whole s → rtc (Step fetchPage) s s' → Whole s'.
Proof.
  intros HW Hsteps. induction Hsteps as [|s s1 s2 Hstep _ IH]; [done|].
  apply IH. by apply (Step_Whole s).
Qed.

Lemma all_exited_sending (ws : list (@pc A)) :
  Forall (λ w, w = Exited) ws → flat_map sending ws = [].
Proof. induction 1 as [|w ws -> _ IH]; [done|]. simpl. exact IH. Qed.

End PagerPages.
End PagerPages.

(** A resource of two pages, [10; 11] and [20], and an execution of two
    workers in which page 2 reaches the channel before page 1. *)
Definition twoPages (page : Z) : list Z :=
  if page =? 1 then [10; 11] else if page =? 2 then [20] else [].

Definition twoPagesStart : @Pager.state Z :=
  {| Pager.nextPage := 1; Pager.stop := 0; Pager.capacity := 4;
     Pager.results := []; Pager.closed := false;
     Pager.workers := [Pager.AtLoad; Pager.AtLoad];
     Pager.allRecords := []; Pager.returned := false;
     Pager.requested := []; Pager.signals := [] |}.

Definition twoPagesSchedule : list thread :=
  [Worker 0; Worker 0; Worker 1; Worker 1; Worker 1; Worker 1; Worker 0;
   Worker 0; Worker 0; Worker 0; Worker 0; Worker 0; Worker 1; Closer;
   Collector; Collector; Collector].

Definition twoPagesEnd : @Pager.state Z :=
  Eval vm_compute in
    default twoPagesStart (Pager.run twoPages twoPagesSchedule twoPagesStart).

(** X12: Whatever the pages hold and however many workers run, what the
    collector has appended at any moment is the concatenation of whole
    pages that were requested, each at most as often as it was requested,
    and when the function returns it is the concatenation of all requested
    pages, in some order of the pages: the records of a page stay together
    and in their order, no requested page is lost and none is doubled. *)
Theorem fetch_keeps_pages_whole {A} (fetchPage : Z → list A) (N : Z)
    (s0 s : @Pager.state A) :
  Pager.init N = Some s0 → rtc (Pager.Step fetchPage) s0 s →
  ∃ collected,
    collected ⊆+ Pager.requested s ∧
    Pager.allRecords s = flat_map fetchPage collected ∧
    (Pager.returned s = true → collected ≡ₚ Pager.requested s).
Proof.
  intros Hinit Hreach.
  destruct (PagerPages.reachable_Whole fetchPage N s0 s
              (PagerPages.Whole_init fetchPage N s0 Hinit) Hreach)
    as (collected & inflight & HP).
  destruct HP. exists collected. split; [|split; [done|]].
  - rewrite <- pages_requested. by apply submseteq_inserts_r.
  - intros Hr. destruct (pages_returned Hr) as [Hc Hres].
    rewrite Hres in pages_results. symmetry in pages_results.
    apply fmap_nil_inv in pages_results. subst inflight.
    rewrite (PagerPages.all_exited_sending _ (pages_closed Hc))
      in pages_requested.
    by rewrite !app_nil_r in pages_requested.
Qed.

Lemma fetch_keeps_pages_whole_witness :
  ∃ collected,
    collected ⊆+ Pager.requested twoPagesEnd ∧
    Pager.allRecords twoPagesEnd = flat_map twoPages collected ∧
    (Pager.returned twoPagesEnd = true →
     collected ≡ₚ Pager.requested twoPagesEnd).
Proof.
  apply (fetch_keeps_pages_whole twoPages 2 twoPagesStart twoPagesEnd).
  - reflexivity.
  - apply (run_rtc twoPages twoPagesSchedule). reflexivity.
Defined.

(** With at least one worker the function returns only after some
    requested page came back empty (a failed request counts as such); on
    a resource without an empty page it never returns. *)
Definition endsAfterEmptyPage {A} (fetchPage : Z → list A) (N : Z) : Prop :=
  (∀ s0 s, Pager.init N = Some s0 → rtc (Pager.Step fetchPage) s0 s →
     Pager.returned s = true →
     Pager.stop s = 1 ∧
     ∃ page, page ∈ Pager.requested s ∧ fetchPage page = []) ∧
  ((∀ page, fetchPage page ≠ []) →
   ∀ result, ¬ Pager.returns fetchPage N result).

(** X13: The paginated fetcher stops on an empty page only: with one worker or
    more, it has returned only if the flag is set and one of the requested
    pages was empty, and it never returns when every page holds records. *)
Theorem fetch_ends_after_empty_page {A} (fetchPage : Z → list A) (N : Z) :
  1 ≤ N → endsAfterEmptyPage fetchPage N.
Proof.
  intros HN.
  assert (∀ s0 s, Pager.init N = Some s0 →
            rtc (Pager.Step fetchPage) s0 s → Pager.returned s = true →
            Pager.stop s = 1 ∧
            ∃ page, page ∈ Pager.requested s ∧ fetchPage page = [])
    as Hend.
  { intros s0 s Hinit Hreach Hr.
    destruct (PagerPages.reachable_Whole fetchPage N s0 s
                (PagerPages.Whole_init fetchPage N s0 Hinit) Hreach)
      as (collected & inflight & HP).
    destruct HP. destruct (pages_returned Hr) as [Hc _].
    specialize (pages_closed Hc).
    assert (Pager.stop s = 1) as Hstop.
    { destruct (Pager.workers s) as [|w ws]; [simpl in pages_len; lia|].
      inversion pages_closed; subst. by inversion pages_workers; subst. }
    split; [done | by apply pages_stop]. }
  split; [exact Hend|].
  intros Hfull result (s0 & s & Hinit & Hreach & Hr & _).
  destruct (Hend s0 s Hinit Hreach Hr) as (_ & page & _ & Hnil).
  by apply Hfull in Hnil.
Qed.

Lemma fetch_ends_after_empty_page_witness : endsAfterEmptyPage twoPages 2.
Proof. apply fetch_ends_after_empty_page. lia. Defined.

(** ** A single worker *)

Lemma seqZ_snoc (k : Z) : 0 ≤ k → seqZ 1 (k + 1) = seqZ 1 k ++ [k + 1].
Proof.
  intros Hk. rewrite seqZ_app by lia. f_equal.
  rewrite seqZ_cons by lia. simpl. rewrite seqZ_nil by lia. f_equal. lia.
Qed.

(** Once the invariant of the fetcher holds, some execution leads to the
    return of the function. *)
Lemma pager_can_return {A} (fetchPage : Z → list A) (N P : Z)
    (s : @Pager.state A) :
  0 ≤ N < 2 ^ 62 → 0 ≤ P < 2 ^ 62 →
  (∀ p, 1 ≤ p ≤ P → fetchPage p ≠ []) →
  (∀ p, P < p ≤ P + N → fetchPage p = []) →
  PagerFacts.Inv fetchPage N P s →
  ∃ s', rtc (Pager.Step fetchPage) s s' ∧ Pager.returned s' = true.
Proof.
  intros HN HP0 Hfull Hempty0 HI.
  assert (0 ≤ P ≤ MaxInt64) as HP by (unfold MaxInt64, two63; lia).
  assert (∀ p, P < p ≤ P + N → fetchPage (wrap64 p) = []) as Hempty.
  { intros p Hp. rewrite wrap64_small by lia. by apply Hempty0. }
  pose proof (PagerFacts.Inv_terminates fetchPage N P HN HP Hfull Hempty s HI)
    as Hsn.
  induction Hsn as [s _ IH].
  destruct (Pager.returned s) eqn:Hr; [by exists s|].
  destruct (PagerFacts.Inv_progress fetchPage N P HN s HI Hr) as [s1 Hstep].
  destruct (PagerFacts.Step_Inv fetchPage N P HN HP Hfull Hempty s s1 HI Hstep)
    as [HI1 _].
  destruct (IH s1 Hstep HI1) as (s' & Hreach & Hr').
  exists s'. split; [by eapply rtc_l | done].
Qed.

Module PagerSingle.
Import Pager.
Section PagerSingle.
Context {A : Type} (fetchPage : Z → list A).

(** Page [P + 1] is the first empty page; the later pages hold anything. *)
Variable P : Z.
Hypothesis P_range : 0 ≤ P < 2 ^ 62.
Hypothesis pages_full : ∀ p, 1 ≤ p ≤ P → fetchPage p ≠ [].
Hypothesis page_empty : fetchPage (P + 1) = [].

(** Where the only worker is when the pages [1..k] have been sent. *)
Definition position (s : @state A) (k : Z) (w : @pc A) : Prop :=
  match w with
  | AtLoad | AtClaim =>
      nextPage s = k + 1 ∧ stop s = 0 ∧ requested s = reverse (seqZ 1 k)
  | AtFetch p =>
      p = k + 1 ∧ nextPage s = k + 2 ∧ stop s = 0 ∧
      requested s = reverse (seqZ 1 k)
  | AtSend p records =>
      p = k + 1 ∧ k < P ∧ records = fetchPage p ∧ nextPage s = k + 2 ∧
      stop s = 0 ∧ requested s = reverse (seqZ 1 (k + 1))
  | AtStore _ => k = P ∧ requested s = reverse (seqZ 1 (P + 1))
  | Exited => k = P ∧ requested s = reverse (seqZ 1 (P + 1))
  end.

Record One (s : @state A) (k : Z) (w : @pc A) : Prop := {
  one_worker : workers s = [w];
  one_sent : 0 ≤ k ≤ P;
  one_records :
    allRecords s ++ concat (results s) ++
      match w with AtSend _ records => records | _ => [] end
    = flat_map fetchPage
        (seqZ 1 (match w with AtSend _ _ => k + 1 | _ => k end));
  one_position : position s k w;
  one_closed : closed s = true → w = Exited;
  one_returned : returned s = true → closed s = true ∧ results s = []
}.

Definition Alone (s : @state A) : Prop := ∃ k w, One s k w.

Lemma Alone_init (s0 : @state A) : init 1 = Some s0 → Alone s0.
Proof.
  rewrite PagerFacts.init_state by (unfold maxWorkers; lia).
  intros [= <-]. exists 0, AtLoad. split; simpl; try done; lia.
Qed.

Lemma workerStep_Alone (i : nat) (s s' : @state A) :
  Alone s → workerStep fetchPage i s = Some s' → Alone s'.
Proof using P_range pages_full page_empty.
  intros (k & w & HO) Hstep. unfold workerStep in Hstep.
  pose proof (one_worker s k w HO) as Hws. rewrite Hws in Hstep.
  destruct i as [|i]; [|done]. simpl in Hstep.
  pose proof (one_position s k w HO) as Hpos.
  pose proof (one_sent s k w HO) as Hk.
  pose proof (one_records s k w HO) as Hrec.
  assert (closed s = false ∨ w = Exited) as Hc.
  { destruct (closed s) eqn:E; [right; by apply (one_closed s k w HO) | by left]. }
  assert (returned s = false ∨ w = Exited) as Hr.
  { destruct (returned s) eqn:E; [|by left]. right.
    destruct (one_returned s k w HO E) as [Hcl _].
    by apply (one_closed s k w HO). }
  unfold setWorker in Hstep. rewrite Hws in Hstep. simpl in Hstep.
  destruct w as [| |page|page|page records|]; [| | | | |done];
    destruct Hc as [Hc|?]; try done; destruct Hr as [Hr|?]; try done;
    simpl in Hpos.
  - (* the load of the flag *)
    destruct Hpos as (Hnext & Hstop & Hreq). rewrite Hstop in Hstep.
    simpl in Hstep. injection Hstep as <-.
    exists k, AtClaim. split; simpl; try done; congruence.
  - (* the claim of a page *)
    destruct Hpos as (Hnext & Hstop & Hreq).
    rewrite Hnext in Hstep.
    rewrite (wrap64_small (k + 1 + 1)) in Hstep by lia.
    rewrite (wrap64_small (k + 1 + 1 - 1)) in Hstep by lia.
    injection Hstep as <-.
    exists k, (AtFetch (k + 1 + 1 - 1)). split; simpl; try done;
      try congruence.
    repeat split; try done; lia.
  - (* the request *)
    destruct Hpos as (-> & Hnext & Hstop & Hreq).
    destruct (Z.of_nat (length (fetchPage (k + 1))) =? 0) eqn:Hempty;
      injection Hstep as <-.
    + assert (fetchPage (k + 1) = []) as Hnil
        by (apply nil_length_inv; lia).
      assert (k = P) as ->.
      { destruct (decide (k = P)) as [|Hne]; [done|].
        destruct (pages_full (k + 1)); [lia | done]. }
      exists P, (AtStore (P + 1)). split; simpl; try done; try congruence.
      split; [done|]. by rewrite Hreq, seqZ_snoc, reverse_snoc by lia.
    + assert (k < P) as Hlt.
      { destruct (decide (k = P)) as [->|Hne]; [|lia].
        rewrite page_empty in Hempty. done. }
      exists k, (AtSend (k + 1) (fetchPage (k + 1))).
      split; simpl; try done; try congruence.
      * simpl in Hrec. rewrite app_nil_r in Hrec.
        rewrite seqZ_snoc, flat_map_app by lia. simpl.
        by rewrite app_nil_r, <- Hrec, <- app_assoc.
      * repeat split; try done.
        by rewrite Hreq, seqZ_snoc, reverse_snoc by lia.
  - (* the store of the flag *)
    destruct Hpos as (-> & Hreq). injection Hstep as <-.
    exists P, Exited. split; simpl; try done; congruence.
  - (* the send *)
    destruct Hpos as (-> & Hlt & -> & Hnext & Hstop & Hreq).
    destruct (decide _); [|done]. injection Hstep as <-.
    exists (k + 1), AtLoad. split; simpl; try done; try congruence.
    + lia.
    + rewrite concat_app. simpl. rewrite !app_nil_r. exact Hrec.
    + repeat split; try done. lia.
Qed.

Lemma closerStep_Alone (s s' : @state A) :
  Alone s → closerStep s = Some s' → Alone s'.
Proof.
  intros (k & w & HO) Hstep. unfold closerStep in Hstep.
  destruct (closed s) eqn:Hc; [done|].
  destruct (forallb isExited (workers s)) eqn:Hall; [|done].
  injection Hstep as <-. exists k, w.
  rewrite (one_worker s k w HO) in Hall. simpl in Hall.
  destruct HO. split; simpl; try done.
  - intros _. by destruct w.
  - intros Hr. destruct (one_returned0 Hr). congruence.
Qed.

Lemma collectorStep_Alone (s s' : @state A) :
  Alone s → collectorStep s = Some s' → Alone s'.
Proof.
  intros (k & w & HO) Hstep. unfold collectorStep in Hstep.
  destruct (returned s) eqn:Hr; [done|].
  destruct (results s) as [|records rest] eqn:Hres.
  - destruct (closed s) eqn:Hc; [|done]. injection Hstep as <-.
    exists k, w. destruct HO. split; simpl; try done.
    + by rewrite Hres in one_records0.
    + intros _. by apply one_closed0.
  - injection Hstep as <-. exists k, w. destruct HO.
    split; simpl; try done; try congruence.
    + rewrite Hres in one_records0. simpl in one_records0.
      by rewrite <- one_records0, <- !app_assoc.
Qed.

Lemma reachable_Alone (s s' : @state A) :
  Alone s → rtc (Step fetchPage) s s' → Alone s'.
Proof using P_range pages_full page_empty.
  intros HA Hsteps. induction Hsteps as [|s s1 s2 [t Hstep] _ IH]; [done|].
  apply IH. destruct t as [i| |]; simpl in Hstep.
  - by apply (workerStep_Alone i s).
  - by apply (closerStep_Alone s).
  - by apply (collectorStep_Alone s).
Qed.

Lemma Alone_returned (s : @state A) :
  Alone s → returned s = true →
  allRecords s = flat_map fetchPage (seqZ 1 P) ∧
  requested s = reverse (seqZ 1 (P + 1)).
Proof.
  intros (k & w & HO) Hr. destruct HO.
  destruct (one_returned0 Hr) as [Hc Hres].
  rewrite (one_closed0 Hc) in *. simpl in *.
  destruct one_position0 as [-> Hreq].
  rewrite Hres in one_records0. simpl in one_records0.
  by rewrite app_nil_r in one_records0.
Qed.

End PagerSingle.
End PagerSingle.

(** The single worker requests the pages [1..P+1] in ascending order and the
    function returns the records of the pages [1..P] in page order; such a
    return exists. *)
Definition inPageOrder {A} (fetchPage : Z → list A) (P : Z) : Prop :=
  Pager.returns fetchPage 1 (flat_map fetchPage (seqZ 1 P)) ∧
  ∀ s0 s, Pager.init 1 = Some s0 → rtc (Pager.Step fetchPage) s0 s →
    Pager.returned s = true →
    Pager.allRecords s = flat_map fetchPage (seqZ 1 P) ∧
    Pager.requested s = reverse (seqZ 1 (P + 1)).

Lemma one_worker_returned {A} (fetchPage : Z → list A) (P : Z)
    (s0 s : @Pager.state A) :
  0 ≤ P < 2 ^ 62 → firstEmptyPage fetchPage P →
  Pager.init 1 = Some s0 → rtc (Pager.Step fetchPage) s0 s →
  Pager.returned s = true →
  Pager.allRecords s = flat_map fetchPage (seqZ 1 P) ∧
  Pager.requested s = reverse (seqZ 1 (P + 1)).
Proof.
  intros HP (_ & Hfull & Hempty) Hinit Hreach Hr.
  apply (PagerSingle.Alone_returned fetchPage P); [|done].
  apply (PagerSingle.reachable_Alone fetchPage P HP Hfull Hempty s0);
    [|done].
  by apply PagerSingle.Alone_init.
Qed.

Lemma one_worker_returns {A} (fetchPage : Z → list A) (P : Z) :
  0 ≤ P < 2 ^ 62 → firstEmptyPage fetchPage P →
  Pager.returns fetchPage 1 (flat_map fetchPage (seqZ 1 P)).
Proof.
  intros HP Hfirst. pose proof Hfirst as (_ & Hfull & Hempty).
  assert (0 ≤ 1 < 2 ^ 62) as HN by lia.
  assert (∀ p, P < p ≤ P + 1 → fetchPage p = []) as Hempty'.
  { intros p Hp. by replace p with (P + 1) by lia. }
  assert (0 ≤ P ≤ MaxInt64) as HP' by (unfold MaxInt64, two63; lia).
  pose proof (PagerFacts.init_state (A := A) 1 HN
                ltac:(unfold maxWorkers; lia)) as Hinit.
  pose proof (PagerFacts.Inv_init fetchPage 1 P HN HP' _ Hinit) as HI.
  destruct (pager_can_return fetchPage 1 P _ HN HP Hfull Hempty' HI)
    as (s & Hreach & Hr).
  destruct (one_worker_returned fetchPage P _ s HP Hfirst Hinit Hreach Hr)
    as [Hall _].
  eexists _, s. by repeat split.
Qed.

(** X14: With a single worker the fetcher is sequential: when page [P + 1] is
    the first empty page, the pages are requested in ascending order, the
    last request is that of page [P + 1], and the result lists the records
    of the pages [1..P] in page order, whatever the pages after [P + 1]
    hold. *)
Theorem single_worker_page_order {A} (fetchPage : Z → list A) (P : Z) :
  0 ≤ P < 2 ^ 62 → firstEmptyPage fetchPage P → inPageOrder fetchPage P.
Proof.
  intros HP Hfirst. split.
  - by apply one_worker_returns.
  - intros s0 s Hinit Hreach Hr.
    by apply (one_worker_returned fetchPage P s0 s).
Qed.

Lemma single_worker_page_order_witness : inPageOrder twoPages 2.
Proof.
  apply single_worker_page_order; [lia|].
  split; [lia|]. split; [|reflexivity].
  intros p Hp. unfold twoPages.
  destruct (p =? 1) eqn:E1; [done|]. destruct (p =? 2) eqn:E2; [done | lia].
Defined.

(** ** A request that fails *)

(** [fetchCommitPage] and [fetchMRPage]; [ListCommits] and
    [ListProjectMergeRequests] are the requests for the project and the
    date at hand, by page number, [None] when the request fails. *)
Definition fetchCommitPage (ListCommits : Z → option (list Commit))
    (page : Z) : list Commit :=
  match ListCommits page with
  | None => []
  | Some glCommits => glCommits
  end.

Definition fetchMRPage
    (ListProjectMergeRequests : Z → option (list BasicMergeRequest))
    (page : Z) : list BasicMergeRequest :=
  match ListProjectMergeRequests page with
  | None => []
  | Some mrs => mrs
  end.

(** The requests for the pages before [q] succeed with records, the one
    for page [q] fails. *)
Definition failsAt {A} (request : Z → option (list A)) (q : Z) : Prop :=
  (∀ p, 1 ≤ p < q → ∃ records, request p = Some records ∧ records ≠ []) ∧
  request q = None.

(** X15: A failed page request is taken for the end of the resource: with a
    single worker, when the request for page [q] fails, [fetchCommits] and
    [fetchMRs] return the records of the pages before [q], request no page
    after [q] and report nothing to their caller, although later pages may
    hold records. *)
Theorem failed_request_ends_fetch
    (ListCommits : Z → option (list Commit))
    (ListProjectMergeRequests : Z → option (list BasicMergeRequest))
    (q : Z) :
  1 ≤ q < 2 ^ 62 →
  failsAt ListCommits q → failsAt ListProjectMergeRequests q →
  inPageOrder (fetchCommitPage ListCommits) (q - 1) ∧
  inPageOrder (fetchMRPage ListProjectMergeRequests) (q - 1).
Proof.
  intros Hq Hcommits Hmrs.
  assert (∀ A (request : Z → option (list A)) (page : Z → list A),
            (∀ p, page p = match request p with
                           | None => []
                           | Some records => records
                           end) →
            failsAt request q → firstEmptyPage page (q - 1)) as Hfirst.
  { intros A request page Hpage [Hgood Hfail]. split; [lia|]. split.
    - intros p Hp. rewrite Hpage.
      destruct (Hgood p) as (records & -> & Hne); [lia | done].
    - replace (q - 1 + 1) with q by lia. by rewrite Hpage, Hfail. }
  assert (firstEmptyPage (fetchCommitPage ListCommits) (q - 1)) as Hc
    by (by apply (Hfirst _ ListCommits)).
  assert (firstEmptyPage (fetchMRPage ListProjectMergeRequests) (q - 1))
    as Hm by (by apply (Hfirst _ ListProjectMergeRequests)).
  split.
  - split; [apply one_worker_returns; [lia | done]|].
    intros s0 s Hinit Hreach Hr.
    apply (one_worker_returned _ (q - 1) s0 s); [lia | done..].
  - split; [apply one_worker_returns; [lia | done]|].
    intros s0 s Hinit Hreach Hr.
    apply (one_worker_returned _ (q - 1) s0 s); [lia | done..].
Qed.

Definition exampleMR (title : list Z) : BasicMergeRequest :=
  {| m_ProjectID := 7; m_ID := 501; m_IID := 3; m_Title := title;
     m_State := str "merged";
     m_Author := {| Username := str "ann"; Name := str "Ann" |};
     m_CreatedAt := None; m_MergedAt := None;
     m_SourceBranch := str "topic"; m_TargetBranch := str "main";
     m_SHA := str "0a1b"; m_MergeCommitSHA := []; m_SquashCommitSHA := [] |}.

(** Page 1 holds a record, the request for page 2 fails, page 3 would hold
    a record again. *)
Definition failsOnPageTwo {A} (record : A) (page : Z) : option (list A) :=
  if page =? 2 then None else Some [record].

Lemma failed_request_ends_fetch_witness :
  inPageOrder
    (fetchCommitPage
       (failsOnPageTwo (exampleCommit (str "Ann") (str "fix")))) (2 - 1) ∧
  inPageOrder (fetchMRPage (failsOnPageTwo (exampleMR (str "topic")))) (2 - 1).
Proof.
  apply failed_request_ends_fetch; [lia | |].
  - split; [|reflexivity]. intros p Hp. eexists. unfold failsOnPageTwo.
    destruct (p =? 2) eqn:E; [lia|]. by split.
  - split; [|reflexivity]. intros p Hp. eexists. unfold failsOnPageTwo.
    destruct (p =? 2) eqn:E; [lia|]. by split.
Defined.

(** ** The notes of all merge requests *)


(** Once the invariant of the discussion fetcher holds, some execution
    leads to the return of the function. *)
Lemma discussions_can_return
    (listDiscussions : Z → option (list Discussion)) (mrIIDs : list Z)
    (N : Z) (s : Discussions.state) :
  0 ≤ N < 2 ^ 62 → Z.of_nat (length mrIIDs) < 2 ^ 62 →
  DiscussionFacts.Inv listDiscussions mrIIDs N s →
  ∃ s', rtc (Discussions.Step listDiscussions mrIIDs) s s' ∧
        Discussions.returned s' = true.
Proof.
  intros HN HM HI.
  pose proof (DiscussionFacts.disc_Inv_terminates listDiscussions mrIIDs N
                HN HM s HI) as Hsn.
  induction Hsn as [s _ IH].
  destruct (Discussions.returned s) eqn:Hr; [by exists s|].
  destruct (DiscussionFacts.disc_Inv_progress listDiscussions mrIIDs N s
              HI Hr) as [s1 Hstep].
  destruct (DiscussionFacts.disc_Step_Inv listDiscussions mrIIDs N HN HM
              s s1 HI Hstep) as [HI1 _].
  destruct (IH s1 Hstep HI1) as (s' & Hreach & Hr').
  exists s'. split; [by eapply rtc_l | done].
Qed.




(** ** The files of a run *)

Definition commitsFile (dataDir : list Z) : list Z :=
  dataDir ++ str "/commits.csv".
Definition mrsFile (dataDir : list Z) : list Z :=
  dataDir ++ str "/merge_requests.csv".
Definition notesFile (dataDir : list Z) : list Z :=
  dataDir ++ str "/notes.csv".

(** What an exporter appends to a file whose content was [data]. *)
Definition appended {A} (header : list (list Z)) (row : A → list (list Z))
    (records : list A) (data : list Z) : list Z :=
  (if decide (length data = 0%nat) then csvWrite header else []) ++
  rowsOf row records.

Lemma csv_files_differ (dataDir : list Z) :
  commitsFile dataDir ≠ mrsFile dataDir ∧
  commitsFile dataDir ≠ notesFile dataDir ∧
  mrsFile dataDir ≠ notesFile dataDir.
Proof.
  unfold commitsFile, mrsFile, notesFile.
  repeat split; intros H; by apply app_inv_head in H.
Qed.

Lemma writeCSV_file {A} (header : list (list Z)) (row : A → list (list Z))
    (records : list A) (filename data : list Z) (fs : filesystem) :
  OpenAppend fs filename = Some data →
  orElse fs (writeCSV header row records filename fs) !! filename
    = Some (File (data ++ appended header row records data)).
Proof.
  intros Hopen. rewrite (writeCSV_output header row records filename fs data)
    by done.
  unfold orElse, appendClose. simpl. by rewrite lookup_insert_eq.
Qed.

Lemma OpenAppend_lookup (fs fs' : filesystem) (name : list Z) :
  fs' !! name = fs !! name → OpenAppend fs' name = OpenAppend fs name.
Proof. unfold OpenAppend. by intros ->. Qed.

(** X17: The three exports of [fetchAll] do not depend on one another: each
    file that can be opened gets its own header, if it was empty, and its
    own rows, whether or not the other files could be written; the notes
    file is not even created when there is no note; no other file
    changes. *)
Theorem outputs_independent (dataDir : list Z) (commits : list Commit)
    (mrs : list BasicMergeRequest) (notes : list Note) (fs : filesystem) :
  let fs' := writeOutputs dataDir commits mrs notes fs in
  (∀ data, OpenAppend fs (commitsFile dataDir) = Some data →
     fs' !! commitsFile dataDir
       = Some (File (data ++ appended commitsHeader commitRow commits data))) ∧
  (∀ data, OpenAppend fs (mrsFile dataDir) = Some data →
     fs' !! mrsFile dataDir
       = Some (File (data ++ appended mrsHeader mrRow mrs data))) ∧
  (∀ data, OpenAppend fs (notesFile dataDir) = Some data → notes ≠ [] →
     fs' !! notesFile dataDir
       = Some (File (data ++ appended notesHeader noteRow notes data))) ∧
  (notes = [] → fs' !! notesFile dataDir = fs !! notesFile dataDir) ∧
  (∀ name, name ≠ commitsFile dataDir → name ≠ mrsFile dataDir →
           name ≠ notesFile dataDir → fs' !! name = fs !! name).
Proof.
  destruct (csv_files_differ dataDir) as (Hcm & Hcn & Hmn).
  unfold writeOutputs. cbv zeta.
  fold (commitsFile dataDir) (mrsFile dataDir) (notesFile dataDir).
  set (fs1 := orElse fs (writeCommitsCSV commits (commitsFile dataDir) fs)).
  set (fs2 := orElse fs1 (writeMRsCSV mrs (mrsFile dataDir) fs1)).
  assert (∀ name, name ≠ commitsFile dataDir → fs1 !! name = fs !! name)
    as H1 by (intros name Hne;
              by apply (writeCSV_other commitsHeader commitRow)).
  assert (∀ name, name ≠ mrsFile dataDir → fs2 !! name = fs1 !! name)
    as H2 by (intros name Hne; by apply (writeCSV_other mrsHeader mrRow)).
  assert (∀ data, OpenAppend fs (commitsFile dataDir) = Some data →
            fs1 !! commitsFile dataDir
              = Some (File (data ++
                              appended commitsHeader commitRow commits data)))
    as Hc by (intros data Hopen;
              by apply (writeCSV_file commitsHeader commitRow)).
  assert (∀ data, OpenAppend fs (mrsFile dataDir) = Some data →
            fs2 !! mrsFile dataDir
              = Some (File (data ++ appended mrsHeader mrRow mrs data)))
    as Hm.
  { intros data Hopen. apply (writeCSV_file mrsHeader mrRow).
    by rewrite (OpenAppend_lookup fs fs1) by (apply H1; congruence). }
  destruct notes as [|n notes]; simpl (0 <? _).
  - cbv iota. repeat split.
    + intros data Hopen. rewrite H2 by done. by apply Hc.
    + exact Hm.
    + done.
    + intros _. rewrite H2, H1; [done | congruence..].
    + intros name Hn1 Hn2 Hn3. by rewrite H2, H1.
  - cbv iota.
    set (fs3 := orElse fs2 (writeNotesCSV (n :: notes) (notesFile dataDir)
                              fs2)).
    assert (∀ name, name ≠ notesFile dataDir → fs3 !! name = fs2 !! name)
      as H3 by (intros name Hne;
                by apply (writeCSV_other notesHeader noteRow)).
    repeat split.
    + intros data Hopen. rewrite H3, H2 by done. by apply Hc.
    + intros data Hopen. rewrite H3 by done. by apply Hm.
    + intros data Hopen _. apply (writeCSV_file notesHeader noteRow).
      rewrite (OpenAppend_lookup fs fs2); [done|].
      rewrite H2, H1; [done | congruence..].
    + done.
    + intros name Hn1 Hn2 Hn3. by rewrite H3, H2, H1.
Qed.

Lemma outputs_independent_witness :
  writeOutputs (str "data") [] [] []
    {[ commitsFile (str "data") := NoAccess ]} !! mrsFile (str "data")
  = Some (File ([] ++ appended mrsHeader mrRow [] [])).
Proof.
  refine (proj1 (proj2 (outputs_independent (str "data") [] [] []
                          {[ commitsFile (str "data") := NoAccess ]})) [] _).
  unfold OpenAppend. rewrite lookup_singleton_ne; [done|].
  apply (csv_files_differ (str "data")).
Defined.

(** The files a run may write. *)
Definition outputFiles (dataDir : list Z) : list (list Z) :=
  [commitsFile dataDir; mrsFile dataDir; notesFile dataDir;
   indexFile dataDir].

Lemma markProjectFetched_other (dataDir : list Z) (projectID : Z)
    (projectPath name : list Z) (fs : filesystem) :
  name ≠ indexFile dataDir →
  markProjectFetched dataDir projectID projectPath fs !! name = fs !! name.
Proof.
  intros Hne. unfold markProjectFetched.
  destruct (OpenAppend fs (indexFile dataDir)); [|done].
  unfold appendClose. by rewrite lookup_insert_ne.
Qed.

Lemma writeOutputs_no_notes (dataDir : list Z) (commits : list Commit)
    (mrs : list BasicMergeRequest) (fs : filesystem) :
  writeOutputs dataDir commits mrs [] fs !! notesFile dataDir
    = fs !! notesFile dataDir.
Proof.
  destruct (csv_files_differ dataDir) as (Hcm & Hcn & Hmn).
  unfold writeOutputs, writeCommitsCSV, writeMRsCSV. simpl.
  fold (commitsFile dataDir) (mrsFile dataDir).
  rewrite !writeCSV_other; [done | congruence..].
Qed.

Lemma writeOutputs_other (dataDir : list Z) (commits : list Commit)
    (mrs : list BasicMergeRequest) (notes : list Note) (name : list Z)
    (fs : filesystem) :
  name ∉ outputFiles dataDir →
  writeOutputs dataDir commits mrs notes fs !! name = fs !! name.
Proof.
  intros Hname. unfold outputFiles in Hname.
  rewrite !not_elem_of_cons in Hname.
  destruct Hname as (Hc & Hm & Hn & _).
  unfold writeOutputs, writeCommitsCSV, writeMRsCSV, writeNotesCSV.
  cbv zeta.
  destruct (0 <? Z.of_nat (length notes)); by rewrite !writeCSV_other.
Qed.

(** X18: The fetch loop, and so a completed run of [main], writes to the three
    CSV files and the index of the data folder and to no other path; with
    [--skip-discussions] it does not touch the notes file either. *)
Theorem run_touches_own_files (client : Client) (workers : Z)
    (dataDir : list Z) (skip : bool) (projects : list Project)
    (fs fs' : filesystem) :
  fetchLoop client workers dataDir skip projects fs fs' →
  (∀ name, name ∉ outputFiles dataDir → fs' !! name = fs !! name) ∧
  (skip = true → fs' !! notesFile dataDir = fs !! notesFile dataDir).
Proof.
  induction 1 as [fs|project projects fs fs1 fs2 Hfetch _ IH]; [done|].
  destruct IH as [IHother IHnotes].
  destruct Hfetch as [commits mrs notes _ _ Hnotes]. split.
  - intros name Hname. rewrite IHother by done.
    rewrite markProjectFetched_other, writeOutputs_other; [done | done |].
    intros ->. apply Hname. unfold outputFiles.
    rewrite !elem_of_cons. tauto.
  - intros ->. rewrite IHnotes by done. subst notes.
    rewrite markProjectFetched_other; [apply writeOutputs_no_notes|].
    intros Heq. by apply (indexFile_not_csv dataDir).
Qed.

Lemma run_touches_own_files_witness :
  markProjectFetched (str "data") 7 (str "group/proj")
    (writeOutputs (str "data") [] [] [] ∅) !! notesFile (str "data")
  = (∅ : filesystem) !! notesFile (str "data").
Proof.
  refine (proj2 (run_touches_own_files oneProjectClient 1 (str "data") true
                   [projectSeven] ∅ _ (fetch_projectSeven true ∅)) eq_refl).
Defined.

(** ** Resolving a path to projects *)

(** The paging fields of a [gitlab.Response]. *)
Record Response := { CurrentPage : Z; TotalPages : Z; NextPage : Z }.

Record Group := { g_ID : Z }.

(** The four requests of the resolver; [None] is a request that returns an
    error. The list requests take the group and the page. The remote gives
    the same answer to the same request for the time of a run. *)
Record Remote := {
  GetProject : list Z → option Project;
  GetGroup : list Z → option Group;
  ListSubGroups : Z → Z → option (list Group * Response);
  ListGroupProjects : Z → Z → option (list Project * Response)
}.

(** The outcome of a function whose loops are driven by the answers of the
    remote: the fuel bounds the iterations of each loop, and [OutOfFuel]
    stands for a loop that has not ended within the bound. *)
Inductive fetched (A : Type) :=
  | OutOfFuel
  | Failed
  | Done (x : A).
Arguments OutOfFuel {A}.
Arguments Failed {A}.
Arguments Done {A} x.

(** The loop of [listGroupProjects], from the page [page] on. *)
Fixpoint projectPages (fuel : nat) (remote : Remote) (groupID page : Z)
    (allProjects : list Project) : fetched (list Project) :=
  match fuel with
  | O => OutOfFuel
  | S fuel' =>
      match ListGroupProjects remote groupID page with
      | None => Failed
      | Some (projects, resp) =>
          let allProjects := allProjects ++ projects in
          if NextPage resp =? 0 then Done allProjects
          else projectPages fuel' remote groupID (NextPage resp) allProjects
      end
  end.

Definition listGroupProjects (fuel : nat) (remote : Remote) (groupID : Z)
    : fetched (list Project) :=
  projectPages fuel remote groupID 1 [].

(** The loop over the subgroups of one page. *)
Fixpoint eachSubgroup (fuel : nat) (remote : Remote) (groups : list Group)
    (allProjects : list Project) : fetched (list Project) :=
  match groups with
  | [] => Done allProjects
  | subgroup :: groups' =>
      match listGroupProjects fuel remote (g_ID subgroup) with
      | Done subgroupProjects =>
          eachSubgroup fuel remote groups' (allProjects ++ subgroupProjects)
      | Failed => Failed
      | OutOfFuel => OutOfFuel
      end
  end.

(** The loop over the pages of subgroups; [inner] bounds the loops of the
    calls of [listGroupProjects]. *)
Fixpoint subgroupPages (fuel inner : nat) (remote : Remote)
    (groupID page : Z) (allProjects : list Project)
    : fetched (list Project) :=
  match fuel with
  | O => OutOfFuel
  | S fuel' =>
      match ListSubGroups remote groupID page with
      | None => Failed
      | Some (groups, resp) =>
          match eachSubgroup inner remote groups allProjects with
          | Done allProjects =>
              if TotalPages resp <=? CurrentPage resp then Done allProjects
              else subgroupPages fuel' inner remote groupID (NextPage resp)
                     allProjects
          | Failed => Failed
          | OutOfFuel => OutOfFuel
          end
      end
  end.

Definition recursivelyFetchProjectFromPath (fuel : nat) (remote : Remote)
    (path : list Z) : fetched (list Project) :=
  match GetProject remote path with
  | Some project => Done [project]
  | None =>
      match GetGroup remote path with
      | None => Failed
      | Some group =>
          match subgroupPages fuel fuel remote (g_ID group) 1 [] with
          | Done allProjects =>
              match listGroupProjects fuel remote (g_ID group) with
              | Done groupProjects => Done (allProjects ++ groupProjects)
              | Failed => Failed
              | OutOfFuel => OutOfFuel
              end
          | Failed => Failed
          | OutOfFuel => OutOfFuel
          end
      end
  end.

(** The projects on one page of a group, none when the request fails. *)
Definition projectsOnPage (remote : Remote) (groupID page : Z)
    : list Project :=
  match ListGroupProjects remote groupID page with
  | Some (projects, _) => projects
  | None => []
  end.

(** The remote serves the projects of the group on the pages [1..T], each
    page pointing to the next one and the last one to no page. *)
Definition pagedProjects (remote : Remote) (groupID T : Z) : Prop :=
  ∀ page, 1 ≤ page ≤ T →
    ∃ projects resp,
      ListGroupProjects remote groupID page = Some (projects, resp) ∧
      NextPage resp = if page =? T then 0 else page + 1.

Lemma projectPages_chain (remote : Remote) (groupID T : Z) :
  pagedProjects remote groupID T →
  ∀ (n : nat) (page : Z) (fuel : nat) (allProjects : list Project),
    1 ≤ page → page + Z.of_nat n = T → (n < fuel)%nat →
    projectPages fuel remote groupID page allProjects
      = Done (allProjects ++
              flat_map (projectsOnPage remote groupID)
                (seqZ page (Z.of_nat n + 1))).
Proof.
  intros Hpaged. induction n as [|n IH]; intros page fuel acc Hp HT Hfuel.
  - destruct fuel as [|fuel]; [lia|]. cbn [projectPages].
    destruct (Hpaged page) as (projects & resp & Hreq & Hnext); [lia|].
    rewrite Hreq, Hnext.
    replace (page =? T) with true by (symmetry; apply Z.eqb_eq; lia).
    change (Z.of_nat 0 + 1) with 1.
    rewrite seqZ_cons, seqZ_nil by lia. cbn [flat_map].
    unfold projectsOnPage. rewrite Hreq. by rewrite app_nil_r.
  - destruct fuel as [|fuel]; [lia|]. cbn [projectPages].
    destruct (Hpaged page) as (projects & resp & Hreq & Hnext); [lia|].
    rewrite Hreq, Hnext.
    replace (page =? T) with false by (symmetry; apply Z.eqb_neq; lia).
    replace (page + 1 =? 0) with false by (symmetry; apply Z.eqb_neq; lia).
    rewrite (IH (page + 1)) by lia.
    rewrite (seqZ_cons page) by lia. cbn [flat_map].
    unfold projectsOnPage at 2. rewrite Hreq.
    rewrite <- app_assoc.
    replace (Z.succ page) with (page + 1) by lia.
    by replace (Z.pred (Z.of_nat (S n) + 1)) with (Z.of_nat n + 1) by lia.
Qed.

(** The requests for the pages before [k] succeed and point to the next
    page, the request for page [k] fails. *)
Definition projectsFailOn (remote : Remote) (groupID k : Z) : Prop :=
  (∀ page, 1 ≤ page < k →
     ∃ projects resp,
       ListGroupProjects remote groupID page = Some (projects, resp) ∧
       NextPage resp = page + 1) ∧
  ListGroupProjects remote groupID k = None.

Lemma projectPages_failure (remote : Remote) (groupID k : Z) :
  projectsFailOn remote groupID k →
  ∀ (n : nat) (page : Z) (fuel : nat) (allProjects : list Project),
    1 ≤ page → page + Z.of_nat n = k → (n < fuel)%nat →
    projectPages fuel remote groupID page allProjects = Failed.
Proof.
  intros [Hgood Hfail].
  induction n as [|n IH]; intros page fuel acc Hp Hk Hfuel.
  - destruct fuel as [|fuel]; [lia|]. cbn [projectPages].
    replace page with k by lia. by rewrite Hfail.
  - destruct fuel as [|fuel]; [lia|]. cbn [projectPages].
    destruct (Hgood page) as (projects & resp & Hreq & Hnext); [lia|].
    rewrite Hreq, Hnext.
    replace (page + 1 =? 0) with false by (symmetry; apply Z.eqb_neq; lia).
    apply IH; lia.
Qed.

Lemma projectPages_endless (remote : Remote) (groupID : Z) :
  (∀ page, ∃ projects resp,
     ListGroupProjects remote groupID page = Some (projects, resp) ∧
     NextPage resp ≠ 0) →
  ∀ (fuel : nat) (page : Z) (allProjects : list Project),
    projectPages fuel remote groupID page allProjects = OutOfFuel.
Proof.
  intros Hnext. induction fuel as [|fuel IH]; intros page acc; [done|].
  cbn [projectPages].
  destruct (Hnext page) as (projects & resp & -> & Hne).
  replace (NextPage resp =? 0) with false by (symmetry; by apply Z.eqb_neq).
  apply IH.
Qed.

Lemma projectPages_more_fuel (remote : Remote) (groupID : Z) :
  ∀ (fuel fuel' : nat) (page : Z) (allProjects : list Project),
    (fuel ≤ fuel')%nat →
    projectPages fuel remote groupID page allProjects ≠ OutOfFuel →
    projectPages fuel' remote groupID page allProjects
      = projectPages fuel remote groupID page allProjects.
Proof.
  induction fuel as [|fuel IH]; intros fuel' page acc Hle Hdone; [done|].
  destruct fuel' as [|fuel']; [lia|]. cbn [projectPages] in *.
  destruct (ListGroupProjects remote groupID page) as [[projects resp]|];
    [|done].
  destruct (NextPage resp =? 0); [done|]. apply IH; [lia | done].
Qed.

(** What [listGroupProjects] does with the pages of the remote. *)
Definition followsNextPage (remote : Remote) (groupID : Z) : Prop :=
  (∀ T fuel, 1 ≤ T → pagedProjects remote groupID T →
     (Z.to_nat T ≤ fuel)%nat →
     listGroupProjects fuel remote groupID
       = Done (flat_map (projectsOnPage remote groupID) (seqZ 1 T))) ∧
  (∀ k fuel, 1 ≤ k → projectsFailOn remote groupID k →
     (Z.to_nat k ≤ fuel)%nat →
     listGroupProjects fuel remote groupID = Failed) ∧
  ((∀ page, ∃ projects resp,
      ListGroupProjects remote groupID page = Some (projects, resp) ∧
      NextPage resp ≠ 0) →
   ∀ fuel, listGroupProjects fuel remote groupID = OutOfFuel) ∧
  (∀ fuel fuel', (fuel ≤ fuel')%nat →
     listGroupProjects fuel remote groupID ≠ OutOfFuel →
     listGroupProjects fuel' remote groupID
       = listGroupProjects fuel remote groupID).

(** X19: [listGroupProjects] follows [NextPage] from page 1: when the remote
    serves [T] pages that point to one another and the last one to no page,
    it returns the projects of the pages [1..T] in order; when a request
    fails on the way it returns the error and none of the projects read so
    far; when no answer ever has [NextPage = 0] the loop does not end; and
    a result reached within some bound on the iterations is the result for
    any larger bound. *)
Theorem listGroupProjects_follows_pages (remote : Remote) (groupID : Z) :
  followsNextPage remote groupID.
Proof.
  unfold followsNextPage, listGroupProjects. split; [|split; [|split]].
  - intros T fuel HT Hpaged Hfuel.
    rewrite (projectPages_chain remote groupID T Hpaged (Z.to_nat (T - 1)))
      by lia.
    cbn [app]. by replace (Z.of_nat (Z.to_nat (T - 1)) + 1) with T by lia.
  - intros k fuel Hk Hfails Hfuel.
    apply (projectPages_failure remote groupID k Hfails (Z.to_nat (k - 1)));
      lia.
  - intros Hnext fuel. by apply projectPages_endless.
  - intros fuel fuel' Hle Hdone. by apply projectPages_more_fuel.
Qed.

(** A remote with one group, number 1, whose three projects come on two
    pages, and whose only subgroup, number 2, holds one project. *)
Definition exampleRemote : Remote :=
  {| GetProject := λ _, None;
     GetGroup := λ path,
       if string_eqb path (str "group") then Some {| g_ID := 1 |} else None;
     ListSubGroups := λ groupID page,
       if (groupID =? 1) && (page =? 1)
       then Some ([ {| g_ID := 2 |} ],
                  {| CurrentPage := 1; TotalPages := 1; NextPage := 0 |})
       else Some ([], {| CurrentPage := page; TotalPages := 0;
                         NextPage := 0 |});
     ListGroupProjects := λ groupID page,
       if groupID =? 1 then
         if page =? 1
         then Some ([ {| p_ID := 11; p_PathWithNamespace := str "group/a" |};
                      {| p_ID := 12; p_PathWithNamespace := str "group/b" |} ],
                    {| CurrentPage := 1; TotalPages := 2; NextPage := 2 |})
         else Some ([ {| p_ID := 13; p_PathWithNamespace := str "group/c" |} ],
                    {| CurrentPage := 2; TotalPages := 2; NextPage := 0 |})
       else
         Some ([ {| p_ID := 21; p_PathWithNamespace := str "group/sub/d" |} ],
               {| CurrentPage := 1; TotalPages := 1; NextPage := 0 |}) |}.

Lemma exampleRemote_paged : pagedProjects exampleRemote 1 2.
Proof.
  intros page Hpage. unfold exampleRemote. simpl.
  destruct (page =? 1) eqn:E1.
  - eexists _, _. split; [done|]. simpl.
    destruct (page =? 2) eqn:E2; [lia|]. lia.
  - eexists _, _. split; [done|]. simpl.
    destruct (page =? 2) eqn:E2; [done | lia].
Defined.

Lemma listGroupProjects_follows_pages_witness :
  listGroupProjects 2 exampleRemote 1
  = Done (flat_map (projectsOnPage exampleRemote 1) (seqZ 1 2)).
Proof.
  refine (proj1 (listGroupProjects_follows_pages exampleRemote 1) 2 2%nat
            _ exampleRemote_paged _); lia.
Defined.

(** The subgroups on one page, none when the request fails. *)
Definition subgroupsOnPage (remote : Remote) (groupID page : Z)
    : list Group :=
  match ListSubGroups remote groupID page with
  | Some (groups, _) => groups
  | None => []
  end.

(** The remote serves the subgroups of the group on [T] pages and says so
    in every answer. *)
Definition pagedSubgroups (remote : Remote) (groupID T : Z) : Prop :=
  ∀ page, 1 ≤ page ≤ T →
    ∃ groups resp,
      ListSubGroups remote groupID page = Some (groups, resp) ∧
      CurrentPage resp = page ∧ TotalPages resp = T ∧
      (page < T → NextPage resp = page + 1).

Lemma eachSubgroup_done (inner : nat) (remote : Remote)
    (projectsOf : Z → list Project) (groups : list Group) :
  Forall (λ sg, listGroupProjects inner remote (g_ID sg)
                = Done (projectsOf (g_ID sg))) groups →
  ∀ allProjects,
    eachSubgroup inner remote groups allProjects
      = Done (allProjects ++ flat_map (λ sg, projectsOf (g_ID sg)) groups).
Proof.
  induction 1 as [|sg groups Hsg _ IH]; intros acc; simpl.
  - by rewrite app_nil_r.
  - by rewrite Hsg, IH, <- app_assoc.
Qed.

Lemma eachSubgroup_failed (inner : nat) (remote : Remote)
    (groups : list Group) :
  Exists (λ sg, listGroupProjects inner remote (g_ID sg) = Failed) groups →
  Forall (λ sg, listGroupProjects inner remote (g_ID sg) ≠ OutOfFuel)
    groups →
  ∀ allProjects, eachSubgroup inner remote groups allProjects = Failed.
Proof.
  intros Hfail Hfuel. induction Hfuel as [|sg groups Hsg _ IH];
    intros acc; [by apply Exists_nil in Hfail|].
  simpl. destruct (listGroupProjects inner remote (g_ID sg)) eqn:E;
    [done | done |].
  apply IH. apply Exists_cons in Hfail as [Hfail|Hfail]; [congruence | done].
Qed.

Lemma subgroupPages_chain (inner : nat) (remote : Remote)
    (projectsOf : Z → list Project) (groupID T : Z) :
  pagedSubgroups remote groupID T →
  (∀ page, 1 ≤ page ≤ T →
     Forall (λ sg, listGroupProjects inner remote (g_ID sg)
                   = Done (projectsOf (g_ID sg)))
       (subgroupsOnPage remote groupID page)) →
  ∀ (n : nat) (page : Z) (fuel : nat) (allProjects : list Project),
    1 ≤ page → page + Z.of_nat n = T → (n < fuel)%nat →
    subgroupPages fuel inner remote groupID page allProjects
      = Done (allProjects ++
              flat_map (λ sg, projectsOf (g_ID sg))
                (flat_map (subgroupsOnPage remote groupID)
                   (seqZ page (Z.of_nat n + 1)))).
Proof.
  intros Hpaged Hlist.
  induction n as [|n IH]; intros page fuel acc Hp HT Hfuel.
  - destruct fuel as [|fuel]; [lia|]. cbn [subgroupPages].
    destruct (Hpaged page) as (groups & resp & Hreq & Hcur & Htot & _);
      [lia|].
    pose proof (Hlist page ltac:(lia)) as Hdone.
    unfold subgroupsOnPage in Hdone. rewrite Hreq in Hdone.
    rewrite Hreq, (eachSubgroup_done inner remote projectsOf) by done.
    rewrite Hcur, Htot.
    replace (T <=? page) with true by (symmetry; apply Z.leb_le; lia).
    change (Z.of_nat 0 + 1) with 1.
    rewrite seqZ_cons, seqZ_nil by lia. cbn [flat_map].
    unfold subgroupsOnPage. rewrite Hreq. by rewrite app_nil_r.
  - destruct fuel as [|fuel]; [lia|]. cbn [subgroupPages].
    destruct (Hpaged page) as (groups & resp & Hreq & Hcur & Htot & Hnext);
      [lia|].
    pose proof (Hlist page ltac:(lia)) as Hdone.
    unfold subgroupsOnPage in Hdone. rewrite Hreq in Hdone.
    rewrite Hreq, (eachSubgroup_done inner remote projectsOf) by done.
    rewrite Hcur, Htot, Hnext by lia.
    replace (T <=? page) with false by (symmetry; apply Z.leb_gt; lia).
    rewrite (IH (page + 1)) by lia.
    rewrite (seqZ_cons page) by lia. cbn [flat_map].
    unfold subgroupsOnPage at 2. rewrite Hreq.
    rewrite flat_map_app, <- !app_assoc.
    replace (Z.succ page) with (page + 1) by lia.
    by replace (Z.pred (Z.of_nat (S n) + 1)) with (Z.of_nat n + 1) by lia.
Qed.

(** X20: A path that is no project but a group resolves to the projects of its
    direct subgroups, subgroup after subgroup in the order of the pages,
    followed by the projects of the group itself; the subgroups are read
    from the pages [1..T] that the remote announces, and each group's
    projects are what [listGroupProjects] returns for it. *)
Theorem recursivelyFetch_group (remote : Remote) (path : list Z)
    (group : Group) (T : Z) (fuel : nat) (projectsOf : Z → list Project) :
  GetProject remote path = None →
  GetGroup remote path = Some group →
  1 ≤ T → pagedSubgroups remote (g_ID group) T →
  (Z.to_nat T ≤ fuel)%nat →
  (∀ g, g ∈ g_ID group ::
              (g_ID <$> flat_map (subgroupsOnPage remote (g_ID group))
                          (seqZ 1 T)) →
        listGroupProjects fuel remote g = Done (projectsOf g)) →
  recursivelyFetchProjectFromPath fuel remote path
    = Done (flat_map (λ sg, projectsOf (g_ID sg))
              (flat_map (subgroupsOnPage remote (g_ID group)) (seqZ 1 T))
            ++ projectsOf (g_ID group)).
Proof.
  intros Hproject Hgroup HT Hpaged Hfuel Hlist.
  unfold recursivelyFetchProjectFromPath. rewrite Hproject, Hgroup.
  rewrite (subgroupPages_chain fuel remote projectsOf (g_ID group) T Hpaged)
    with (n := Z.to_nat (T - 1)); [| |lia..].
  - rewrite Hlist by (apply elem_of_cons; by left). cbn [app].
    by replace (Z.of_nat (Z.to_nat (T - 1)) + 1) with T by lia.
  - intros page Hpage. apply Forall_forall. intros sg Hsg.
    apply Hlist. apply elem_of_cons. right.
    apply list_elem_of_fmap. exists sg. split; [done|].
    apply list_elem_of_In, in_flat_map. exists page.
    split; [|by apply list_elem_of_In].
    apply list_elem_of_In, elem_of_seqZ. lia.
Qed.

Definition exampleProjects (groupID : Z) : list Project :=
  if groupID =? 1
  then [ {| p_ID := 11; p_PathWithNamespace := str "group/a" |};
         {| p_ID := 12; p_PathWithNamespace := str "group/b" |};
         {| p_ID := 13; p_PathWithNamespace := str "group/c" |} ]
  else [ {| p_ID := 21; p_PathWithNamespace := str "group/sub/d" |} ].

Lemma recursivelyFetch_group_witness :
  recursivelyFetchProjectFromPath 2 exampleRemote (str "group")
  = Done (exampleProjects 2 ++ exampleProjects 1).
Proof.
  refine (recursivelyFetch_group exampleRemote (str "group") {| g_ID := 1 |}
            1 2 exampleProjects eq_refl eq_refl _ _ _ _).
  - lia.
  - intros page Hpage. replace page with 1 by lia.
    eexists _, _. split; [reflexivity|]. simpl. repeat split; lia.
  - simpl. lia.
  - intros g Hg. simpl in Hg.
    rewrite !elem_of_cons, elem_of_nil in Hg.
    destruct Hg as [->|[->|[]]]; reflexivity.
Defined.

(** ** Errors while resolving *)

(** The requests for the subgroup pages before [k] succeed, none of these
    pages says it is the last one and each points to the next; the request
    for page [k] fails. *)
Definition subgroupsFailOn (remote : Remote) (groupID k : Z) : Prop :=
  (∀ page, 1 ≤ page < k →
     ∃ groups resp,
       ListSubGroups remote groupID page = Some (groups, resp) ∧
       CurrentPage resp < TotalPages resp ∧ NextPage resp = page + 1) ∧
  ListSubGroups remote groupID k = None.

(** The project listing of the subgroup fails. *)
Definition listingFails (fuel : nat) (remote : Remote) (subgroup : Group)
    : Prop :=
  listGroupProjects fuel remote (g_ID subgroup) = Failed.

(** The project listing of the subgroup ends within the bound. *)
Definition listingEnds (fuel : nat) (remote : Remote) (subgroup : Group)
    : Prop :=
  listGroupProjects fuel remote (g_ID subgroup) ≠ OutOfFuel.

Lemma eachSubgroup_cases (inner : nat) (remote : Remote)
    (groups : list Group) :
  Forall (listingEnds inner remote) groups →
  ∀ allProjects,
    eachSubgroup inner remote groups allProjects = Failed ∨
    ∃ allProjects', eachSubgroup inner remote groups allProjects
                    = Done allProjects'.
Proof.
  induction 1 as [|sg groups Hsg _ IH]; intros acc; simpl.
  - right. by exists acc.
  - unfold listingEnds in Hsg.
    destruct (listGroupProjects inner remote (g_ID sg)) eqn:E;
      [done | by left | apply IH].
Qed.

Lemma subgroupPages_page_failure (inner : nat) (remote : Remote)
    (groupID k : Z) :
  subgroupsFailOn remote groupID k →
  (∀ page, 1 ≤ page < k →
     Forall (listingEnds inner remote) (subgroupsOnPage remote groupID page)) →
  ∀ (n : nat) (page : Z) (fuel : nat) (allProjects : list Project),
    1 ≤ page → page + Z.of_nat n = k → (n < fuel)%nat →
    subgroupPages fuel inner remote groupID page allProjects = Failed.
Proof.
  intros [Hgood Hfail] Hends.
  induction n as [|n IH]; intros page fuel acc Hp Hk Hfuel.
  - destruct fuel as [|fuel]; [lia|]. cbn [subgroupPages].
    replace page with k by lia. by rewrite Hfail.
  - destruct fuel as [|fuel]; [lia|]. cbn [subgroupPages].
    destruct (Hgood page) as (groups & resp & Hreq & Hlast & Hnext); [lia|].
    pose proof (Hends page ltac:(lia)) as Hend.
    unfold subgroupsOnPage in Hend. rewrite Hreq in Hend. rewrite Hreq.
    destruct (eachSubgroup_cases inner remote groups Hend acc)
      as [-> | [acc' ->]]; [done|].
    replace (TotalPages resp <=? CurrentPage resp) with false
      by (symmetry; apply Z.leb_gt; lia).
    rewrite Hnext. apply IH; lia.
Qed.

Lemma subgroupPages_subgroup_failure (inner : nat) (remote : Remote)
    (groupID T : Z) :
  pagedSubgroups remote groupID T →
  ∀ (n : nat) (page : Z) (fuel : nat) (allProjects : list Project),
    1 ≤ page → page + Z.of_nat n = T → (n < fuel)%nat →
    Exists (listingFails inner remote)
      (flat_map (subgroupsOnPage remote groupID)
         (seqZ page (Z.of_nat n + 1))) →
    Forall (listingEnds inner remote)
      (flat_map (subgroupsOnPage remote groupID)
         (seqZ page (Z.of_nat n + 1))) →
    subgroupPages fuel inner remote groupID page allProjects = Failed.
Proof.
  intros Hpaged.
  induction n as [|n IH]; intros page fuel acc Hp HT Hfuel Hfails Hends.
  - destruct fuel as [|fuel]; [lia|]. cbn [subgroupPages].
    destruct (Hpaged page) as (groups & resp & Hreq & _); [lia|].
    change (Z.of_nat 0 + 1) with 1 in Hfails, Hends.
    rewrite seqZ_cons, seqZ_nil in Hfails, Hends by lia.
    cbn [flat_map] in Hfails, Hends. rewrite app_nil_r in Hfails, Hends.
    unfold subgroupsOnPage in Hfails, Hends. rewrite Hreq in Hfails, Hends.
    rewrite Hreq. by rewrite eachSubgroup_failed.
  - destruct fuel as [|fuel]; [lia|]. cbn [subgroupPages].
    destruct (Hpaged page) as (groups & resp & Hreq & Hcur & Htot & Hnext);
      [lia|].
    rewrite (seqZ_cons page) in Hfails, Hends by lia.
    cbn [flat_map] in Hfails, Hends.
    replace (Z.succ page) with (page + 1) in Hfails, Hends by lia.
    replace (Z.pred (Z.of_nat (S n) + 1)) with (Z.of_nat n + 1)
      in Hfails, Hends by lia.
    unfold subgroupsOnPage at 1 in Hfails.
    unfold subgroupsOnPage at 1 in Hends.
    rewrite Hreq in Hfails, Hends.
    apply Forall_app in Hends as [Hends1 Hends2]. rewrite Hreq.
    destruct (eachSubgroup_cases inner remote groups Hends1 acc)
      as [-> | [acc' Hdone]]; [done|].
    apply Exists_app in Hfails as [Hfails|Hfails].
    { by rewrite eachSubgroup_failed in Hdone. }
    rewrite Hdone, Hcur, Htot, Hnext by lia.
    replace (T <=? page) with false by (symmetry; apply Z.leb_gt; lia).
    apply IH; [lia | lia | lia | done | done].
Qed.

(** X21: Resolution is all or nothing. A path that names a project resolves to
    that single project, whatever the requests about groups would answer.
    Otherwise the first request that fails makes
    [recursivelyFetchProjectFromPath] return the error and none of the
    projects it has read: the request for the group, the request for any
    page [k] of its subgroups, the project listing of any subgroup on any
    of the pages [1..T] of subgroups, and the project listing of the group
    itself. (The project listings of the subgroups are taken to end
    within the bound on the iterations.) *)
Theorem recursivelyFetch_errors (remote : Remote) (path : list Z)
    (fuel : nat) :
  (∀ project, GetProject remote path = Some project →
     recursivelyFetchProjectFromPath fuel remote path = Done [project]) ∧
  (GetProject remote path = None →
   (GetGroup remote path = None →
    recursivelyFetchProjectFromPath fuel remote path = Failed) ∧
   ∀ group, GetGroup remote path = Some group →
     (∀ k, 1 ≤ k → (Z.to_nat k ≤ fuel)%nat →
        subgroupsFailOn remote (g_ID group) k →
        (∀ page, 1 ≤ page < k →
           Forall (listingEnds fuel remote)
             (subgroupsOnPage remote (g_ID group) page)) →
        recursivelyFetchProjectFromPath fuel remote path = Failed) ∧
     (∀ T, 1 ≤ T → (Z.to_nat T ≤ fuel)%nat →
        pagedSubgroups remote (g_ID group) T →
        Exists (listingFails fuel remote)
          (flat_map (subgroupsOnPage remote (g_ID group)) (seqZ 1 T)) →
        Forall (listingEnds fuel remote)
          (flat_map (subgroupsOnPage remote (g_ID group)) (seqZ 1 T)) →
        recursivelyFetchProjectFromPath fuel remote path = Failed) ∧
     (∀ allProjects,
        subgroupPages fuel fuel remote (g_ID group) 1 [] = Done allProjects →
        listGroupProjects fuel remote (g_ID group) = Failed →
        recursivelyFetchProjectFromPath fuel remote path = Failed)).
Proof.
  unfold recursivelyFetchProjectFromPath. split.
  - by intros project ->.
  - intros ->. split; [by intros ->|]. intros group ->.
    split; [|split].
    + intros k Hk Hfuel Hfail Hends.
      by rewrite (subgroupPages_page_failure fuel remote (g_ID group) k
                    Hfail Hends (Z.to_nat (k - 1))) by lia.
    + intros T HT Hfuel Hpaged Hfails Hends.
      rewrite (subgroupPages_subgroup_failure fuel remote (g_ID group) T
                 Hpaged (Z.to_nat (T - 1))); [done | lia | lia | lia | |].
      * by replace (Z.of_nat (Z.to_nat (T - 1)) + 1) with T by lia.
      * by replace (Z.of_nat (Z.to_nat (T - 1)) + 1) with T by lia.
    + intros allProjects -> Hown. by rewrite Hown.
Qed.

(** A remote on which the path [group] is a group whose subgroups come on
    two pages, subgroup 2 on the first and subgroup 3 on the second; the
    projects of subgroup 3 cannot be listed. *)
Definition brokenSubgroup : Remote :=
  {| GetProject := λ _, None;
     GetGroup := λ _, Some {| g_ID := 1 |};
     ListSubGroups := λ _ page,
       if page =? 1
       then Some ([ {| g_ID := 2 |} ],
                  {| CurrentPage := 1; TotalPages := 2; NextPage := 2 |})
       else Some ([ {| g_ID := 3 |} ],
                  {| CurrentPage := 2; TotalPages := 2; NextPage := 0 |});
     ListGroupProjects := λ groupID page,
       if groupID =? 3 then None
       else ListGroupProjects exampleRemote groupID page |}.

(** The same remote, except that the second page of subgroups cannot be
    read. *)
Definition brokenRemote : Remote :=
  {| GetProject := GetProject brokenSubgroup;
     GetGroup := GetGroup brokenSubgroup;
     ListSubGroups := λ groupID page,
       if page =? 2 then None else ListSubGroups brokenSubgroup groupID page;
     ListGroupProjects := ListGroupProjects exampleRemote |}.

(** A remote that knows the path as a project and fails on every request
    about groups. *)
Definition projectOnly : Remote :=
  {| GetProject := λ _, Some projectSeven;
     GetGroup := λ _, None;
     ListSubGroups := λ _ _, None;
     ListGroupProjects := λ _ _, None |}.

Lemma recursivelyFetch_errors_witness :
  recursivelyFetchProjectFromPath 2 brokenSubgroup (str "group") = Failed ∧
  recursivelyFetchProjectFromPath 2 brokenRemote (str "group") = Failed ∧
  recursivelyFetchProjectFromPath 0 projectOnly (str "group/proj")
    = Done [projectSeven].
Proof.
  split; [|split].
  - refine (proj1 (proj2 (proj2 (proj2 (recursivelyFetch_errors
                                          brokenSubgroup (str "group") 2)
                                   eq_refl)
                            {| g_ID := 1 |} eq_refl))
              2 _ _ _ _ _).
    + lia.
    + simpl. lia.
    + intros page Hpage. assert (page = 1 ∨ page = 2) as [-> | ->] by lia;
        eexists _, _; (split; [reflexivity|]); simpl; repeat split; lia.
    + apply Exists_cons_tl, Exists_cons_hd. reflexivity.
    + apply Forall_cons_2; [discriminate|].
      apply Forall_cons_2; [discriminate | apply Forall_nil_2].
  - refine (proj1 (proj2 (proj2 (recursivelyFetch_errors
                                   brokenRemote (str "group") 2)
                            eq_refl)
                     {| g_ID := 1 |} eq_refl)
              2 _ _ _ _).
    + lia.
    + simpl. lia.
    + split; [|reflexivity]. intros page Hpage.
      replace page with 1 by lia.
      eexists _, _. split; [reflexivity|]. simpl. lia.
    + intros page Hpage. replace page with 1 by lia.
      apply Forall_cons_2; [discriminate | apply Forall_nil_2].
  - exact (proj1 (recursivelyFetch_errors projectOnly (str "group/proj") 0)
             projectSeven eq_refl).
Defined.

(** ** The URLs of a run *)

(** The URL is accepted by [extractPath] and its path resolves to
    [projects]. *)
Definition resolvesTo (Parse : list Z → option URL) (client : Client)
    (base url : list Z) (projects : list Project) : Prop :=
  ∃ path, extractPath Parse url base = Ok path ∧
          resolveProjects client path = Some projects.

Lemma resolveURLs_Ok (Parse : list Z → option URL) (client : Client)
    (base : list Z) (urls : list (list Z)) :
  ∀ acc all,
    snd (resolveURLs Parse client base urls acc) = Ok all ↔
    ∃ resolved, Forall2 (resolvesTo Parse client base) urls resolved ∧
                all = acc ++ concat resolved.
Proof.
  induction urls as [|url urls IH]; intros acc all.
  - simpl. split.
    + intros [= <-]. exists []. split; [constructor | by rewrite app_nil_r].
    + intros (resolved & Hall & ->). apply Forall2_nil_inv_l in Hall as ->.
      simpl. by rewrite app_nil_r.
  - cbn [resolveURLs]. split.
    + destruct (extractPath Parse url base) as [path|e] eqn:Hpath; [|done].
      destruct (resolveProjects client path) as [projects|] eqn:Hres;
        [|done].
      destruct (resolveURLs Parse client base urls (acc ++ projects))
        as [calls r] eqn:Hrest.
      simpl. intros ->.
      destruct (proj1 (IH (acc ++ projects) all)) as (resolved & Hall & ->).
      { by rewrite Hrest. }
      exists (projects :: resolved). split.
      * constructor; [by exists path | done].
      * simpl. by rewrite app_assoc.
    + intros (resolved & Hall & ->).
      apply Forall2_cons_inv_l in Hall
        as (projects & resolved' & (path & Hpath & Hres) & Hall & ->).
      rewrite Hpath, Hres.
      destruct (resolveURLs Parse client base urls (acc ++ projects))
        as [calls r] eqn:Hrest.
      simpl. pose proof (proj2 (IH (acc ++ projects)
                                  ((acc ++ projects) ++ concat resolved')))
        as Hok.
      rewrite Hrest in Hok. simpl in Hok. rewrite Hok.
      * simpl. by rewrite app_assoc.
      * by exists resolved'.
Qed.

(** Every run ends with a fatal error: the fetch loop is not entered and no
    file is written. *)
Definition endsFatally (Parse : list Z → option URL) (client : Client)
    (env : gmap (list Z) (list Z)) (skip : bool) (urls : list (list Z))
    (fs : filesystem) : Prop :=
  ∀ o, mainRuns Parse client env skip urls fs o → ∃ e, o = Fatal e.

(** X22: [main] resolves all URLs before it fetches anything: the projects of a
    run are those of the URLs in the order of the command line, one list
    after the other, without those the index holds; and when a single URL
    is rejected or fails to resolve, wherever it stands in the command
    line, the run ends with a fatal error before the first fetch. *)
Theorem main_resolves_all_or_nothing (Parse : list Z → option URL)
    (client : Client) (env : gmap (list Z) (list Z)) (skip : bool)
    (urls : list (list Z)) (fs : filesystem) :
  (∀ plan, snd (mainSetup Parse client env urls fs) = Ok plan →
     ∃ resolved,
       Forall2 (resolvesTo Parse client (Getenv env (str "GITLAB_URL")))
         urls resolved ∧
       planProjects plan
         = projectsToFetch
             (loadFetchedProjects (Getenv env (str "DATA_FOLDER")) fs)
             (concat resolved)) ∧
  (Exists (λ url, ∀ projects,
             ¬ resolvesTo Parse client (Getenv env (str "GITLAB_URL")) url
                 projects) urls →
   endsFatally Parse client env skip urls fs).
Proof.
  assert (∀ plan, snd (mainSetup Parse client env urls fs) = Ok plan →
     ∃ resolved,
       Forall2 (resolvesTo Parse client (Getenv env (str "GITLAB_URL")))
         urls resolved ∧
       planProjects plan
         = projectsToFetch
             (loadFetchedProjects (Getenv env (str "DATA_FOLDER")) fs)
             (concat resolved)) as Hplan.
  { intros plan. unfold mainSetup. cbv zeta.
    destruct (string_eqb (Getenv env (str "GITLAB_URL")) []
              || string_eqb (Getenv env (str "GITLAB_TOKEN")) []); [done|].
    destruct (string_eqb (Getenv env (str "DATA_FOLDER")) []); [done|].
    destruct urls as [|url urls]; [done|].
    destruct (resolveURLs Parse client (Getenv env (str "GITLAB_URL"))
                (url :: urls) []) as [calls [all|e]] eqn:Hres; [|done].
    simpl. intros [= <-]. simpl.
    destruct (proj1 (resolveURLs_Ok Parse client
                       (Getenv env (str "GITLAB_URL")) (url :: urls) [] all))
      as (resolved & Hall & ->); [by rewrite Hres|].
    by exists resolved. }
  split; [exact Hplan|].
  intros Hbad o Hrun. unfold mainRuns in Hrun.
  destruct (snd (mainSetup Parse client env urls fs)) as [plan|e] eqn:Hsetup;
    [|by exists e].
  destruct (Hplan plan eq_refl) as (resolved & Hall & _).
  apply Exists_exists in Hbad as (url & Hin & Hno).
  apply list_elem_of_lookup in Hin as [i Hi].
  destruct (Forall2_lookup_l _ _ _ i url Hall Hi) as (projects & _ & Hyes).
  by apply Hno in Hyes.
Qed.

Lemma main_resolves_all_or_nothing_witness :
  endsFatally ParsePlain oneProjectClient exampleEnv false
    [str "https://gitlab.example/group/proj";
     str "https://other.example/group/proj"] ∅.
Proof.
  refine (proj2 (main_resolves_all_or_nothing ParsePlain oneProjectClient
                   exampleEnv false _ ∅) _).
  apply Exists_cons_tl, Exists_cons_hd.
  intros projects (path & Hpath & _). by vm_compute in Hpath.
Defined.

(** ** No deadlock *)

(** X23: On any resource, as long as the paginated fetcher has not returned, one
    of its goroutines can take a step: a worker is never blocked for good
    on the channel, and the collector is never left waiting on a channel
    that nobody will close. *)
Theorem fetch_never_deadlocks {A} (fetchPage : Z → list A) (N : Z)
    (s0 s : @Pager.state A) :
  0 ≤ N < 2 ^ 62 →
  Pager.init N = Some s0 → rtc (Pager.Step fetchPage) s0 s →
  Pager.returned s = false →
  ∃ s', Pager.Step fetchPage s s'.
Proof.
  intros HN Hinit Hreach Hr.
  destruct (PagerPages.reachable_Whole fetchPage N s0 s
              (PagerPages.Whole_init fetchPage N s0 Hinit) Hreach)
    as (collected & inflight & HP).
  pose proof (PagerPages.pages_len fetchPage N s _ _ HP) as Hlen.
  pose proof (PagerPages.pages_capacity fetchPage N s _ _ HP) as Hcap.
  rewrite wrap64_small in Hcap by lia.
  destruct (Pager.results s) as [|records rest] eqn:Hres.
  - destruct (forallb Pager.isExited (Pager.workers s)) eqn:Hall.
    + destruct (Pager.closed s) eqn:Hc.
      * eexists. exists Collector. simpl. unfold Pager.collectorStep.
        by rewrite Hr, Hres, Hc.
      * eexists. exists Closer. simpl. unfold Pager.closerStep.
        by rewrite Hc, Hall.
    + destruct (PagerFacts.forallb_false_lookup _ _ Hall)
        as (i & w & Hw & Hlive).
      pose proof (lookup_lt_Some _ _ _ Hw) as Hlt.
      destruct w as [| |page|page|page records|]; try done.
      * destruct (Pager.stop s =? 1) eqn:Hstop;
          eexists; exists (Worker i); simpl; unfold Pager.workerStep;
          by rewrite Hw, Hstop.
      * eexists. exists (Worker i). simpl. unfold Pager.workerStep.
        by rewrite Hw.
      * destruct (Z.of_nat (length (fetchPage page)) =? 0) eqn:Hempty;
          eexists; exists (Worker i); simpl; unfold Pager.workerStep;
          by rewrite Hw, Hempty.
      * eexists. exists (Worker i). simpl. unfold Pager.workerStep.
        by rewrite Hw.
      * eexists. exists (Worker i). simpl. unfold Pager.workerStep.
        rewrite Hw, Hres. rewrite decide_True; [done|]. simpl. lia.
  - eexists. exists Collector. simpl. unfold Pager.collectorStep.
    by rewrite Hr, Hres.
Qed.

Lemma fetch_never_deadlocks_witness :
  ∃ s', Pager.Step twoPages twoPagesStart s'.
Proof.
  apply (fetch_never_deadlocks twoPages 2 twoPagesStart twoPagesStart).
  - lia.
  - reflexivity.
  - constructor.
  - reflexivity.
Defined.

(** ** From the pages to the files *)

Lemma writeOutputs_commitsFile (dataDir : list Z) (commits : list Commit)
    (mrs : list BasicMergeRequest) (notes : list Note) (fs : filesystem)
    (data : list Z) :
  OpenAppend fs (commitsFile dataDir) = Some data →
  writeOutputs dataDir commits mrs notes fs !! commitsFile dataDir
    = Some (File (data ++ appended commitsHeader commitRow commits data)).
Proof.
  intros Hopen. destruct (csv_files_differ dataDir) as (Hcm & Hcn & Hmn).
  unfold writeOutputs, writeMRsCSV, writeNotesCSV. cbv zeta.
  fold (commitsFile dataDir) (mrsFile dataDir) (notesFile dataDir).
  destruct (0 <? Z.of_nat (length notes));
    rewrite !writeCSV_other by done;
    by apply (writeCSV_file commitsHeader commitRow).
Qed.

Lemma writeOutputs_mrsFile (dataDir : list Z) (commits : list Commit)
    (mrs : list BasicMergeRequest) (notes : list Note) (fs : filesystem)
    (data : list Z) :
  OpenAppend fs (mrsFile dataDir) = Some data →
  writeOutputs dataDir commits mrs notes fs !! mrsFile dataDir
    = Some (File (data ++ appended mrsHeader mrRow mrs data)).
Proof.
  intros Hopen. destruct (csv_files_differ dataDir) as (Hcm & Hcn & Hmn).
  unfold writeOutputs, writeCommitsCSV, writeNotesCSV. cbv zeta.
  fold (commitsFile dataDir) (mrsFile dataDir) (notesFile dataDir).
  assert (OpenAppend
            (orElse fs (writeCSV commitsHeader commitRow commits
                          (commitsFile dataDir) fs)) (mrsFile dataDir)
          = Some data) as Hopen'.
  { rewrite <- Hopen. apply OpenAppend_lookup, writeCSV_other. congruence. }
  destruct (0 <? Z.of_nat (length notes));
    rewrite ?writeCSV_other by done;
    by apply (writeCSV_file mrsHeader mrRow).
Qed.

(** What [fetchAll] leaves in the files of commits and merge requests:
    for each file that could be opened, its old content, the header if it
    was empty, and the rows of the given pages in page order. *)
Definition exportsInPageOrder (client : Client) (projectID : Z)
    (dataDir : list Z) (P Q : Z) (fs fs' : filesystem) : Prop :=
  (∀ data, OpenAppend fs (commitsFile dataDir) = Some data →
     fs' !! commitsFile dataDir
       = Some (File (data ++
                     appended commitsHeader commitRow
                       (flat_map (commitPage client projectID) (seqZ 1 P))
                       data))) ∧
  (∀ data, OpenAppend fs (mrsFile dataDir) = Some data →
     fs' !! mrsFile dataDir
       = Some (File (data ++
                     appended mrsHeader mrRow
                       (flat_map (mrPage client projectID) (seqZ 1 Q))
                       data))).

(** X24: End to end, with one worker: when the commits of the project come on
    [P] pages and its merge requests on [Q] pages, [fetchAll] completes,
    and every run of it appends to [commits.csv] and [merge_requests.csv]
    the rows of exactly these pages, in page order, after the header if the
    file was empty. *)
Theorem single_worker_export (client : Client) (projectID : Z)
    (dataDir : list Z) (skip : bool) (P Q : Z) (fs : filesystem) :
  0 ≤ P < 2 ^ 62 → 0 ≤ Q < 2 ^ 62 →
  firstEmptyPage (commitPage client projectID) P →
  firstEmptyPage (mrPage client projectID) Q →
  Z.of_nat (length (flat_map (mrPage client projectID) (seqZ 1 Q))) < 2 ^ 62 →
  (∃ fs', fetchAll client projectID 1 dataDir skip fs fs') ∧
  ∀ fs', fetchAll client projectID 1 dataDir skip fs fs' →
         exportsInPageOrder client projectID dataDir P Q fs fs'.
Proof.
  intros HP HQ Hcommits Hmrs Hsize. split.
  - pose proof (one_worker_returns _ P HP Hcommits) as Hc.
    pose proof (one_worker_returns _ Q HQ Hmrs) as Hm.
    destruct skip.
    + eexists. by apply (fetchAll_done _ _ _ _ _ _ _ _ [] Hc Hm).
    + assert (0 ≤ 1 < 2 ^ 62) as H1 by lia.
      set (mrs := flat_map (mrPage client projectID) (seqZ 1 Q)) in *.
      assert (Z.of_nat (length (m_IID <$> mrs)) < 2 ^ 62) as Hsize'
        by (by rewrite length_fmap).
      pose proof (DiscussionFacts.disc_init_state 1
                    ltac:(unfold maxWorkers; lia)) as Hinit.
      pose proof (DiscussionFacts.disc_Inv_init
                    (discussionList client projectID) (m_IID <$> mrs) 1 H1 _
                    Hinit) as HI.
      destruct (discussions_can_return _ _ 1 _ H1 Hsize' HI)
        as (s & Hreach & Hr).
      eexists.
      apply (fetchAll_done _ _ _ _ _ _ _ _ (Discussions.allNotes s) Hc Hm).
      by eexists _, s.
  - intros fs' [commits mrs notes Hc Hm _].
    destruct Hc as (c0 & c & Hcinit & Hcreach & Hcr & <-).
    destruct Hm as (m0 & m & Hminit & Hmreach & Hmr & <-).
    destruct (one_worker_returned _ P c0 c HP Hcommits Hcinit Hcreach Hcr)
      as [-> _].
    destruct (one_worker_returned _ Q m0 m HQ Hmrs Hminit Hmreach Hmr)
      as [-> _].
    split; intros data Hopen.
    + by apply writeOutputs_commitsFile.
    + by apply writeOutputs_mrsFile.
Qed.

(** A remote whose project 7 has two pages of commits and one page of
    merge requests, and a data folder in which [commits.csv] exists already
    while [merge_requests.csv] does not. *)
Definition pagedClient : Client :=
  {| resolveProjects := λ _, None;
     commitPage := λ _ page,
       if page =? 1 then [exampleCommit (str "Ann") (str "first")]
       else if page =? 2 then [exampleCommit (str "Bob") (str "second")]
       else [];
     mrPage := λ _ page, if page =? 1 then [exampleMR (str "topic")] else [];
     discussionList := λ _ _, Some [] |}.

Definition earlierExport : filesystem :=
  {[ commitsFile (str "data") := File (str "earlier rows") ]}.

Lemma pagedClient_commits : firstEmptyPage (commitPage pagedClient 7) 2.
Proof.
  split; [lia | split; [|reflexivity]].
  intros p Hp. assert (p = 1 ∨ p = 2) as [-> | ->] by lia; done.
Qed.

Lemma pagedClient_mrs : firstEmptyPage (mrPage pagedClient 7) 1.
Proof.
  split; [lia | split; [|reflexivity]].
  intros p Hp. by replace p with 1 by lia.
Qed.

Lemma single_worker_export_witness :
  (∃ fs', fetchAll pagedClient 7 1 (str "data") false earlierExport fs') ∧
  ∀ fs', fetchAll pagedClient 7 1 (str "data") false earlierExport fs' →
         exportsInPageOrder pagedClient 7 (str "data") 2 1 earlierExport fs'.
Proof.
  apply single_worker_export.
  - lia.
  - lia.
  - apply pagedClient_commits.
  - apply pagedClient_mrs.
  - vm_compute. reflexivity.
Defined.

(** In this example the old content of [commits.csv] is followed by the
    rows of page 1 and then of page 2, without a header, and the new file
    [merge_requests.csv] holds the header and the row of the merge
    request. *)
Lemma pagedClient_export (fs' : filesystem) :
  fetchAll pagedClient 7 1 (str "data") false earlierExport fs' →
  fs' !! commitsFile (str "data")
    = Some (File (str "earlier rows" ++
                  csvWrite (commitRow (exampleCommit (str "Ann")
                                         (str "first"))) ++
                  csvWrite (commitRow (exampleCommit (str "Bob")
                                         (str "second"))))) ∧
  fs' !! mrsFile (str "data")
    = Some (File (csvWrite mrsHeader ++
                  csvWrite (mrRow (exampleMR (str "topic"))))).
Proof.
  intros [commits mrs notes Hc Hm _].
  pose proof pagedClient_commits as Hcommits.
  pose proof pagedClient_mrs as Hmrs.
  destruct Hc as (c0 & c & Hcinit & Hcreach & Hcr & <-).
  destruct Hm as (m0 & m & Hminit & Hmreach & Hmr & <-).
  destruct (one_worker_returned _ 2 c0 c ltac:(lia) Hcommits Hcinit Hcreach
              Hcr) as [-> _].
  destruct (one_worker_returned _ 1 m0 m ltac:(lia) Hmrs Hminit Hmreach Hmr)
    as [-> _].
  split.
  - rewrite (writeOutputs_commitsFile _ _ _ _ _ (str "earlier rows"))
      by reflexivity.
    vm_compute. reflexivity.
  - rewrite (writeOutputs_mrsFile _ _ _ _ _ []) by reflexivity.
    vm_compute. reflexivity.
Qed.

(** ** A run over a folder that was used before *)

(** A data folder in which [commits.csv] holds the rows of an earlier run
    and [merge_requests.csv] cannot be opened. *)
Definition usedFolder : filesystem :=
  {[ commitsFile (str "data") := File (str "earlier rows");
     mrsFile (str "data") := NoAccess ]}.

(** The folder after the run over project 7 of [pagedClient], with one
    worker and without the discussions. *)
Definition usedFolderAfter : filesystem :=
  markProjectFetched (str "data") 7 (str "group/proj")
    (writeOutputs (str "data")
       (flat_map (commitPage pagedClient 7) (seqZ 1 2))
       (flat_map (mrPage pagedClient 7) (seqZ 1 1)) [] usedFolder).

Lemma usedFolder_run :
  fetchLoop pagedClient 1 (str "data") true [projectSeven] usedFolder
    usedFolderAfter.
Proof.
  eapply fetchLoop_cons; [|apply fetchLoop_nil].
  apply fetchAll_done.
  - apply one_worker_returns; [lia | apply pagedClient_commits].
  - apply one_worker_returns; [lia | apply pagedClient_mrs].
  - done.
Qed.

Lemma run_only_appends_witness : extends usedFolder usedFolderAfter.
Proof.
  exact (proj1 (run_only_appends pagedClient true usedFolder usedFolderAfter)
           1 (str "data") [projectSeven] usedFolder_run).
Defined.

(** In this run the two pages of commits were appended to the old content
    of [commits.csv], the path that could not be opened is as it was, and
    the index is new. *)
Lemma usedFolder_after :
  usedFolderAfter !! commitsFile (str "data")
    = Some (File (str "earlier rows" ++
                  csvWrite (commitRow (exampleCommit (str "Ann")
                                         (str "first"))) ++
                  csvWrite (commitRow (exampleCommit (str "Bob")
                                         (str "second"))))) ∧
  usedFolderAfter !! mrsFile (str "data") = Some NoAccess ∧
  usedFolder !! indexFile (str "data") = None ∧
  usedFolderAfter !! indexFile (str "data")
    = Some (File (indexEntry 7 (str "group/proj"))).
Proof. vm_compute. done. Qed.

(** ** Marking does not wait for the exports *)

(** None of the three CSV files of the data folder can be opened. *)
Definition nothingWritable (dataDir : list Z) (fs : filesystem) : Prop :=
  fs !! commitsFile dataDir = Some NoAccess ∧
  fs !! mrsFile dataDir = Some NoAccess ∧
  fs !! notesFile dataDir = Some NoAccess.

(** X25: A project is marked as fetched whether or not its data was saved: when
    none of the CSV files can be opened, the fetch loop writes no record at
    all and still appends one index entry per project, so that the next
    run finds none of these projects left to fetch. *)
Theorem marked_even_when_nothing_saved (client : Client) (workers : Z)
    (dataDir : list Z) (skip : bool) (projects : list Project)
    (fs fs' : filesystem) (entries : list (Z * list Z)) :
  nothingWritable dataDir fs →
  Forall wellFormedEntry entries →
  Forall wellFormedProject projects →
  OpenAppend fs (indexFile dataDir) = Some (entriesText entries) →
  fetchLoop client workers dataDir skip projects fs fs' →
  nothingWritable dataDir fs' ∧
  OpenAppend fs' (indexFile dataDir)
    = Some (entriesText entries ++ entriesOf projects) ∧
  projectsToFetch (loadFetchedProjects dataDir fs') projects = [].
Proof.
  intros (Hc & Hm & Hn) Hwf Hps Hopen Hloop.
  pose proof (fetchLoop_extends _ _ _ _ _ _ _ Hloop) as Hext.
  split; [|split].
  - pose proof (Hext (commitsFile dataDir)) as Hc'.
    pose proof (Hext (mrsFile dataDir)) as Hm'.
    pose proof (Hext (notesFile dataDir)) as Hn'.
    rewrite Hc in Hc'. rewrite Hm in Hm'. rewrite Hn in Hn'. done.
  - by apply (fetchLoop_index client workers dataDir skip projects fs).
  - rewrite (fetchLoop_load client workers dataDir skip projects fs fs'
               entries) by done.
    apply projectsToFetch_nil, Forall_forall. intros p Hp.
    apply lookup_insertEntries. left. rewrite fmap_app.
    apply elem_of_app. right. rewrite <- list_fmap_compose.
    apply list_elem_of_fmap. by exists p.
Qed.

(** A data folder in which the three CSV paths cannot be opened. *)
Definition lockedFolder : filesystem :=
  {[ commitsFile (str "data") := NoAccess;
     mrsFile (str "data") := NoAccess;
     notesFile (str "data") := NoAccess ]}.

Lemma marked_even_when_nothing_saved_witness :
  nothingWritable (str "data")
    (markProjectFetched (str "data") 7 (str "group/proj")
       (writeOutputs (str "data") [] [] [] lockedFolder)) ∧
  OpenAppend
    (markProjectFetched (str "data") 7 (str "group/proj")
       (writeOutputs (str "data") [] [] [] lockedFolder))
    (indexFile (str "data"))
    = Some (entriesText [] ++ entriesOf [projectSeven]) ∧
  projectsToFetch
    (loadFetchedProjects (str "data")
       (markProjectFetched (str "data") 7 (str "group/proj")
          (writeOutputs (str "data") [] [] [] lockedFolder)))
    [projectSeven] = [].
Proof.
  apply (marked_even_when_nothing_saved oneProjectClient 1 (str "data") true
           [projectSeven] lockedFolder _ []).
  - destruct (csv_files_differ (str "data")) as (Hcm & Hcn & Hmn).
    unfold nothingWritable, lockedFolder. split; [|split].
    + by rewrite lookup_insert_eq.
    + rewrite lookup_insert_ne by done. by rewrite lookup_insert_eq.
    + rewrite !lookup_insert_ne by done. by rewrite lookup_singleton_eq.
  - apply Forall_nil_2.
  - apply Forall_cons_2; [apply wellFormed_projectSeven | apply Forall_nil_2].
  - destruct (indexFile_not_csv (str "data")) as (Hc & Hm & Hn).
    unfold OpenAppend, lockedFolder. fold (commitsFile (str "data")) in Hc.
    fold (mrsFile (str "data")) in Hm. fold (notesFile (str "data")) in Hn.
    rewrite !lookup_insert_ne by done.
    by rewrite lookup_singleton_ne by done.
  - apply fetch_projectSeven.
Defined.
